(** * OpenRQinstaller: a shallow embedding of [main.go]

    The installer resolves platform-dependent locations, unpacks an embedded
    zip archive below the install directory while driving a progress bar,
    creates a launcher shortcut, and can remove all of it again.

    The development follows the source top-down:
    - [Strings]   the few [strings] and [fmt] operations the program uses;
    - [Filepath]  [path/filepath] ([Clean], [Join], [Dir]) in its Unix variant;
    - the path resolver ([GetUsername], [GetTempPath], [GetInstallPath], ...);
    - [World]     the operating system as the program sees it: a file tree,
                  a working directory, a umask and a chronological event log;
    - [Extract], [Copy], [CreateShortcut], [Uninstall] written in a small
      state monad over [World], with Go's [error] results kept as values. *)

From Stdlib Require Import ZArith NArith QArith Sorted.
From stdpp Require Import base option list strings gmap fin_maps.
From Stdlib Require Import Ascii String.

Set Default Proof Using "Type".
Local Open Scope string_scope.

(** ** Errors

    Go's [error] values.  What the program can observe of them is their
    kind; [PathError] keeps the operation and the errno of [*os.PathError]. *)

Inductive Errno := ENOENT | ENOTDIR | EISDIR | EEXIST | ENOTEMPTY | EINVAL.

Inductive error :=
| PathError (op : string) (e : Errno)   (* *os.PathError *)
| ZipError (msg : string)               (* zip.ErrFormat, ErrAlgorithm, ErrChecksum *)
| UserError                             (* user.Current failed *)
| ExitError (code : Z).                 (* *exec.ExitError of a child process *)

Global Instance Errno_eq_dec : EqDecision Errno.
Proof. solve_decision. Defined.
Global Instance error_eq_dec : EqDecision error.
Proof. solve_decision. Defined.

(** A computation either returns or panics (Go's [panic(err)]). *)
Inductive Res (A : Type) :=
| Ok (a : A)
| Panic (e : error).
Arguments Ok {A} a.
Arguments Panic {A} e.

(** ** Strings *)

Module Strings.

Definition slash : ascii := "/"%char.
Definition backslash : ascii := "\"%char.

(** [strings.Contains s (string c)] *)
Fixpoint Contains (s : string) (c : ascii) : bool :=
  match s with
  | EmptyString => false
  | String a s' => Ascii.eqb a c || Contains s' c
  end.

(** [strings.LastIndex s (string c)]: index of the last [c] in [s], or -1. *)
Fixpoint LastIndex (s : string) (c : ascii) : Z :=
  match s with
  | EmptyString => (-1)%Z
  | String a s' =>
      let i := LastIndex s' c in
      if (0 <=? i)%Z then (i + 1)%Z
      else if Ascii.eqb a c then 0%Z else (-1)%Z
  end.

(** The slice [s[n:]]. *)
Fixpoint slice_from (n : nat) (s : string) : string :=
  match n, s with
  | O, _ => s
  | S n', String _ s' => slice_from n' s'
  | S _, EmptyString => EmptyString
  end.

(** [strings.Split s (string sep)]: never empty, [""] splits into [[""]]. *)
Fixpoint Split (s : string) (sep : ascii) : list string :=
  match s with
  | EmptyString => [EmptyString]
  | String a s' =>
      if Ascii.eqb a sep then EmptyString :: Split s' sep
      else match Split s' sep with
           | [] => [String a EmptyString]
           | x :: xs => String a x :: xs
           end
  end.

(** [strings.Join elems (string sep)] *)
Fixpoint JoinWith (elems : list string) (sep : ascii) : string :=
  match elems with
  | [] => EmptyString
  | [x] => x
  | x :: xs => x +:+ String sep (JoinWith xs sep)
  end.

(** [strings.ToLower], on ASCII. *)
Definition lower (a : ascii) : ascii :=
  let n := nat_of_ascii a in
  if (65 <=? n)%nat && (n <=? 90)%nat then ascii_of_nat (n + 32) else a.

Fixpoint ToLower (s : string) : string :=
  match s with
  | EmptyString => EmptyString
  | String a s' => String (lower a) (ToLower s')
  end.

Definition HasPrefixChar (s : string) (c : ascii) : bool :=
  match s with
  | String a _ => Ascii.eqb a c
  | EmptyString => false
  end.

End Strings.

(** ** path/filepath, Unix variant

    The standard library's lexical path operations, as they behave where the
    separator is [/] and there are no volume names.  [Clean] works element by
    element with a stack, which is what the library's byte loop computes:
    empty and [.] elements vanish, [..] removes the element before it, is
    dropped at the root, and is kept in front of a relative path. *)

Module Filepath.
Import Strings.

Definition dotdot : string := "..".

(** One element of the path against the stack of elements kept so far
    (innermost first). *)
Definition clean_step (rooted : bool) (stack : list string) (el : string)
  : list string :=
  if decide (el = "") then stack
  else if decide (el = ".") then stack
  else if decide (el = dotdot) then
    match stack with
    | top :: below =>
        if decide (top = dotdot) then dotdot :: stack else below
    | [] => if rooted then [] else [dotdot]
    end
  else el :: stack.

Definition clean_elems (rooted : bool) (els : list string) : list string :=
  rev (fold_left (clean_step rooted) els []).

Definition render (rooted : bool) (els : list string) : string :=
  if rooted then String slash (JoinWith els slash)
  else match els with
       | [] => "."
       | _ => JoinWith els slash
       end.

Definition IsAbs (path : string) : bool := HasPrefixChar path slash.

Definition Clean (path : string) : string :=
  if decide (path = "") then "."
  else render (IsAbs path) (clean_elems (IsAbs path) (Split path slash)).

(** [filepath.Join]: empty leading elements are skipped, the rest is joined
    with the separator and cleaned; all empty gives the empty string. *)
Fixpoint Join (elem : list string) : string :=
  match elem with
  | [] => ""
  | e :: rest =>
      if decide (e = "") then Join rest
      else Clean (JoinWith elem slash)
  end.

(** The part of [s] up to and including its last separator. *)
Fixpoint upto_last_slash (s : string) : string :=
  match s with
  | EmptyString => EmptyString
  | String a s' =>
      let r := upto_last_slash s' in
      if Ascii.eqb a slash || negb (String.eqb r "") then String a r
      else EmptyString
  end.

(** [filepath.Dir] *)
Definition Dir (path : string) : string := Clean (upto_last_slash path).

End Filepath.

Global Arguments Filepath.Join : simpl never.
Global Arguments Filepath.Clean : simpl never.
Global Arguments Filepath.Dir : simpl never.

(** ** The path resolver *)

Definition appName : string := "OpenRQ".

(** What the process can ask of its environment: [runtime.GOOS] and the
    outcome of [user.Current()]. *)
Record Env := mkEnv {
  GOOS : string;
  currentUser : error + string   (* inr: currentUser.Username *)
}.

Definition GetUsername (env : Env) : Res string :=
  match currentUser env with
  | inl err => Panic err
  | inr Username =>
      (* Windows puts the pc name in the username for some reason *)
      if Strings.Contains Username Strings.backslash then
        let index := (Strings.LastIndex Username Strings.backslash + 1)%Z in
        Ok (Strings.slice_from (Z.to_nat index) Username)
      else Ok Username
  end.

Definition GetTempPath (env : Env) : Res string :=
  if decide (GOOS env = "darwin") then Ok "/tmp/"
  else
    let dir : string * string :=
      if decide (GOOS env = "windows")
      then ("C:/Users/", "/AppData/Local/Temp/")
      else ("/home/", "/.cache/") in
    match GetUsername env with
    | Panic e => Panic e
    | Ok u => Ok (dir.1 +:+ u +:+ dir.2)
    end.

(** [fmt.Sprintf(dir, a, b)] for a format with two [%s] verbs, given as the
    literal text before, between and after them. *)
Definition Sprintf2 (fmt : string * string * string) (a b : string) : string :=
  fmt.1.1 +:+ a +:+ fmt.1.2 +:+ b +:+ fmt.2.

Definition GetInstallPath (env : Env) : Res string :=
  (* Default current directory *)
  let dir : string * string * string := ("", "/", "/") in
  (* Try to match platform; darwin returns at once *)
  let matched : string * string * string + string :=
    if decide (GOOS env = "windows") then
      inl ("C:/Users/", "/AppData/Local/", "/")
    else if decide (GOOS env = "linux") then
      inl ("/home/", "/.local/share/", "/")
    else if decide (GOOS env = "darwin") then
      inr ("/Applications/" +:+ appName +:+ "/")
    else inl dir in
  match matched with
  | inr path => Ok path
  | inl dir =>
      (* Return formatted string *)
      match GetUsername env with
      | Panic e => Panic e
      | Ok u => Ok (Sprintf2 dir u appName)
      end
  end.

Definition GetFileFromPath (path : string) : string :=
  let lastIndex := (Strings.LastIndex path Strings.slash + 1)%Z in
  if (lastIndex =? 0)%Z then path
  else Strings.slice_from (Z.to_nat lastIndex) path.

Definition GetExecutableName (env : Env) : string :=
  if decide (GOOS env = "windows") then appName +:+ ".exe" else appName.

Definition GetShortcutLocation (env : Env) : Res string :=
  if decide (GOOS env = "linux") then
    match GetUsername env with
    | Panic e => Panic e
    | Ok u => Ok ("/home/" +:+ u +:+ "/.local/share/applications/"
                  +:+ Strings.ToLower appName +:+ ".desktop")
    end
  else if decide (GOOS env = "windows") then
    match GetUsername env with
    | Panic e => Panic e
    | Ok u => Ok ("C:/Users/" +:+ u
                  +:+ "/AppData/Roaming/Microsoft/Windows/Start Menu/Programs/"
                  +:+ appName +:+ ".lnk")
    end
  else Ok "".

(** ** The operating system, as the program sees it

    The file system is a tree of directories and regular files with their
    modes, without symbolic links.  The errors it gives are the structural
    ones (nothing there, a file where a directory is needed, a directory
    where a file is needed, a directory that is not empty); access rights are
    recorded but not enforced, and a disk never fills up.  Paths are walked
    the Unix way. *)

(** [os.FileMode]: a 32-bit word, permission bits in the low nine. *)
Module FileMode.
Local Open Scope N_scope.
Definition ModeDir : N := 2 ^ 31.
Definition ModeSetuid : N := 2 ^ 23.
Definition ModeSetgid : N := 2 ^ 22.
Definition ModeSticky : N := 2 ^ 20.
Definition ModePerm : N := 511.   (* 0777 *)

Definition IsDir (m : N) : bool := negb (N.land m ModeDir =? 0).
Definition Perm (m : N) : N := N.land m ModePerm.

(** [os.syscallMode]: the bits handed to [mkdir(2)] and [open(2)]. *)
Definition syscallMode (m : N) : N :=
  N.lor (N.lor (N.lor (Perm m)
    (if N.land m ModeSetuid =? 0 then 0 else 2048))
    (if N.land m ModeSetgid =? 0 then 0 else 1024))
    (if N.land m ModeSticky =? 0 then 0 else 512).

(** The mode a new inode gets: the request minus the process umask. *)
Definition created (umask m : N) : N :=
  N.ldiff (syscallMode m) (N.land umask ModePerm).
End FileMode.

(** A resolved absolute location, innermost element first:
    [/tmp/out/a.txt] is [["a.txt"; "out"; "tmp"]] and the root is [[]].
    The parent of a location is its tail; [d `suffix_of` p] says that [p] is
    [d] or lies below it. *)
Abbreviation rpath := (list string).

Inductive Node :=
| DirNode (perm : N)
| FileNode (perm : N) (data : list Byte.byte).

Inductive Event :=
| EvProgress (v : Q)                       (* progress.SetValue(v) *)
| EvStatus (text : string)                 (* status.SetText(text) *)
| EvZipOpen (name : string)                (* file.Open() of an archive entry *)
| EvZipClose (name : string)               (* readCloser.Close() *)
| EvMkdirAll (path : string) (perm : N)    (* os.MkdirAll *)
| EvOpenFile (path : string) (perm : N)    (* os.OpenFile(_, O_WRONLY|O_CREATE|O_TRUNC, _) *)
| EvCopy (path : string)                   (* io.Copy into the file opened at path *)
| EvOpen (path : string)                   (* os.Open *)
| EvStat (path : string)                   (* os.Stat *)
| EvWriteFile (path : string) (perm : N)   (* ioutil.WriteFile *)
| EvRun (name arg : string)                (* exec.Command(name, arg).Run() *)
| EvRemove (path : string)                 (* os.Remove *)
| EvRemoveAll (path : string).             (* os.RemoveAll *)

Record World := mkWorld {
  cwd : rpath;                       (* working directory *)
  umask : N;
  tree : gmap (list string) Node;    (* every inode but the root *)
  log : list Event                   (* what happened, oldest first *)
}.

Definition with_tree (w : World) (t : gmap (list string) Node) : World :=
  mkWorld (cwd w) (umask w) t (log w).

(** *** Path resolution

    How the kernel walks a path, in a tree without symbolic links: from the
    root or from the working directory, element by element.  [..] is taken
    lexically, which is exact for the cleaned paths the program passes. *)

Definition walk_step (at_ : rpath) (el : string) : rpath :=
  if decide (el = "") then at_
  else if decide (el = ".") then at_
  else if decide (el = Filepath.dotdot) then tail at_
  else el :: at_.

Definition resolve (cwd : rpath) (path : string) : rpath :=
  fold_left walk_step (Strings.Split path Strings.slash)
            (if Filepath.IsAbs path then [] else cwd).

Global Arguments resolve : simpl never.

(** *** The file tree *)

Module Tree.

Definition node_at (t : gmap (list string) Node) (p : rpath) : option Node :=
  match p with
  | [] => Some (DirNode 493)   (* the root always exists; 0755 *)
  | _ => t !! p
  end.

Definition is_dir (t : gmap (list string) Node) (p : rpath) : Prop :=
  ∃ m, node_at t p = Some (DirNode m).

(** [mkdir(2)] *)
Definition Mkdir (p : rpath) (mode : N) (t : gmap (list string) Node)
  : option Errno * gmap (list string) Node :=
  match node_at t p with
  | Some _ => (Some EEXIST, t)
  | None =>
      match node_at t (tail p) with
      | Some (DirNode _) => (None, <[p := DirNode mode]> t)
      | Some (FileNode _ _) => (Some ENOTDIR, t)
      | None => (Some ENOENT, t)
      end
  end.

(** [os.MkdirAll]: nothing to do for a directory, an error for a file,
    otherwise the parent first and then the directory itself. *)
Fixpoint MkdirAll (p : rpath) (mode : N) (t : gmap (list string) Node)
  : option Errno * gmap (list string) Node :=
  match node_at t p with
  | Some (DirNode _) => (None, t)
  | Some (FileNode _ _) => (Some ENOTDIR, t)
  | None =>
      match p with
      | [] => (None, t)
      | _ :: parent =>
          match MkdirAll parent mode t with
          | (Some e, t') => (Some e, t')
          | (None, t') => Mkdir p mode t'
          end
      end
  end.

(** [open(2)] with [O_WRONLY|O_CREATE|O_TRUNC]: an existing file is
    emptied and keeps its mode, a missing one is created. *)
Definition OpenTrunc (p : rpath) (mode : N) (t : gmap (list string) Node)
  : option Errno * gmap (list string) Node :=
  match node_at t p with
  | Some (DirNode _) => (Some EISDIR, t)
  | Some (FileNode m _) => (None, <[p := FileNode m []]> t)
  | None =>
      match node_at t (tail p) with
      | Some (DirNode _) => (None, <[p := FileNode mode []]> t)
      | Some (FileNode _ _) => (Some ENOTDIR, t)
      | None => (Some ENOENT, t)
      end
  end.

(** Writing [data] through a descriptor opened on [p]. *)
Definition Write (p : rpath) (data : list Byte.byte) (t : gmap (list string) Node)
  : gmap (list string) Node :=
  match t !! p with
  | Some (FileNode m _) => <[p := FileNode m data]> t
  | _ => t
  end.

Definition has_child (t : gmap (list string) Node) (p : rpath) : bool :=
  bool_decide (map_Exists (λ q _, tail q = p) t).

(** [os.Remove]: unlink a file or remove an empty directory. *)
Definition Remove (p : rpath) (t : gmap (list string) Node)
  : option Errno * gmap (list string) Node :=
  match p with
  | [] => (Some EINVAL, t)
  | _ =>
      match t !! p with
      | None => (Some ENOENT, t)
      | Some (FileNode _ _) => (None, delete p t)
      | Some (DirNode _) =>
          if has_child t p then (Some ENOTEMPTY, t) else (None, delete p t)
      end
  end.

(** [os.RemoveAll]: the path and everything below it; a missing path is
    not an error. *)
Definition RemoveAll (p : rpath) (t : gmap (list string) Node)
  : gmap (list string) Node :=
  filter (λ kv, ¬ (p `suffix_of` kv.1)) t.

End Tree.

(** *** Child processes

    What running a program does is not the installer's to decide: a world
    comes with the outcome and the effect on the tree of every command. *)
Record Machine := mkMachine {
  spawn : string → string → gmap (list string) Node
          → option error * gmap (list string) Node
}.

(** ** Computations

    A state monad over the world whose results may be a panic.  Go's
    [error] results stay ordinary values: [None] is [nil]. *)

Definition M (A : Type) : Type := World → Res A * World.

Definition ret {A} (a : A) : M A := λ w, (Ok a, w).

Definition bind {A B} (m : M A) (k : A → M B) : M B :=
  λ w, match m w with
       | (Ok a, w') => k a w'
       | (Panic e, w') => (Panic e, w')
       end.

Notation "x <- m ;; k" := (bind m (λ x, k))
  (at level 100, m at next level, right associativity).

Definition liftRes {A} (r : Res A) : M A := λ w, (r, w).

Definition emit (ev : Event) : M unit :=
  λ w, (Ok tt, mkWorld (cwd w) (umask w) (tree w) (log w ++ [ev])).

(** [defer cleanup; body]: the cleanup runs when the body is over, whatever
    its outcome, and a panic of the cleanup wins. *)
Definition defer {A} (cleanup : M unit) (body : M A) : M A :=
  λ w, match body w with
       | (r, w1) =>
           match cleanup w1 with
           | (Ok _, w2) => (r, w2)
           | (Panic e, w2) => (Panic e, w2)
           end
       end.

(** *** The widgets *)

Definition SetValue (v : Q) : M unit := emit (EvProgress v).
Definition SetText (text : string) : M unit := emit (EvStatus text).

(** *** Package os *)

(** An open file: the name it was opened by and the inode it denotes. *)
Record File := mkFile { f_name : string; f_at : rpath }.

(** The errno of a system call, as the [*os.PathError] the caller sees. *)
Definition path_error (op : string) (r : option Errno) : option error :=
  match r with
  | Some e => Some (PathError op e)
  | None => None
  end.

(** A system call on a path: the empty path names nothing, any other is
    resolved against the working directory. *)
Definition tree_call (f : rpath → gmap (list string) Node
                          → option Errno * gmap (list string) Node)
    (op path : string) (cwd : rpath) (t : gmap (list string) Node)
  : option error * gmap (list string) Node :=
  if decide (path = "") then (Some (PathError op ENOENT), t)
  else match f (resolve cwd path) t with
       | (e, t') => (path_error op e, t')
       end.

Definition on_tree (f : rpath → gmap (list string) Node
                        → option Errno * gmap (list string) Node)
    (op path : string) : M (option error) :=
  λ w, match tree_call f op path (cwd w) (tree w) with
       | (r, t) => (Ok r, with_tree w t)
       end.

Definition os_MkdirAll (path : string) (perm : N) : M (option error) :=
  _ <- emit (EvMkdirAll path perm) ;;
  λ w, on_tree (λ p, Tree.MkdirAll p (FileMode.created (umask w) perm))
               "mkdir" path w.

(** [os.OpenFile(path, os.O_WRONLY|os.O_CREATE|os.O_TRUNC, perm)] *)
Definition os_OpenFile (path : string) (perm : N) : M (error + File) :=
  _ <- emit (EvOpenFile path perm) ;;
  λ w, match on_tree (λ p, Tree.OpenTrunc p (FileMode.created (umask w) perm))
                     "open" path w with
       | (Ok (Some e), w') => (Ok (inl e), w')
       | (Ok None, w') => (Ok (inr (mkFile path (resolve (cwd w) path))), w')
       | (Panic e, w') => (Panic e, w')
       end.

(** [outFile.Close()], which does not fail in this model. *)
Definition File_Close (f : File) : M (option error) := ret None.

Definition panic_on (err : option error) : M unit :=
  λ w, match err with
       | Some e => (Panic e, w)
       | None => (Ok tt, w)
       end.

Definition close_or_panic (f : File) : M unit :=
  err <- File_Close f ;; panic_on err.

(** [os.Open]: any existing inode can be opened for reading. *)
Definition os_Open (path : string) : M (error + File) :=
  _ <- emit (EvOpen path) ;;
  λ w, if decide (path = "") then (Ok (inl (PathError "open" ENOENT)), w)
       else match Tree.node_at (tree w) (resolve (cwd w) path) with
            | Some _ => (Ok (inr (mkFile path (resolve (cwd w) path))), w)
            | None => (Ok (inl (PathError "open" ENOENT)), w)
            end.

Definition os_Stat (path : string) : M (error + Node) :=
  _ <- emit (EvStat path) ;;
  λ w, if decide (path = "") then (Ok (inl (PathError "stat" ENOENT)), w)
       else match Tree.node_at (tree w) (resolve (cwd w) path) with
            | Some n => (Ok (inr n), w)
            | None => (Ok (inl (PathError "stat" ENOENT)), w)
            end.

(** [os.Create(name)] is [OpenFile(name, O_RDWR|O_CREATE|O_TRUNC, 0666)]. *)
Definition os_Create (path : string) : M (error + File) :=
  os_OpenFile path 438.

Definition os_Remove (path : string) : M (option error) :=
  _ <- emit (EvRemove path) ;;
  on_tree Tree.Remove "remove" path.

Definition ends_with_dot (path : string) : bool :=
  match rev (Strings.Split path Strings.slash) with
  | last :: _ => bool_decide (last = ".")
  | [] => false
  end.

(** [os.RemoveAll]: the empty path and a missing path are both fine. *)
Definition os_RemoveAll (path : string) : M (option error) :=
  _ <- emit (EvRemoveAll path) ;;
  λ w, if decide (path = "") then (Ok None, w)
       else if ends_with_dot path
            then (Ok (Some (PathError "RemoveAll" EINVAL)), w)
            else (Ok None,
                  with_tree w (Tree.RemoveAll (resolve (cwd w) path) (tree w))).

(** [ioutil.WriteFile]: open with [O_WRONLY|O_CREATE|O_TRUNC], write, close. *)
Definition ioutil_WriteFile (path : string) (data : list Byte.byte) (perm : N)
  : M (option error) :=
  _ <- emit (EvWriteFile path perm) ;;
  λ w, match on_tree (λ p, Tree.OpenTrunc p (FileMode.created (umask w) perm))
                     "open" path w with
       | (Ok None, w') =>
           (Ok None,
            with_tree w' (Tree.Write (resolve (cwd w) path) data (tree w')))
       | other => other
       end.

(** [exec.Command(name, arg).Run()] *)
Definition exec_Run (mach : Machine) (name arg : string) : M (option error) :=
  _ <- emit (EvRun name arg) ;;
  λ w, match spawn mach name arg (tree w) with
       | (r, t) => (Ok r, with_tree w t)
       end.

(** *** Package archive/zip

    An entry of the archive as the program uses it: its name, its mode, and
    what [Open], reading to the end, and [Close] will answer. *)
Record zipFile := mkZipFile {
  Name : string;
  Mode : N;
  OpenErr : option string;
  Data : list Byte.byte;
  ReadErr : option string;    (* reported by the read that follows the data *)
  CloseErr : option string
}.

(** The package's errors are its own ([zip.ErrFormat] and the like), never
    an [*os.PathError]: the archive is read from memory. *)
Definition zip_err (msg : option string) : option error :=
  match msg with
  | Some m => Some (ZipError m)
  | None => None
  end.

(** The input buffer, by what [zip.NewReader] makes of it. *)
Inductive zipInput :=
| BadZip (msg : string)
| GoodZip (files : list zipFile).

Definition zip_NewReader (input : zipInput) : error + list zipFile :=
  match input with
  | BadZip msg => inl (ZipError msg)
  | GoodZip files => inr files
  end.

Definition zip_Open (file : zipFile) : M (error + zipFile) :=
  _ <- emit (EvZipOpen (Name file)) ;;
  ret (match OpenErr file with
       | Some msg => inl (ZipError msg)
       | None => inr file
       end).

Definition zip_Close (readCloser : zipFile) : M (option error) :=
  _ <- emit (EvZipClose (Name readCloser)) ;;
  ret (zip_err (CloseErr readCloser)).

(** [io.Copy(outFile, readCloser)]: all the data goes into the file, then the
    reader's own verdict is returned. *)
Definition io_Copy (outFile : File) (readCloser : zipFile) : M (option error) :=
  _ <- emit (EvCopy (f_name outFile)) ;;
  λ w, (Ok (zip_err (ReadErr readCloser)),
        with_tree w (Tree.Write (f_at outFile) (Data readCloser) (tree w))).

(** [io.Copy(outFile, inFile)] between two files of the tree; a directory
    cannot be read. *)
Definition io_CopyFile (outFile inFile : File) : M (option error) :=
  _ <- emit (EvCopy (f_name outFile)) ;;
  λ w, match Tree.node_at (tree w) (f_at inFile) with
       | Some (FileNode _ data) =>
           (Ok None, with_tree w (Tree.Write (f_at outFile) data (tree w)))
       | _ => (Ok (Some (PathError "read" EISDIR)), w)
       end.

(** ** The installer *)

(** [float64(i+1) / float64(len(reader.File))], kept as the exact fraction. *)
Definition progress_value (i total : nat) : Q :=
  Z.of_nat (i + 1) # Pos.of_nat total.

(** The helper closure of [Extract]. *)
Definition extractAndWrite (output : string) (file : zipFile) : M (option error) :=
  (* Open file for reading *)
  r <- zip_Open file ;;
  match r with
  | inl err => ret (Some err)
  | inr readCloser =>
      (* Close file when we're done *)
      defer (err <- zip_Close readCloser ;; panic_on err)
        ((* Get full output path *)
         let path := Filepath.Join [output; Name file] in
         (* If it's just a directory, create it only *)
         if FileMode.IsDir (Mode file) then
           err <- os_MkdirAll path (Mode file) ;;
           match err with
           | Some e => ret (Some e)
           | None => ret None
           end
         else
           (* Create directory for file if needed *)
           err <- os_MkdirAll (Filepath.Dir path) (Mode file) ;;
           match err with
           | Some e => ret (Some e)
           | None =>
               (* Create output file *)
               r <- os_OpenFile path (Mode file) ;;
               match r with
               | inl e => ret (Some e)
               | inr outFile =>
                   (* Close output file after we're done *)
                   defer (close_or_panic outFile)
                     ((* Copy to output file *)
                      err <- io_Copy outFile readCloser ;;
                      match err with
                      | Some e => ret (Some e)
                      | None => ret None
                      end)
               end
           end)
  end.

(** The loop of [Extract] from index [i] on, [files] being what is left of
    [reader.File] and [total] its full length. *)
Fixpoint Extract_loop (output : string) (total i : nat) (files : list zipFile)
  : M (option error) :=
  match files with
  | [] => ret None
  | file :: rest =>
      (* Update progress *)
      _ <- SetValue (progress_value i total) ;;
      (* Attempt to extract file *)
      err <- extractAndWrite output file ;;
      match err with
      | Some e => ret (Some e)
      | None => Extract_loop output total (S i) rest
      end
  end.

Definition Extract (input : zipInput) (output : string) : M (option error) :=
  match zip_NewReader input with
  | inl err => ret (Some err)
  | inr files => Extract_loop output (List.length files) 0 files
  end.

Definition Copy (input output : string) : M (option error) :=
  (* Open file to copy from *)
  r <- os_Open input ;;
  match r with
  | inl err => ret (Some err)
  | inr inFile =>
      defer (close_or_panic inFile)
        (st <- os_Stat output ;;
         match st with
         | inr _ => ret None
         | inl _ =>
             (* Create new file we're copying to *)
             r <- os_Create output ;;
             match r with
             | inl err => ret (Some err)
             | inr outFile =>
                 defer (close_or_panic outFile)
                   (err <- io_CopyFile outFile inFile ;;
                    match err with
                    | Some e => ret (Some e)
                    | None => ret None
                    end)
             end
         end)
  end.

Definition bytes_of (s : string) : list Byte.byte := list_byte_of_string s.

Definition quote : string := String (ascii_of_nat 34) EmptyString.
Definition newline : string := String (ascii_of_nat 10) EmptyString.

Definition CreateShortcut (mach : Machine) (env : Env) : M (option error) :=
  (* darwin doesn't use shortcuts *)
  if decide (GOOS env = "darwin") then ret None
  else if decide (GOOS env = "linux") then
    (* linux uses a simple desktop file *)
    installPath <- liftRes (GetInstallPath env) ;;
    let content :=
      "[Desktop Entry]" +:+ newline +:+ "Name=" +:+ appName +:+ newline
      +:+ "Type=Application" +:+ newline +:+ "Terminal=false" +:+ newline
      +:+ "Exec=" +:+ (installPath +:+ appName) +:+ newline
      +:+ "Icon=" +:+ (installPath +:+ appName) in
    location <- liftRes (GetShortcutLocation env) ;;
    (* Try to write to file *)
    err <- ioutil_WriteFile location (bytes_of content) 448 ;;
    match err with
    | Some e => ret (Some e)
    | None => ret None
    end
  else if decide (GOOS env = "windows") then
    (* We need to create a temporary Visual Basic file and then execute it *)
    installPath <- liftRes (GetInstallPath env) ;;
    let target := installPath +:+ GetExecutableName env in
    let icon := installPath +:+ appName in
    location <- liftRes (GetShortcutLocation env) ;;
    let vbs :=
      "Set link = WScript.CreateObject(" +:+ quote +:+ "WScript.Shell" +:+ quote
      +:+ ").CreateShortcut(" +:+ quote +:+ location +:+ quote +:+ ")" +:+ newline
      +:+ "link.TargetPath = " +:+ quote +:+ target +:+ quote +:+ newline
      +:+ "link.IconLocation = " +:+ quote +:+ icon +:+ quote +:+ newline
      +:+ "link.Description = " +:+ quote +:+ appName +:+ quote +:+ newline
      +:+ "link.Save" in
    (* Write vbs to file *)
    tempPath <- liftRes (GetTempPath env) ;;
    let scriptFile := tempPath +:+ "CreateShortcut.vbs" in
    err <- ioutil_WriteFile scriptFile (bytes_of vbs) 511 ;;
    match err with
    | Some e => ret (Some e)
    | None =>
        (* Execute script *)
        err <- exec_Run mach "wscript" scriptFile ;;
        match err with
        | Some e => ret (Some e)
        | None =>
            (* Remove it *)
            err <- os_Remove scriptFile ;;
            match err with
            | Some e => ret (Some e)
            | None => ret None
            end
        end
    end
  else ret None.

(** Remove application folder and shortcut *)
Definition Uninstall (env : Env) : M (option error) :=
  (* Remove application folder *)
  _ <- SetText "Uninstalling application..." ;;
  installPath <- liftRes (GetInstallPath env) ;;
  err <- os_RemoveAll installPath ;;
  match err with
  | Some e => ret (Some e)
  | None =>
      (* Remove shortcut (if needed) *)
      _ <- SetText "Removing shortcut..." ;;
      shortcut <- liftRes (GetShortcutLocation env) ;;
      if (0 <? String.length shortcut)%nat then
        err <- os_Remove shortcut ;;
        match err with
        | Some e => ret (Some e)
        | None => ret None
        end
      else ret None
  end.

(** [Install].  The embedded payload [appData] is a constant of a file
    that is not at hand: it comes in as what [base64.StdEncoding.DecodeString]
    makes of it, an error or the archive bytes. *)
Definition Install (appData : error + zipInput) (env : Env) : M (option error) :=
  (* Create install directory if needed *)
  installPath <- liftRes (GetInstallPath env) ;;
  err <- os_MkdirAll installPath 448 ;;
  match err with
  | Some e => ret (Some e)
  | None =>
      match appData with
      | inl err => ret (Some err)
      | inr data =>
          _ <- SetText "Installing..." ;;
          installPath <- liftRes (GetInstallPath env) ;;
          Extract data installPath
      end
  end.

(** [GetButtonContainer], by the labels of the buttons of the row it
    returns: the install directory is looked up, and the row has either the
    install button or the uninstall and update buttons. *)
Definition GetButtonContainer (env : Env) : M (list string) :=
  (* Check if directory to install to already exists *)
  installPath <- liftRes (GetInstallPath env) ;;
  st <- os_Stat installPath ;;
  let appInstalled := match st with inr _ => true | inl _ => false end in
  (* If not installed, just return an install button *)
  if negb appInstalled then ret ["Install"]
  else ret ["Uninstall"; "Update"].

(** The helper of [GetButtonContainer] that toggles the buttons of the
    row, a button being given by whether it is disabled: a disabled button
    is enabled and an enabled one disabled. *)
Definition toggleButtons (buttons : list bool) : list bool :=
  map (λ disabled : bool, if disabled then false else true) buttons.

(** The two handlers [GetLayout] gives to [GetButtonContainer].  The value
    returned is the error handed to [dialog.ShowError], if any. *)
Definition installTapped (mach : Machine) (appData : error + zipInput)
    (env : Env) : M (option error) :=
  (* Install/Update *)
  _ <- SetValue 0 ;;
  (* Attempt download *)
  err <- Install appData env ;;
  match err with
  | Some e =>
      _ <- SetText "Install failed" ;;
      ret (Some e)
  | None =>
      (* Attempt to create shortcut *)
      err <- CreateShortcut mach env ;;
      match err with
      | Some e =>
          _ <- SetText "Shortcut creation failed" ;;
          ret (Some e)
      | None =>
          _ <- SetValue 1 ;;
          _ <- SetText "Installation successful!" ;;
          ret None
      end
  end.

Definition uninstallTapped (env : Env) : M (option error) :=
  (* Uninstall *)
  _ <- SetValue 0 ;;
  err <- Uninstall env ;;
  match err with
  | Some e =>
      _ <- SetText "Uninstall failed" ;;
      ret (Some e)
  | None =>
      _ <- SetValue 1 ;;
      _ <- SetText "Uninstall successful" ;;
      ret None
  end.

(** ** Worked runs *)

Module Runs.

Definition world0 : World := mkWorld [] 18 ∅ [].   (* cwd /, umask 022 *)

Definition entry (name : string) (mode : N) (data : string) : zipFile :=
  mkZipFile name mode None (bytes_of data) None None.

Definition dirmode : N := (FileMode.ModeDir + 493)%N.   (* drwxr-xr-x *)

(** Scenario 1 of the specification. *)
Definition assets : zipInput :=
  GoodZip [entry "assets/" dirmode ""; entry "assets/readme.txt" 420 "hello"].


(** A file below a directory the archive has no entry for. *)
Definition readme : zipFile := entry "assets/readme.txt" 420 "hello".

(** A Windows account.  Volume names are not modelled: [C:/...] is walked
    like any relative path, so the working directory is the root and [C:]
    a directory in it. *)
Definition alice_windows : Env := mkEnv "windows" (inr "HOST\alice").

Definition temp_dir : rpath :=
  ["Temp"; "Local"; "AppData"; "alice"; "Users"; "C:"].

Definition windows0 : World :=
  mkWorld [] 0 (Tree.MkdirAll temp_dir 493 ∅).2 [].

(** A machine on which every child process exits with status 1. *)
Definition failing_host : Machine :=
  mkMachine (λ _ _ t, (Some (ExitError 1), t)).

Definition script : string :=
  "C:/Users/alice/AppData/Local/Temp/CreateShortcut.vbs".

(** A machine on which every child process succeeds and changes nothing. *)
Definition idle_host : Machine := mkMachine (λ _ _ t, (None, t)).

(** /tmp/a holds "new", /tmp/b holds "old". *)
Definition two_files : World :=
  mkWorld [] 18
    (<[ ["b"; "tmp"] := FileNode 420 (bytes_of "old") ]>
     (<[ ["a"; "tmp"] := FileNode 420 (bytes_of "new") ]>
      (<[ ["tmp"] := DirNode 493 ]> ∅)))
    [].

Definition alice_darwin : Env := mkEnv "darwin" (inr "alice").
Definition alice_linux : Env := mkEnv "linux" (inr "alice").

Definition share : rpath := ["share"; ".local"; "alice"; "home"].


(** The home of alice on linux with the directory of the shortcuts and
    nothing else. *)
Definition home_linux : World :=
  mkWorld [] 18 (Tree.MkdirAll ("applications" :: share) 493 ∅).2 [].

(** The application installed for alice on linux, with its shortcut. *)
Definition installed_linux : World :=
  mkWorld [] 18
    (<[ "openrq.desktop" :: "applications" :: share
        := FileNode 448 (bytes_of "[Desktop Entry]") ]>
     (<[ "OpenRQ" :: "OpenRQ" :: share := FileNode 493 (bytes_of "ELF") ]>
      (Tree.MkdirAll ("applications" :: share) 493
         (Tree.MkdirAll ("OpenRQ" :: share) 448 ∅).2).2))
    [].

End Runs.

(** ** Vocabulary of the properties *)

(** A well-formed tree: the root is not an entry, and every entry sits in a
    directory. *)
Definition tree_wf (t : gmap (list string) Node) : Prop :=
  ∀ p n, t !! p = Some n → p ≠ [] ∧ Tree.is_dir t (tail p).

Definition is_progress (ev : Event) : bool :=
  match ev with
  | EvProgress _ => true
  | _ => false
  end.

(** The values a log reports to the progress bar, in order. *)
Definition reported (evs : list Event) : list Q :=
  omap (λ ev, match ev with EvProgress v => Some v | _ => None end) evs.

(** The log of a run in blocks, one per entry that was reached.  The block
    of entry [i] holds what processing the entry logged; its progress report
    goes in front of it ([report_first]) or behind it ([report_last]). *)
Definition report_first (total i : nat) (block : list Event) : list Event :=
  EvProgress (progress_value i total) :: block.


Definition entry_block (files : list zipFile) (i : nat) (block : list Event)
  : Prop :=
  ∃ f evs, files !! i = Some f
           ∧ block = EvZipOpen (Name f) :: evs
           ∧ Forall (λ ev, is_progress ev = false) evs.

(** The fractions [1/total, 2/total, ..., k/total]. *)
Definition fractions (total k : nat) : list Q :=
  map (λ i, progress_value i total) (seq 0 k).

(** What processing an entry does to the tree and what it returns, without
    the log: the result of [extractAndWrite] as a function of the tree. *)
Definition entry_effect (cwd : rpath) (umask : N) (output : string)
    (file : zipFile) (t : gmap (list string) Node)
  : Res (option error) * gmap (list string) Node :=
  match OpenErr file with
  | Some msg => (Ok (Some (ZipError msg)), t)
  | None =>
      let path := Filepath.Join [output; Name file] in
      let mode := FileMode.created umask (Mode file) in
      let body :=
        if FileMode.IsDir (Mode file) then
          tree_call (λ p, Tree.MkdirAll p mode) "mkdir" path cwd t
        else
          match tree_call (λ p, Tree.MkdirAll p mode) "mkdir"
                          (Filepath.Dir path) cwd t with
          | (Some e, t1) => (Some e, t1)
          | (None, t1) =>
              match tree_call (λ p, Tree.OpenTrunc p mode) "open" path cwd t1 with
              | (Some e, t2) => (Some e, t2)
              | (None, t2) =>
                  (zip_err (ReadErr file),
                   Tree.Write (resolve cwd path) (Data file) t2)
              end
          end in
      (match CloseErr file with
       | Some msg => Panic (ZipError msg)
       | None => Ok body.1
       end, body.2)
  end.

(** The same for the loop of [Extract]. *)
Fixpoint run_effect (cwd : rpath) (umask : N) (output : string)
    (files : list zipFile) (t : gmap (list string) Node)
  : Res (option error) * gmap (list string) Node :=
  match files with
  | [] => (Ok None, t)
  | file :: rest =>
      match entry_effect cwd umask output file t with
      | (Ok None, t') => run_effect cwd umask output rest t'
      | other => other
      end
  end.

Definition slash_free (x : string) : Prop :=
  Strings.Contains x Strings.slash = false.

(** What [Clean] keeps on its stack: proper names and [..]. *)
Definition kept (x : string) : Prop := x ≠ "" ∧ x ≠ "." ∧ slash_free x.

(** Where an entry goes, and the directory [extractAndWrite] makes for a
    file entry. *)
Definition target (cwd : rpath) (output : string) (file : zipFile) : rpath :=
  resolve cwd (Filepath.Join [output; Name file]).

Definition target_dir (cwd : rpath) (output : string) (file : zipFile) : rpath :=
  resolve cwd (Filepath.Dir (Filepath.Join [output; Name file])).

(** [file] is a file entry that goes to [q]. *)
Definition writes (cwd : rpath) (output : string) (file : zipFile) (q : rpath)
  : Prop :=
  FileMode.IsDir (Mode file) = false ∧ target cwd output file = q.

Global Instance writes_dec cwd output file q :
  Decision (writes cwd output file q).
Proof. unfold writes. apply _. Defined.

(** The data of the last file entry of the archive that goes to [q]. *)
Fixpoint last_write (cwd : rpath) (output : string) (files : list zipFile)
    (q : rpath) : option (list Byte.byte) :=
  match files with
  | [] => None
  | file :: rest =>
      match last_write cwd output rest q with
      | Some data => Some data
      | None => if decide (writes cwd output file q) then Some (Data file)
                else None
      end
  end.

(** The same inode with other contents. *)
Definition with_data (data : list Byte.byte) (node : option Node)
  : option Node :=
  match node with
  | Some (FileNode m _) => Some (FileNode m data)
  | other => other
  end.

(** An entry is settled in a tree when everything it needs is in place: it
    can be read, its target is named, its directory is there, and, for a
    file entry, so is a file at its target. *)
Definition settled (cwd : rpath) (output : string) (file : zipFile)
    (t : gmap (list string) Node) : Prop :=
  OpenErr file = None ∧ CloseErr file = None
  ∧ Filepath.Join [output; Name file] ≠ ""
  ∧ if FileMode.IsDir (Mode file) then Tree.is_dir t (target cwd output file)
    else ReadErr file = None
         ∧ Tree.is_dir t (target_dir cwd output file)
         ∧ target cwd output file ≠ []
         ∧ ∃ m d, t !! target cwd output file = Some (FileNode m d).

(** What a settled entry does: a file entry rewrites its file. *)
Definition overwrite (cwd : rpath) (output : string)
    (t : gmap (list string) Node) (file : zipFile) : gmap (list string) Node :=
  if FileMode.IsDir (Mode file) then t
  else Tree.Write (target cwd output file) (Data file) t.

(** A path that ends in a separator. *)
Definition ends_slash (s : string) : Prop := ∃ x, s = x +:+ "/".


(** A computation is quiet when it only appends to the log, nothing of it a
    progress report, and leaves the working directory and the umask alone. *)
Definition quiet {A} (m : M A) : Prop :=
  ∀ w, ∃ evs,
    log (m w).2 = (log w ++ evs)%list
    ∧ Forall (λ ev, is_progress ev = false) evs
    ∧ cwd (m w).2 = cwd w
    ∧ umask (m w).2 = umask w.

(** Calls on the file tree made while an entry is processed. *)
Definition is_fs (ev : Event) : bool :=
  match ev with
  | EvMkdirAll _ _ | EvOpenFile _ _ | EvCopy _ => true
  | _ => false
  end.

(** The archive entries a log opens and closes, in order. *)
Definition opened (evs : list Event) : list string :=
  omap (λ ev, match ev with EvZipOpen n => Some n | _ => None end) evs.

Definition closed (evs : list Event) : list string :=
  omap (λ ev, match ev with EvZipClose n => Some n | _ => None end) evs.

(** A computation that only appends events of one kind to the log. *)
Definition appends {A} (P : Event → bool) (m : M A) : Prop :=
  ∀ w, ∃ evs, log (m w).2 = (log w ++ evs)%list
              ∧ Forall (λ ev, P ev = true) evs.

(** What processing one entry logs: the opening alone when it fails, and
    otherwise the opening, calls on the tree, and the closing. *)
Definition entry_trace (file : zipFile) (block : list Event) : Prop :=
  match OpenErr file with
  | Some _ => block = [EvZipOpen (Name file)]
  | None =>
      ∃ mid, block = (EvZipOpen (Name file) :: mid
                      ++ [EvZipClose (Name file)])%list
             ∧ Forall (λ ev, is_fs ev = true) mid
  end.

(** The same inode: the same kind of node with the same permission bits. *)
Definition same_inode (n n' : Node) : Prop :=
  match n, n' with
  | DirNode m, DirNode m' => m = m'
  | FileNode m _, FileNode m' _ => m = m'
  | _, _ => False
  end.

(** Every node of [t] is still there in [t'], the same inode, and the same
    node altogether unless it sits at a path of [P]. *)
Definition keeps_inodes (P : rpath → Prop) (t t' : gmap (list string) Node)
  : Prop :=
  ∀ q n, t !! q = Some n →
         ∃ n', t' !! q = Some n' ∧ same_inode n n' ∧ (n' = n ∨ P q).

(** A computation is steady when it leaves the working directory and the
    umask alone and only appends to the log. *)
Definition steady {A} (m : M A) : Prop :=
  ∀ w, cwd (m w).2 = cwd w ∧ umask (m w).2 = umask w
       ∧ ∃ evs, log (m w).2 = (log w ++ evs)%list.

(** The text of the desktop entry [CreateShortcut] writes on linux. *)
Definition desktop_entry (installPath : string) : string :=
  "[Desktop Entry]" +:+ newline +:+ "Name=" +:+ appName +:+ newline
  +:+ "Type=Application" +:+ newline +:+ "Terminal=false" +:+ newline
  +:+ "Exec=" +:+ (installPath +:+ appName) +:+ newline
  +:+ "Icon=" +:+ (installPath +:+ appName).

(** * Properties *)

(** ** Sanity checks of the path functions *)

Example Clean_ex1 : Filepath.Clean "/tmp/out/../evil.txt" = "/tmp/evil.txt".
Proof. reflexivity. Qed.
Example Clean_ex2 : Filepath.Clean "a//b/./c/.." = "a/b".
Proof. reflexivity. Qed.
Example Clean_ex3 : Filepath.Clean "../../a/../.." = "../../..".
Proof. reflexivity. Qed.
Example Clean_ex4 : Filepath.Clean "/../a/" = "/a".
Proof. reflexivity. Qed.
Example Join_ex1 : Filepath.Join ["/tmp/out"; "assets/readme.txt"] = "/tmp/out/assets/readme.txt".
Proof. reflexivity. Qed.
Example Join_ex2 : Filepath.Join [""; "a"] = "a".
Proof. reflexivity. Qed.
Example Dir_ex1 : Filepath.Dir "/tmp/out/assets/readme.txt" = "/tmp/out/assets".
Proof. reflexivity. Qed.
Example Dir_ex2 : Filepath.Dir "readme.txt" = ".".
Proof. reflexivity. Qed.
Example Dir_ex3 : Filepath.Dir "/a" = "/".
Proof. reflexivity. Qed.
Example user_ex1 : GetUsername Runs.alice_windows = Ok "alice".
Proof. reflexivity. Qed.
Example inst_ex1 : GetInstallPath (mkEnv "freebsd" (inr "alice")) = Ok "alice/OpenRQ/".
Proof. reflexivity. Qed.
Example inst_ex2 : GetInstallPath (mkEnv "linux" (inr "alice")) = Ok "/home/alice/.local/share/OpenRQ/".
Proof. reflexivity. Qed.

Example shortcut_ex1 :
  GetShortcutLocation Runs.alice_linux
  = Ok "/home/alice/.local/share/applications/openrq.desktop".
Proof. reflexivity. Qed.
Example shortcut_ex2 : GetShortcutLocation Runs.alice_darwin = Ok "".
Proof. reflexivity. Qed.
Example temp_ex1 :
  GetTempPath Runs.alice_windows = Ok "C:/Users/alice/AppData/Local/Temp/".
Proof. reflexivity. Qed.
Example file_ex1 : GetFileFromPath "/tmp/out/a.txt" = "a.txt".
Proof. reflexivity. Qed.

(** ** Sanity checks of a whole run *)


Example scenario1_file :
  tree (Extract Runs.assets "/tmp/out" Runs.world0).2
    !! ["readme.txt"; "assets"; "out"; "tmp"]
  = Some (FileNode 420 (bytes_of "hello")).
Proof. vm_compute. reflexivity. Qed.


(** ** The path resolver *)

Section Resolver.
Variable env : Env.
Variable u : string.
Hypothesis user_ok : GetUsername env = Ok u.

Lemma GetInstallPath_windows :
  GOOS env = "windows" →
  GetInstallPath env = Ok ("C:/Users/" +:+ u +:+ "/AppData/Local/" +:+ appName +:+ "/").
Proof using user_ok.
  intros Hos. unfold GetInstallPath. rewrite Hos, user_ok. reflexivity.
Qed.

Lemma GetInstallPath_linux :
  GOOS env = "linux" →
  GetInstallPath env = Ok ("/home/" +:+ u +:+ "/.local/share/" +:+ appName +:+ "/").
Proof using user_ok.
  intros Hos. unfold GetInstallPath. rewrite Hos, user_ok. reflexivity.
Qed.

(** Any other system but darwin: the format ["%s/%s/"] is filled with the
    user name and the application name. *)
Lemma GetInstallPath_other :
  GOOS env ≠ "darwin" → GOOS env ≠ "windows" → GOOS env ≠ "linux" →
  GetInstallPath env = Ok (u +:+ "/" +:+ appName +:+ "/").
Proof using user_ok.
  intros H1 H2 H3. unfold GetInstallPath.
  repeat case_decide; try congruence. rewrite user_ok. reflexivity.
Qed.
End Resolver.

Lemma GetInstallPath_darwin env :
  GOOS env = "darwin" → GetInstallPath env = Ok "/Applications/OpenRQ/".
Proof. intros Hos. unfold GetInstallPath. rewrite Hos. reflexivity. Qed.

Lemma GetUsername_plain env name :
  currentUser env = inr name →
  Strings.Contains name Strings.backslash = false →
  GetUsername env = Ok name.
Proof. intros Hu Hc. unfold GetUsername. rewrite Hu, Hc. reflexivity. Qed.

(** C2, the fallback branch.  On a system that is neither windows, linux nor
    darwin the install directory is the relative path [<username>/OpenRQ/]:
    below the working directory it names [<cwd>/<username>/OpenRQ], not
    [<cwd>/OpenRQ] as the comment "Default current directory" intends.
    Evaluated for user alice on freebsd, working directory /srv/work. *)
Theorem GetInstallPath_fallback_has_username :
  GetInstallPath (mkEnv "freebsd" (inr "alice")) = Ok "alice/OpenRQ/"
  ∧ resolve ["work"; "srv"] "alice/OpenRQ/" = ["OpenRQ"; "alice"; "work"; "srv"]
  ∧ resolve ["work"; "srv"] "/srv/work/OpenRQ/" = ["OpenRQ"; "work"; "srv"].
Proof. repeat split; reflexivity. Qed.

(** ** The shortcut *)

(** C3, on a failing script host.  On windows, with the temporary directory
    in place and a script host that exits with status 1, [CreateShortcut]
    returns that error right after the run: the log ends with the run, no
    [os.Remove] is attempted, and the script is still in the temporary
    directory. *)
Theorem CreateShortcut_leaves_script_when_host_fails :
  let r := CreateShortcut Runs.failing_host Runs.alice_windows Runs.windows0 in
  r.1 = Ok (Some (ExitError 1))
  ∧ log r.2 = [EvWriteFile Runs.script 511; EvRun "wscript" Runs.script]
  ∧ is_Some (tree r.2 !! ("CreateShortcut.vbs" :: Runs.temp_dir)).
Proof.
  vm_compute. repeat split. eexists. reflexivity.
Qed.

(** ** Running computations

    [run_monad f] unfolds [f] and the monad's plumbing, down to the
    operations on the tree. *)

Ltac run_monad f :=
  cbv [f bind ret defer liftRes emit panic_on close_or_panic File_Close
       SetValue SetText os_MkdirAll os_OpenFile os_Open os_Stat os_Create
       os_Remove os_RemoveAll ioutil_WriteFile exec_Run on_tree tree_call
       with_tree
       zip_Open zip_Close io_Copy io_CopyFile];
  cbn [cwd umask tree log fst snd].

(** An event of another kind is not in an explicit list of events. *)
Ltac not_logged H :=
  cbn in H;
  repeat (apply elem_of_cons in H as [H|H]; [discriminate H|]);
  by apply elem_of_nil in H.

(** ** Copy *)

Lemma Copy_unopened input output w :
  input = "" ∨ Tree.node_at (tree w) (resolve (cwd w) input) = None →
  Copy input output w
  = (Ok (Some (PathError "open" ENOENT)),
     mkWorld (cwd w) (umask w) (tree w) (log w ++ [EvOpen input])).
Proof.
  intros H. run_monad Copy.
  destruct (decide (input = "")) as [->|Hne]; [reflexivity|].
  destruct H as [H|H]; [done|]. rewrite H. reflexivity.
Qed.

Lemma Copy_output_exists input output w n n' :
  input ≠ "" →
  Tree.node_at (tree w) (resolve (cwd w) input) = Some n →
  output ≠ "" →
  Tree.node_at (tree w) (resolve (cwd w) output) = Some n' →
  Copy input output w
  = (Ok None,
     mkWorld (cwd w) (umask w) (tree w) (log w ++ [EvOpen input] ++ [EvStat output])).
Proof.
  intros Hi Hin Ho Hout.
  run_monad Copy.
  rewrite decide_False by done. rewrite Hin. cbn.
  rewrite decide_False by done. rewrite Hout. cbn.
  rewrite <- app_assoc. reflexivity.
Qed.

(** C9, as the code has it.  When something exists at [output], [Copy]
    leaves the tree as it was and never opens or creates the output: it
    returns success if the input could be opened, and the input's open error
    otherwise. *)
Theorem Copy_keeps_existing_output input output w n :
  output ≠ "" →
  Tree.node_at (tree w) (resolve (cwd w) output) = Some n →
  let r := Copy input output w in
  tree r.2 = tree w
  ∧ (∀ path perm, EvOpenFile path perm ∉ drop (List.length (log w)) (log r.2))
  ∧ (input ≠ "" →
     is_Some (Tree.node_at (tree w) (resolve (cwd w) input)) →
     r.1 = Ok None)
  ∧ (input = "" ∨ Tree.node_at (tree w) (resolve (cwd w) input) = None →
     r.1 = Ok (Some (PathError "open" ENOENT))).
Proof.
  intros Ho Hout r.
  destruct (decide (input = "")) as [Hi|Hi].
  - subst r. rewrite Copy_unopened by auto. cbn.
    rewrite drop_app_length.
    split; [done|]. split; [intros path perm Hel; not_logged Hel|].
    split; [done|]. done.
  - destruct (Tree.node_at (tree w) (resolve (cwd w) input)) as [m|] eqn:Hin.
    + subst r. rewrite (Copy_output_exists _ _ _ m n) by done. cbn.
      rewrite drop_app_length.
      split; [done|]. split; [intros path perm Hel; not_logged Hel|].
      split; [done|]. intros [H|H]; done.
    + subst r. rewrite Copy_unopened by auto. cbn.
      rewrite drop_app_length.
      split; [done|]. split; [intros path perm Hel; not_logged Hel|].
      split; [|done]. intros _ [? ?]. done.
Qed.

Lemma Copy_keeps_existing_output_witness :
  let r := Copy "/tmp/a" "/tmp/b" Runs.two_files in
  tree r.2 = tree Runs.two_files
  ∧ (∀ path perm,
       EvOpenFile path perm ∉ drop (List.length (log Runs.two_files)) (log r.2))
  ∧ ("/tmp/a" ≠ "" →
     is_Some (Tree.node_at (tree Runs.two_files)
                (resolve (cwd Runs.two_files) "/tmp/a")) →
     r.1 = Ok None)
  ∧ ("/tmp/a" = "" ∨ Tree.node_at (tree Runs.two_files)
                        (resolve (cwd Runs.two_files) "/tmp/a") = None →
     r.1 = Ok (Some (PathError "open" ENOENT))).
Proof.
  apply (Copy_keeps_existing_output "/tmp/a" "/tmp/b" Runs.two_files
           (FileNode 420 (bytes_of "old"))).
  - discriminate.
  - vm_compute. reflexivity.
Defined.

(** C9 as stated fails when the input cannot be opened: [Copy] then returns
    the open error, not success, although /tmp/b exists. *)
Lemma Copy_missing_input_is_an_error :
  Tree.node_at (tree Runs.two_files) (resolve (cwd Runs.two_files) "/tmp/b")
  = Some (FileNode 420 (bytes_of "old"))
  ∧ (Copy "/tmp/missing" "/tmp/b" Runs.two_files).1 ≠ Ok None.
Proof. split; [vm_compute; reflexivity | vm_compute; discriminate]. Qed.

(** ** Strings *)

Section StringFacts.
Import Strings.

Lemma append_cons a s t : String a s +:+ t = String a (s +:+ t).
Proof. reflexivity. Qed.

Lemma append_nil_l t : "" +:+ t = t.
Proof. reflexivity. Qed.

Lemma append_nil_r s : s +:+ "" = s.
Proof. induction s as [|a s IH]; [done|]. by rewrite append_cons, IH. Qed.

Lemma append_assoc s t v : (s +:+ t) +:+ v = s +:+ (t +:+ v).
Proof.
  induction s as [|a s IH]; [done|]. by rewrite !append_cons, IH.
Qed.

Lemma append_eq_nil s t : s +:+ t = "" → s = "" ∧ t = "".
Proof. destruct s; [done|]. rewrite append_cons. discriminate. Qed.

Lemma Split_nonempty s c : Split s c ≠ [].
Proof.
  destruct s as [|a s]; simpl; [done|].
  destruct (Ascii.eqb a c); [done|]. by destruct (Split s c).
Qed.

(** Splitting at a separator splits the list of elements. *)
Lemma Split_app s t c :
  Split (s +:+ String c t) c = (Split s c ++ Split t c)%list.
Proof.
  induction s as [|a s IH].
  - rewrite append_nil_l. simpl. by rewrite Ascii.eqb_refl.
  - rewrite append_cons. simpl. destruct (Ascii.eqb a c).
    + by rewrite IH.
    + rewrite IH. pose proof (Split_nonempty s c).
      destruct (Split s c); [done|]. reflexivity.
Qed.

Lemma HasPrefixChar_app s t c :
  s ≠ "" → HasPrefixChar (s +:+ t) c = HasPrefixChar s c.
Proof. by destruct s. Qed.

End StringFacts.

Lemma ends_slash_app a b : ends_slash b → ends_slash (a +:+ b).
Proof. intros [x ->]. exists (a +:+ x). by rewrite append_assoc. Qed.

Lemma ends_slash_nonempty s : ends_slash s → s ≠ "".
Proof. intros [x ->] H. by apply append_eq_nil in H as [_ ?]. Qed.


Lemma GetInstallPath_ends_slash env p :
  GetInstallPath env = Ok p → ends_slash p.
Proof.
  unfold GetInstallPath. intros H.
  assert (Hfmt : ∀ pre mid u,
            ends_slash (Sprintf2 (pre, mid, "/") u appName)).
  { intros pre mid u. unfold Sprintf2. cbn [fst snd].
    repeat apply ends_slash_app. by exists "". }
  repeat case_decide;
    try (destruct (GetUsername env) as [u|]; [|done]);
    injection H as <-; try apply Hfmt.
  by exists "/Applications/OpenRQ".
Qed.

(** ** Well-formed trees *)

Lemma tree_wf_empty : tree_wf ∅.
Proof. intros p n H. by rewrite lookup_empty in H. Qed.


Lemma node_at_cons (t : gmap (list string) Node) x p :
  Tree.node_at t (x :: p) = t !! (x :: p).
Proof. reflexivity. Qed.

Lemma suffix_cons_split (d q : list string) x :
  d `suffix_of` x :: q → d = x :: q ∨ d `suffix_of` q.
Proof.
  intros [k Hk]. destruct k as [|y k]; [left; done|].
  right. injection Hk as _ ->. by exists k.
Qed.




(** ** Uninstall *)






(** ** The log of an extraction *)

Section Quiet.
Context {A B : Type}.

Lemma quiet_ret (a : A) : quiet (ret a).
Proof. intros w. exists []. by rewrite app_nil_r. Qed.

Lemma quiet_liftRes (r : Res A) : quiet (liftRes r).
Proof. intros w. exists []. by rewrite app_nil_r. Qed.

Lemma quiet_emit ev : is_progress ev = false → quiet (emit ev).
Proof. intros H w. exists [ev]. repeat split; auto. Qed.

Lemma quiet_bind (m : M A) (k : A → M B) :
  quiet m → (∀ a, quiet (k a)) → quiet (bind m k).
Proof.
  intros Hm Hk w. unfold bind. destruct (Hm w) as (e1 & H1 & F1 & C1 & U1).
  destruct (m w) as [[a|e] w1]; cbn in *.
  - destruct (Hk a w1) as (e2 & H2 & F2 & C2 & U2).
    exists (e1 ++ e2)%list. rewrite H2, H1, C2, U2, app_assoc.
    repeat split; auto. by apply Forall_app.
  - by exists e1.
Qed.

Lemma quiet_defer (cleanup : M unit) (body : M A) :
  quiet cleanup → quiet body → quiet (defer cleanup body).
Proof.
  intros Hc Hb w. unfold defer. destruct (Hb w) as (e1 & H1 & F1 & C1 & U1).
  destruct (body w) as [r w1]; cbn in *.
  destruct (Hc w1) as (e2 & H2 & F2 & C2 & U2).
  destruct (cleanup w1) as [[[]|e] w2]; cbn in *;
    (exists (e1 ++ e2)%list; rewrite H2, H1, C2, U2, app_assoc;
     repeat split; auto; by apply Forall_app).
Qed.
End Quiet.

(** A step that touches the tree and nothing else. *)
Lemma quiet_tree_only {A} (m : M A) :
  (∀ w, log (m w).2 = log w ∧ cwd (m w).2 = cwd w ∧ umask (m w).2 = umask w) →
  quiet m.
Proof.
  intros H w. destruct (H w) as (Hl & Hc & Hu).
  exists []. by rewrite app_nil_r.
Qed.

Lemma quiet_on_tree f op path : quiet (on_tree f op path).
Proof.
  apply quiet_tree_only. intros w. unfold on_tree.
  by destruct (tree_call _ _ _ _ _) as [r t].
Qed.

Lemma quiet_panic_on err : quiet (panic_on err).
Proof. apply quiet_tree_only. intros w. by destruct err. Qed.

(** Case analysis on a scrutinee that has no case analysis inside. *)
Ltac case_inner :=
  match goal with
  | |- context [match ?x with _ => _ end] =>
      lazymatch x with
      | context [match _ with _ => _ end] => fail
      | _ => destruct x eqn:?
      end
  end.

(** The operations of [os], [io] and [zip] log one event each. *)
Ltac quiet_op f :=
  let w := fresh "w" in
  intros w; run_monad f;
  repeat (first
    [ case_decide
    | case_inner ];
    cbn [fst snd cwd umask tree log]);
  (eexists [_]; split; [reflexivity|]; split; [by repeat constructor | done]).

Lemma quiet_os_MkdirAll path perm : quiet (os_MkdirAll path perm).
Proof. quiet_op os_MkdirAll. Qed.

Lemma quiet_os_OpenFile path perm : quiet (os_OpenFile path perm).
Proof. quiet_op os_OpenFile. Qed.

Lemma quiet_io_Copy outFile readCloser : quiet (io_Copy outFile readCloser).
Proof. quiet_op io_Copy. Qed.

Lemma quiet_zip_Close readCloser : quiet (zip_Close readCloser).
Proof. quiet_op zip_Close. Qed.

Lemma quiet_close_or_panic f : quiet (close_or_panic f).
Proof.
  apply quiet_bind; [apply quiet_ret|]. intros err. apply quiet_panic_on.
Qed.

Create HintDb quiet.
#[local] Hint Resolve quiet_ret quiet_liftRes quiet_defer quiet_panic_on
  quiet_os_MkdirAll quiet_os_OpenFile quiet_io_Copy quiet_zip_Close
  quiet_close_or_panic : quiet.

Ltac quiet_step :=
  first
    [ solve [auto with quiet]
    | apply quiet_bind; [|intros ?]
    | apply quiet_defer
    | match goal with
      | |- quiet (match ?x with _ => _ end) => destruct x
      | |- quiet (if ?x then _ else _) => destruct x
      end ].

(** Processing an entry appends to the log: first the opening of the entry,
    then file system calls, never a progress report; the working directory
    and the umask stay. *)
Lemma extractAndWrite_log output file w :
  ∃ evs,
    log (extractAndWrite output file w).2
    = (log w ++ EvZipOpen (Name file) :: evs)%list
    ∧ Forall (λ ev, is_progress ev = false) evs
    ∧ cwd (extractAndWrite output file w).2 = cwd w
    ∧ umask (extractAndWrite output file w).2 = umask w.
Proof.
  unfold extractAndWrite, zip_Open.
  set (k := λ r : error + zipFile, match r with inl err => _ | inr z => _ end).
  assert (Hk : ∀ r, quiet (k r)).
  { intros r. subst k. cbv beta. repeat quiet_step. }
  set (r := match OpenErr file with Some msg => inl _ | None => inr file end).
  destruct (Hk r (mkWorld (cwd w) (umask w) (tree w)
                          (log w ++ [EvZipOpen (Name file)])))
    as (evs & Hl & Hf & Hc & Hu).
  exists evs. cbn in *.
  change (log w ++ EvZipOpen (Name file) :: evs)%list
    with (log w ++ [EvZipOpen (Name file)] ++ evs)%list.
  rewrite app_assoc. done.
Qed.

Lemma Extract_loop_cons output total i f rest w :
  Extract_loop output total i (f :: rest) w
  = match extractAndWrite output f
            (mkWorld (cwd w) (umask w) (tree w)
                     (log w ++ [EvProgress (progress_value i total)])) with
    | (Ok (Some e), w2) => (Ok (Some e), w2)
    | (Ok None, w2) => Extract_loop output total (S i) rest w2
    | (Panic e, w2) => (Panic e, w2)
    end.
Proof.
  cbn [Extract_loop]. unfold bind, SetValue, emit, ret.
  by destruct (extractAndWrite _ _ _) as [[[e|]|e] w2].
Qed.

(** The loop from index [i] on: its log is a sequence of blocks, one per
    entry reached, each behind its own report. *)
Lemma Extract_loop_blocks output total files : ∀ i w,
  ∃ blocks,
    log (Extract_loop output total i files w).2
    = (log w ++ List.concat (imap (λ j, report_first total (i + j)) blocks))%list
    ∧ (∀ j block, blocks !! j = Some block → entry_block files j block)
    ∧ (List.length blocks ≤ List.length files)%nat
    ∧ ((Extract_loop output total i files w).1 = Ok None →
       List.length blocks = List.length files)
    ∧ ((Extract_loop output total i files w).1 ≠ Ok None → blocks ≠ [])
    ∧ cwd (Extract_loop output total i files w).2 = cwd w
    ∧ umask (Extract_loop output total i files w).2 = umask w.
Proof.
  induction files as [|f rest IH]; intros i w.
  - exists []. cbn. rewrite app_nil_r. repeat split; done.
  - rewrite Extract_loop_cons.
    set (w1 := mkWorld _ _ _ _).
    destruct (extractAndWrite_log output f w1) as (evs & Hl & Hf & Hc & Hu).
    destruct (extractAndWrite output f w1) as [[[e|]|e] w2] eqn:Hstep;
      cbn [fst snd] in *.
    + (* the entry failed: its block is the last one *)
      exists [EvZipOpen (Name f) :: evs]. cbn.
      rewrite Hl, Hc, Hu. subst w1. cbn. rewrite app_nil_r, Nat.add_0_r.
      rewrite <- app_assoc. repeat split; try done; try (cbn; lia).
      intros [|j] block H; [|done]. injection H as <-. by exists f, evs.
    + (* the entry went through: the rest of the loop follows *)
      destruct (IH (S i) w2) as (blocks & Hl' & Hb & Hlen & Hok & Hko & Hc' & Hu').
      exists ((EvZipOpen (Name f) :: evs) :: blocks). cbn [imap List.concat].
      rewrite Hl', Hl, Hc', Hu', Hc, Hu. subst w1. cbn [log cwd umask].
      rewrite Nat.add_0_r. split.
      { rewrite <- !app_assoc. cbn. do 5 f_equal.
        apply imap_ext. intros j x _. cbn. by rewrite Nat.add_succ_r. }
      split.
      { intros [|j] block H; [injection H as <-; by exists f, evs|].
        destruct (Hb j block H) as (g & evs' & ? & ? & ?). by exists g, evs'. }
      split; [cbn; lia|]. split; [intros H; cbn; by rewrite Hok|].
      split; done.
    + (* a panic while closing the entry *)
      exists [EvZipOpen (Name f) :: evs]. cbn.
      rewrite Hl, Hc, Hu. subst w1. cbn. rewrite app_nil_r, Nat.add_0_r.
      rewrite <- app_assoc. repeat split; try done; try (cbn; lia).
      intros [|j] block H; [|done]. injection H as <-. by exists f, evs.
Qed.



(** ** The values on the progress bar *)

Lemma reported_app a b : reported (a ++ b) = (reported a ++ reported b)%list.
Proof. apply omap_app. Qed.

Lemma reported_quiet evs :
  Forall (λ ev, is_progress ev = false) evs → reported evs = [].
Proof.
  induction 1 as [|ev evs Hev _ IH]; [done|].
  unfold reported in *. cbn. rewrite IH. by destruct ev.
Qed.

Lemma reported_blocks total blocks : ∀ i,
  Forall (Forall (λ ev, is_progress ev = false)) blocks →
  reported (List.concat (imap (λ j, report_first total (i + j)) blocks))
  = map (λ j, progress_value j total) (seq i (List.length blocks)).
Proof.
  induction blocks as [|b blocks IH]; intros i Hq; [done|].
  apply Forall_cons in Hq as [Hb Hq]. cbn [imap List.concat].
  rewrite reported_app. unfold report_first at 1.
  change (reported (EvProgress ?v :: b)) with (v :: reported b).
  rewrite (reported_quiet _ Hb), Nat.add_0_r. cbn. f_equal.
  rewrite <- (IH (S i) Hq). do 2 f_equal.
  apply imap_ext. intros j x _. cbn. by rewrite Nat.add_succ_r.
Qed.

Lemma progress_value_lt total i j :
  (1 ≤ total)%nat → (i < j)%nat →
  (progress_value i total < progress_value j total)%Q.
Proof. intros Ht Hij. unfold progress_value, Qlt. cbn. nia. Qed.

Lemma progress_value_le total i j :
  (i ≤ j)%nat → (progress_value i total <= progress_value j total)%Q.
Proof. intros Hij. unfold progress_value, Qle. cbn. nia. Qed.

Lemma progress_value_last total :
  (1 ≤ total)%nat → (progress_value (total - 1) total == 1)%Q.
Proof.
  intros Ht. unfold progress_value, Qeq. cbn.
  replace (total - 1 + 1)%nat with total by lia.
  rewrite Z.mul_1_r, Z.mul_1_l.
  destruct total as [|n]; [lia|]. by rewrite <- Pos.of_nat_succ, Zpos_P_of_succ_nat, Nat2Z.inj_succ.
Qed.

Lemma StronglySorted_map_seq {A} (R : A → A → Prop) (f : nat → A) k : ∀ a,
  (∀ i j, (a ≤ i)%nat → (i < j)%nat → R (f i) (f j)) →
  StronglySorted R (map f (seq a k)).
Proof.
  induction k as [|k IH]; intros a HR; cbn; constructor.
  - apply IH. intros i j Hi Hij. apply HR; lia.
  - apply Forall_map, Forall_forall. intros j Hj.
    apply elem_of_seq in Hj. apply HR; lia.
Qed.

(** C6.  A successful extraction of [total ≥ 1] entries reports exactly
    [1/total, 2/total, ..., total/total], strictly increasing, the last
    value being 1; any run, failing or not, reports a prefix of that
    sequence, which is non-decreasing. *)
Theorem Extract_progress_sequence files output w :
  let total := List.length files in
  let r := Extract (GoodZip files) output w in
  ((1 ≤ total)%nat → r.1 = Ok None →
   reported (log r.2) = (reported (log w) ++ fractions total total)%list
   ∧ StronglySorted Qlt (fractions total total)
   ∧ ∃ v, last (fractions total total) = Some v ∧ (v == 1)%Q)
  ∧ ∃ k, (k ≤ total)%nat
         ∧ reported (log r.2) = (reported (log w) ++ fractions total k)%list
         ∧ StronglySorted Qle (fractions total k).
Proof.
  intros total r.
  destruct (Extract_loop_blocks output total files 0 w)
    as (blocks & Hl & Hb & Hlen & Hok & _ & _).
  assert (Hrep : reported (log r.2)
                 = (reported (log w) ++ fractions total (List.length blocks))%list).
  { subst r. cbn [Extract zip_NewReader]. fold total. rewrite Hl, reported_app.
    f_equal. rewrite reported_blocks; [done|].
    apply Forall_lookup. intros j block Hj.
    destruct (Hb j block Hj) as (f & evs & _ & -> & Hq).
    by constructor. }
  split.
  - intros Ht Hr. rewrite Hrep, (Hok Hr). fold total. split; [done|]. split.
    + apply StronglySorted_map_seq. intros i j _ Hij.
      by apply progress_value_lt.
    + exists (progress_value (total - 1) total). split.
      * unfold fractions. destruct total as [|n]; [lia|].
        rewrite seq_S, map_app. cbn [map]. rewrite last_snoc.
        cbn. by rewrite Nat.sub_0_r.
      * by apply progress_value_last.
  - exists (List.length blocks). split; [done|]. split; [done|].
    apply StronglySorted_map_seq. intros i j _ Hij.
    apply progress_value_le. lia.
Qed.

Lemma Extract_progress_sequence_witness :
  reported (log (Extract Runs.assets "/tmp/out" Runs.world0).2)
  = [(1 # 2)%Q; (2 # 2)%Q]
  ∧ StronglySorted Qlt [(1 # 2)%Q; (2 # 2)%Q].
Proof.
  destruct (Extract_progress_sequence
              [Runs.entry "assets/" Runs.dirmode "";
               Runs.entry "assets/readme.txt" 420 "hello"]
              "/tmp/out" Runs.world0) as [H _].
  destruct (H ltac:(cbn; lia) ltac:(vm_compute; reflexivity)) as (Hrep & Hs & _).
  split; [exact Hrep | exact Hs].
Defined.

(** ** Extraction as a function of the tree *)

Lemma extractAndWrite_effect output file w :
  (extractAndWrite output file w).1
  = (entry_effect (cwd w) (umask w) output file (tree w)).1
  ∧ tree (extractAndWrite output file w).2
    = (entry_effect (cwd w) (umask w) output file (tree w)).2.
Proof.
  run_monad extractAndWrite. unfold entry_effect, tree_call.
  repeat (case_inner; cbn [fst snd cwd umask tree log zip_err path_error]);
    by simplify_eq/=.
Qed.

Lemma Extract_loop_effect output total files : ∀ i w,
  (Extract_loop output total i files w).1
  = (run_effect (cwd w) (umask w) output files (tree w)).1
  ∧ tree (Extract_loop output total i files w).2
    = (run_effect (cwd w) (umask w) output files (tree w)).2.
Proof.
  induction files as [|f rest IH]; intros i w; [done|].
  rewrite Extract_loop_cons. set (w1 := mkWorld _ _ _ _).
  destruct (extractAndWrite_effect output f w1) as [Hr Ht].
  destruct (extractAndWrite_log output f w1) as (_ & _ & _ & Hc & Hu).
  cbn [run_effect]. change (cwd w1) with (cwd w) in *.
  change (umask w1) with (umask w) in *. change (tree w1) with (tree w) in *.
  destruct (extractAndWrite output f w1) as [r w2].
  destruct (entry_effect (cwd w) (umask w) output f (tree w)) as [r' t'].
  cbn [fst snd] in *. subst r' t'.
  destruct r as [[e|]|e]; [done| |done].
  rewrite <- Hc, <- Hu. apply IH.
Qed.

Lemma Extract_effect files output w :
  (Extract (GoodZip files) output w).1
  = (run_effect (cwd w) (umask w) output files (tree w)).1
  ∧ tree (Extract (GoodZip files) output w).2
    = (run_effect (cwd w) (umask w) output files (tree w)).2.
Proof. apply Extract_loop_effect. Qed.

(** ** The calls on the tree *)

Section TreeFacts.
Implicit Types t : gmap (list string) Node.
Implicit Types p q d : list string.

Lemma is_dir_mono t t' d : t ⊆ t' → Tree.is_dir t d → Tree.is_dir t' d.
Proof.
  intros Hsub [m Hm]. exists m. destruct d as [|x d]; [done|].
  rewrite node_at_cons in *. by eapply lookup_weaken.
Qed.

Lemma is_dir_lookup t x d :
  Tree.is_dir t (x :: d) ↔ ∃ m, t !! (x :: d) = Some (DirNode m).
Proof. reflexivity. Qed.

Lemma suffix_cons_not_self x p : ¬ x :: p `suffix_of` p.
Proof. apply suffix_cons_not. Qed.

(** A new entry under a directory keeps the tree well-formed, as long as
    it does not replace a directory. *)
Lemma tree_wf_insert t p n :
  tree_wf t → p ≠ [] → Tree.is_dir t (tail p) → ¬ Tree.is_dir t p →
  tree_wf (<[p := n]> t).
Proof.
  intros Hwf Hp Hpar Hnd q n' Hq.
  assert (Hkeep : ∀ d, Tree.is_dir t d → Tree.is_dir (<[p := n]> t) d).
  { intros d [m Hm]. exists m. destruct d as [|x d]; [done|].
    rewrite node_at_cons in *. rewrite lookup_insert_ne; [done|].
    intros ->. apply Hnd. by exists m. }
  destruct (decide (p = q)) as [<-|Hne].
  - split; [done|]. by apply Hkeep.
  - rewrite lookup_insert_ne in Hq by done.
    destruct (Hwf _ _ Hq) as [Hq0 Hd]. split; [done|]. by apply Hkeep.
Qed.

(** [MkdirAll]: nothing that was there changes; what is new is a
    directory of the given mode on the way to [p]; success leaves [p] a
    directory; the only error is a file in the way. *)
Lemma MkdirAll_spec mode t : ∀ p,
  t ⊆ (Tree.MkdirAll p mode t).2
  ∧ (∀ q n, t !! q = None → (Tree.MkdirAll p mode t).2 !! q = Some n →
            n = DirNode mode ∧ q `suffix_of` p ∧ q ≠ [])
  ∧ ((Tree.MkdirAll p mode t).1 = None →
     Tree.is_dir (Tree.MkdirAll p mode t).2 p)
  ∧ ((Tree.MkdirAll p mode t).1 = None
     ∨ (Tree.MkdirAll p mode t).1 = Some ENOTDIR)
  ∧ (tree_wf t → tree_wf (Tree.MkdirAll p mode t).2).
Proof.
  induction p as [|x p IH].
  - cbn. split_and!; [done|congruence|by eexists|by left|done].
  - cbn [Tree.MkdirAll]. rewrite node_at_cons.
    destruct (t !! (x :: p)) as [[m|m dat]|] eqn:Hxp; cbn [fst snd].
    + split_and!; [done|congruence| |by left|done].
      intros _. by exists m.
    + split_and!; [done|congruence|done|by right|done].
    + destruct IH as (Hsub & Hnew & Hdir & Herr & Hwf).
      destruct (Tree.MkdirAll p mode t) as [[e|] t1]; cbn [fst snd] in *.
      * split_and!; [done| |done| |done].
        -- intros q n Hq Hq1. destruct (Hnew _ _ Hq Hq1) as (? & ? & ?).
           split_and!; [done| |done]. by apply suffix_cons_r.
        -- destruct Herr as [?|?]; [done|by right].
      * specialize (Hdir eq_refl).
        assert (Hfresh : t1 !! (x :: p) = None).
        { destruct (t1 !! (x :: p)) as [n|] eqn:H1; [|done].
          destruct (Hnew _ _ Hxp H1) as (_ & Hsuf & _).
          by apply suffix_cons_not in Hsuf. }
        unfold Tree.Mkdir. rewrite node_at_cons, Hfresh. cbn [tail].
        destruct Hdir as [m Hm]. rewrite Hm. cbn [fst snd].
        split_and!.
        -- etrans; [exact Hsub|]. by apply insert_subseteq.
        -- intros q n Hq Hq1.
           destruct (decide (x :: p = q)) as [<-|Hne].
           ++ rewrite lookup_insert_eq in Hq1. by simplify_eq.
           ++ rewrite lookup_insert_ne in Hq1 by done.
              destruct (Hnew _ _ Hq Hq1) as (? & ? & ?).
              split_and!; [done| |done]. by apply suffix_cons_r.
        -- intros _. exists mode. by rewrite node_at_cons, lookup_insert_eq.
        -- by left.
        -- intros Hwf0. apply tree_wf_insert; [by apply Hwf|done| |].
           ++ by exists m.
           ++ intros [m' Hm']. rewrite node_at_cons in Hm'. congruence.
Qed.
End TreeFacts.

(** ** Cleaning and walking paths *)

Section PathFacts.
Import Strings Filepath.

Lemma Split_slash_free s : Forall slash_free (Split s slash).
Proof.
  induction s as [|a s IH]; cbn; [by constructor|].
  destruct (Ascii.eqb a slash) eqn:Ha; [by constructor|].
  destruct (Split s slash) as [|x xs]; [by constructor; [unfold slash_free; cbn; rewrite Ha|]|].
  apply Forall_cons in IH as [Hx Hxs]. constructor; [|done].
  unfold slash_free in *. cbn. by rewrite Ha.
Qed.

Lemma Split_single x : slash_free x → Split x slash = [x].
Proof.
  unfold slash_free. induction x as [|a x IH]; cbn; [done|].
  destruct (Ascii.eqb a slash); [done|]. cbn. intros H. by rewrite IH.
Qed.

Lemma Split_JoinWith els :
  els ≠ [] → Forall slash_free els → Split (JoinWith els slash) slash = els.
Proof.
  induction els as [|x els IH]; [done|]. intros _ Hall.
  apply Forall_cons in Hall as [Hx Hels].
  destruct els as [|y els]; [by apply Split_single|].
  change (JoinWith (x :: y :: els) slash)
    with (x +:+ String slash (JoinWith (y :: els) slash)).
  rewrite Split_app, (Split_single _ Hx), IH; done.
Qed.

Lemma kept_not_abs x : kept x → HasPrefixChar x slash = false.
Proof.
  intros (Hne & _ & Hsf). destruct x as [|a x]; [done|].
  unfold slash_free in Hsf. cbn in *. by destruct (Ascii.eqb a slash).
Qed.

Lemma JoinWith_cons_nonempty x els : x ≠ "" → JoinWith (x :: els) slash ≠ "".
Proof.
  intros Hx. destruct els as [|y els]; [done|].
  change (JoinWith (x :: y :: els) slash)
    with (x +:+ String slash (JoinWith (y :: els) slash)).
  intros H. by apply append_eq_nil in H as [? _].
Qed.

Lemma JoinWith_not_abs x els :
  kept x → HasPrefixChar (JoinWith (x :: els) slash) slash = false.
Proof.
  intros Hx. destruct els as [|y els]; [by apply kept_not_abs|].
  change (JoinWith (x :: y :: els) slash)
    with (x +:+ String slash (JoinWith (y :: els) slash)).
  rewrite HasPrefixChar_app by apply Hx. by apply kept_not_abs.
Qed.

Lemma kept_dotdot : kept dotdot.
Proof. done. Qed.

Lemma clean_step_kept rooted st el :
  Forall kept st → slash_free el → Forall kept (clean_step rooted st el).
Proof.
  intros Hst Hel. unfold clean_step. repeat case_decide; try done.
  - destruct st as [|top below]; [destruct rooted; by repeat constructor|].
    case_decide; [constructor; [apply kept_dotdot|done]|].
    by apply Forall_cons in Hst as [_ ?].
  - by constructor.
Qed.

Lemma clean_fold_kept rooted els : ∀ st,
  Forall kept st → Forall slash_free els →
  Forall kept (fold_left (clean_step rooted) els st).
Proof.
  induction els as [|el els IH]; intros st Hst Hels; [done|].
  apply Forall_cons in Hels as [Hel Hels]. cbn.
  apply IH; [by apply clean_step_kept|done].
Qed.

Lemma clean_elems_kept rooted s :
  Forall kept (clean_elems rooted (Split s slash)).
Proof.
  unfold clean_elems. apply Forall_rev.
  apply clean_fold_kept; [done|apply Split_slash_free].
Qed.

(** [Clean] never answers the empty string. *)
Lemma Clean_nonempty s : Clean s ≠ "".
Proof.
  unfold Clean. case_decide; [done|]. unfold render.
  pose proof (clean_elems_kept (IsAbs s) s) as Hk.
  destruct (IsAbs s); [done|].
  destruct (clean_elems false (Split s slash)) as [|x els]; [done|].
  apply Forall_cons in Hk as [Hx _]. apply JoinWith_cons_nonempty, Hx.
Qed.

Lemma walk_fold_app els1 els2 start :
  fold_left walk_step (els1 ++ els2) start
  = fold_left walk_step els2 (fold_left walk_step els1 start).
Proof. apply fold_left_app. Qed.

Lemma walk_step_kept at_ x : kept x → x ≠ dotdot → walk_step at_ x = x :: at_.
Proof.
  intros (H1 & H2 & _) H3. unfold walk_step. by repeat case_decide.
Qed.

(** One element: cleaning it and then walking the stack is walking it. *)
Lemma walk_clean_step rooted st el start :
  Forall kept st → (rooted = true → start = []) →
  fold_left walk_step (rev (clean_step rooted st el)) start
  = walk_step (fold_left walk_step (rev st) start) el.
Proof.
  intros Hst Hroot. unfold clean_step.
  destruct (decide (el = "")) as [->|H1]; [done|].
  destruct (decide (el = ".")) as [->|H2]; [done|].
  destruct (decide (el = dotdot)) as [->|H3].
  - destruct st as [|top below].
    + destruct rooted; [by rewrite Hroot|done].
    + case_decide as Htop.
      * cbn [rev]. by rewrite walk_fold_app.
      * apply Forall_cons in Hst as [Hk _]. cbn [rev].
        rewrite walk_fold_app. cbn [fold_left].
        by rewrite (walk_step_kept _ _ Hk Htop).
  - cbn [rev]. by rewrite walk_fold_app.
Qed.

Lemma walk_clean rooted els start : ∀ st,
  Forall kept st → Forall slash_free els → (rooted = true → start = []) →
  fold_left walk_step (rev (fold_left (clean_step rooted) els st)) start
  = fold_left walk_step els (fold_left walk_step (rev st) start).
Proof.
  induction els as [|el els IH]; intros st Hst Hels Hroot; [done|].
  apply Forall_cons in Hels as [Hel Hels]. cbn [fold_left].
  rewrite IH; [|by apply clean_step_kept|done|done].
  by rewrite walk_clean_step.
Qed.

(** Cleaning a path does not change where it leads. *)
Lemma resolve_Clean cwd s : s ≠ "" → resolve cwd (Clean s) = resolve cwd s.
Proof.
  intros Hs. unfold Clean. rewrite decide_False by done.
  pose proof (clean_elems_kept (IsAbs s) s) as Hk.
  assert (Hw : ∀ start, (IsAbs s = true → start = []) →
            fold_left walk_step (clean_elems (IsAbs s) (Split s slash)) start
            = fold_left walk_step (Split s slash) start).
  { intros start Hroot. unfold clean_elems.
    rewrite walk_clean; [done|done|apply Split_slash_free|done]. }
  unfold resolve at 2. rewrite <- Hw by (by destruct (IsAbs s)).
  set (cl := clean_elems (IsAbs s) (Split s slash)) in *.
  unfold resolve, render. destruct (IsAbs s) eqn:Habs.
  - cbn [IsAbs HasPrefixChar Split]. rewrite Ascii.eqb_refl.
    destruct cl as [|x cl]; [done|].
    rewrite Split_JoinWith; [done|done|].
    eapply Forall_impl; [exact Hk|]. by intros ? (_ & _ & ?).
  - destruct cl as [|x cl]; [done|].
    apply Forall_cons in Hk as [Hx Hcl]. unfold IsAbs.
    rewrite JoinWith_not_abs by done.
    rewrite Split_JoinWith; [done|done|].
    constructor; [apply Hx|]. eapply Forall_impl; [exact Hcl|].
    by intros ? (_ & _ & ?).
Qed.
End PathFacts.

Section JoinFacts.
Import Strings Filepath.

Lemma Join_pair_nonempty output name :
  output ≠ "" →
  Join [output; name] = Clean (output +:+ String slash name).
Proof. intros H. unfold Join. by rewrite decide_False. Qed.

Lemma Join_pair_empty name :
  Join [""; name] = if decide (name = "") then "" else Clean name.
Proof. unfold Join. rewrite decide_True by done. by case_decide. Qed.

Lemma Join_nonempty output name :
  output ≠ "" ∨ name ≠ "" → Join [output; name] ≠ "".
Proof.
  intros H. destruct (decide (output = "")) as [->|Ho].
  - rewrite Join_pair_empty. destruct H as [?|H]; [done|].
    rewrite decide_False by done. apply Clean_nonempty.
  - rewrite Join_pair_nonempty by done. apply Clean_nonempty.
Qed.

(** Below a non-empty destination, the target of a name is reached by
    walking the name from the destination. *)
Lemma resolve_Join cwd output name :
  output ≠ "" →
  resolve cwd (Join [output; name])
  = fold_left walk_step (Split name slash) (resolve cwd output).
Proof.
  intros Ho. rewrite Join_pair_nonempty by done.
  rewrite resolve_Clean.
  - unfold resolve, IsAbs. rewrite Split_app, walk_fold_app.
    by rewrite HasPrefixChar_app.
  - intros H. by apply append_eq_nil in H as [? _].
Qed.

(** The text before the last separator splits like the path, up to the
    last element. *)
Lemma upto_last_slash_Split s :
  ∃ init l, Split s slash = (init ++ [l])%list
    ∧ ((upto_last_slash s = "" ∧ init = [])
       ∨ (upto_last_slash s ≠ ""
          ∧ Split (upto_last_slash s) slash = (init ++ [""])%list
          ∧ IsAbs (upto_last_slash s) = IsAbs s)).
Proof.
  induction s as [|a s IH].
  - exists [], "". split; [done|]. by left.
  - destruct IH as (init & l & Hsplit & IH). cbn [upto_last_slash Split].
    destruct (Ascii.eqb a slash) eqn:Ha.
    + exists ("" :: init), l. rewrite Hsplit. split; [done|]. right.
      cbn [orb]. split; [done|]. cbn [Split]. rewrite Ha.
      split; [|by cbn; rewrite Ha].
      destruct IH as [[-> ->]|(_ & -> & _)]; done.
    + cbn [orb]. destruct IH as [[Hu ->]|(Hu & Hsu & _)].
      * rewrite Hu. cbn. rewrite Hsplit. cbn.
        exists [], (String a l). split; [done|]. by left.
      * assert (Hneq : String.eqb (upto_last_slash s) "" = false).
        { by apply String.eqb_neq. }
        rewrite Hneq. cbn [negb]. cbn [Split]. rewrite Ha, Hsu, Hsplit.
        destruct init as [|x init].
        -- exfalso. cbn in Hsu. destruct (upto_last_slash s) as [|b u]; [done|].
           cbn in Hsu. pose proof (Split_nonempty u slash) as Hn.
           destruct (Ascii.eqb b slash); [by simplify_eq|].
           by destruct (Split u slash).
        -- exists (String a x :: init), l. split; [done|]. right.
           split; [done|]. split; [done|]. cbn. by rewrite Ha.
Qed.

(** A path is its directory and then its last element. *)
Lemma resolve_Dir cwd s :
  ∃ l, resolve cwd s = walk_step (resolve cwd (Dir s)) l.
Proof.
  destruct (upto_last_slash_Split s) as (init & l & Hsplit & H).
  exists l. unfold Dir. destruct H as [[Hu ->]|(Hu & Hsu & Habs)].
  - rewrite Hu. unfold resolve at 1. rewrite Hsplit. cbn.
    assert (IsAbs s = false) as ->; [|done].
    destruct s as [|a s]; [done|]. cbn in *.
    destruct (Ascii.eqb a slash); [done|]. done.
  - rewrite resolve_Clean by done. unfold resolve.
    rewrite Hsu, Hsplit, Habs, !walk_fold_app. done.
Qed.

(** A name without [..] only descends. *)
Lemma walk_descends els : ∀ at_,
  dotdot ∉ els → at_ `suffix_of` fold_left walk_step els at_.
Proof.
  induction els as [|el els IH]; intros at_ Hnd; [done|].
  apply not_elem_of_cons in Hnd as [Hel Hels]. cbn [fold_left].
  etrans; [|by apply IH]. unfold walk_step.
  repeat case_decide; try done. by apply suffix_cons_r.
Qed.
End JoinFacts.

(** ** Opening and writing files *)

Section FileFacts.
Implicit Types t : gmap (list string) Node.
Implicit Types p q : list string.

Lemma OpenTrunc_ENOENT p mode t :
  (Tree.OpenTrunc p mode t).1 = Some ENOENT →
  Tree.node_at t p = None ∧ Tree.node_at t (tail p) = None.
Proof.
  unfold Tree.OpenTrunc.
  destruct (Tree.node_at t p) as [[m|m d]|]; [done..|].
  by destruct (Tree.node_at t (tail p)) as [[m|m d]|].
Qed.

Lemma OpenTrunc_err p mode t e :
  (Tree.OpenTrunc p mode t).1 = Some e → (Tree.OpenTrunc p mode t).2 = t.
Proof.
  unfold Tree.OpenTrunc.
  destruct (Tree.node_at t p) as [[m|m d]|]; [done..|].
  by destruct (Tree.node_at t (tail p)) as [[m|m d]|].
Qed.

(** A successful open leaves an empty file at [p]: the old one with its
    mode, or a new one of the given mode in an existing directory. *)
Lemma OpenTrunc_ok p mode t :
  (Tree.OpenTrunc p mode t).1 = None →
  p ≠ []
  ∧ ∃ m, (Tree.OpenTrunc p mode t).2 = <[p := FileNode m []]> t
         ∧ ((∃ d, t !! p = Some (FileNode m d))
            ∨ (t !! p = None ∧ m = mode ∧ Tree.is_dir t (tail p))).
Proof.
  unfold Tree.OpenTrunc. destruct p as [|x p]; [done|].
  rewrite node_at_cons. cbn [tail].
  destruct (t !! (x :: p)) as [[m|m d]|] eqn:Hp; [done| |].
  - intros _. split; [done|]. exists m. split; [done|]. left. by exists d.
  - destruct (Tree.node_at t p) as [[m|m d]|] eqn:Hpar; [|done..].
    intros _. split; [done|]. exists mode. split; [done|]. right.
    split_and!; [done..|]. by exists m.
Qed.

Lemma tree_wf_replace_file t p m d n :
  tree_wf t → t !! p = Some (FileNode m d) → tree_wf (<[p := n]> t).
Proof.
  intros Hwf Hp. destruct (Hwf _ _ Hp) as [Hne Hpar].
  apply tree_wf_insert; [done..|].
  intros [m' Hm']. destruct p as [|x p]; [done|].
  rewrite node_at_cons in Hm'. congruence.
Qed.

Lemma tree_wf_OpenTrunc p mode t :
  tree_wf t → tree_wf (Tree.OpenTrunc p mode t).2.
Proof.
  intros Hwf. destruct (Tree.OpenTrunc p mode t).1 as [e|] eqn:Hr.
  - by rewrite (OpenTrunc_err _ _ _ _ Hr).
  - destruct (OpenTrunc_ok _ _ _ Hr) as (Hp & m & -> & [[d Hd]|(Hn & _ & Hpar)]).
    + by eapply tree_wf_replace_file.
    + apply tree_wf_insert; [done..|].
      intros [m' Hm']. destruct p as [|x p]; [done|].
      rewrite node_at_cons in Hm'. congruence.
Qed.

Lemma tree_wf_Write p data t : tree_wf t → tree_wf (Tree.Write p data t).
Proof.
  intros Hwf. unfold Tree.Write.
  destruct (t !! p) as [[m|m d]|] eqn:Hp; [done| |done].
  by eapply tree_wf_replace_file.
Qed.

(** Writing through the descriptor of a fresh open. *)
Lemma Write_after_open p m data t :
  Tree.Write p data (<[p := FileNode m []]> t) = <[p := FileNode m data]> t.
Proof.
  unfold Tree.Write. rewrite lookup_insert_eq. apply insert_insert_eq.
Qed.
End FileFacts.

(** ** Entries one by one *)

Section EntryFacts.
Variables (cwd : list string) (umask : N) (output : string).
Implicit Types t : gmap (list string) Node.

Lemma tree_wf_tree_call f op path t :
  (∀ p t0, tree_wf t0 → tree_wf (f p t0).2) →
  tree_wf t → tree_wf (tree_call f op path cwd t).2.
Proof.
  intros Hf Hwf. unfold tree_call. case_decide; [done|].
  specialize (Hf (resolve cwd path) t Hwf).
  by destruct (f (resolve cwd path) t).
Qed.

Lemma tree_wf_MkdirAll_call mode path t :
  tree_wf t →
  tree_wf (tree_call (λ p, Tree.MkdirAll p mode) "mkdir" path cwd t).2.
Proof.
  apply tree_wf_tree_call. intros p t0. apply MkdirAll_spec.
Qed.

(** Extraction keeps the tree well-formed. *)
Lemma tree_wf_entry_effect file t :
  tree_wf t → tree_wf (entry_effect cwd umask output file t).2.
Proof.
  intros Hwf. unfold entry_effect. destruct (OpenErr file); [done|].
  cbn [snd]. destruct (FileMode.IsDir (Mode file)).
  - by apply tree_wf_MkdirAll_call.
  - pose proof (tree_wf_MkdirAll_call
                  (FileMode.created umask (Mode file))
                  (Filepath.Dir (Filepath.Join [output; Name file])) t Hwf)
      as Hwf1.
    destruct (tree_call _ "mkdir" _ cwd t) as [[e|] t1]; [done|].
    cbn [snd] in Hwf1.
    pose proof (tree_wf_tree_call
                  (λ p, Tree.OpenTrunc p (FileMode.created umask (Mode file)))
                  "open" (Filepath.Join [output; Name file]) t1
                  (λ p t0, tree_wf_OpenTrunc p _ t0) Hwf1) as Hwf2.
    destruct (tree_call _ "open" _ cwd t1) as [[e|] t2]; [done|].
    cbn [snd] in *. by apply tree_wf_Write.
Qed.

Lemma tree_wf_run_effect files : ∀ t,
  tree_wf t → tree_wf (run_effect cwd umask output files t).2.
Proof.
  induction files as [|f rest IH]; intros t Hwf; [done|].
  cbn [run_effect]. pose proof (tree_wf_entry_effect f t Hwf) as Hwf1.
  destruct (entry_effect cwd umask output f t) as [[[e|]|e] t1]; [done| |done].
  by apply IH.
Qed.

Lemma MkdirAll_call_result mode path t :
  path ≠ "" →
  (tree_call (λ p, Tree.MkdirAll p mode) "mkdir" path cwd t).1 = None
  ∨ (tree_call (λ p, Tree.MkdirAll p mode) "mkdir" path cwd t).1
    = Some (PathError "mkdir" ENOTDIR).
Proof.
  intros Hp. unfold tree_call. rewrite decide_False by done.
  destruct (MkdirAll_spec mode t (resolve cwd path)) as (_ & _ & _ & He & _).
  destruct (Tree.MkdirAll (resolve cwd path) mode t) as [r t1].
  cbn in *. destruct He as [-> | ->]; auto.
Qed.

(** No entry with a target fails for a missing directory: the parent of
    a file is a directory by the time the file is opened. *)
Lemma entry_effect_not_ENOENT file t op :
  tree_wf t → Filepath.Join [output; Name file] ≠ "" →
  (entry_effect cwd umask output file t).1 ≠ Ok (Some (PathError op ENOENT)).
Proof.
  intros Hwf Hpath. unfold entry_effect.
  destruct (OpenErr file); [done|]. cbn [fst].
  destruct (CloseErr file); [done|]. intros [= Hres]. revert Hres.
  set (mode := FileMode.created umask (Mode file)).
  set (path := Filepath.Join [output; Name file]) in *.
  destruct (FileMode.IsDir (Mode file)).
  - destruct (MkdirAll_call_result mode path t Hpath) as [-> | ->]; done.
  - assert (Hdir : Filepath.Dir path ≠ "") by apply Clean_nonempty.
    pose proof (tree_wf_MkdirAll_call mode (Filepath.Dir path) t Hwf) as Hwf1.
    pose proof (MkdirAll_call_result mode (Filepath.Dir path) t Hdir) as Hr.
    assert ((tree_call (λ p, Tree.MkdirAll p mode) "mkdir"
                       (Filepath.Dir path) cwd t).1 = None →
            Tree.is_dir (tree_call (λ p, Tree.MkdirAll p mode) "mkdir"
                                   (Filepath.Dir path) cwd t).2
                        (resolve cwd (Filepath.Dir path))) as Hpar.
    { unfold tree_call. rewrite decide_False by done.
      destruct (MkdirAll_spec mode t (resolve cwd (Filepath.Dir path)))
        as (_ & _ & Hd & _).
      destruct (Tree.MkdirAll _ mode t) as [[e|] t1]; cbn in *; [done|].
      intros _. by apply Hd. }
    destruct (tree_call _ "mkdir" _ cwd t) as [r1 t1]. cbn [fst snd] in *.
    destruct Hr as [-> | ->]; [|done]. specialize (Hpar eq_refl).
    unfold tree_call. rewrite decide_False by done.
    destruct (Tree.OpenTrunc (resolve cwd path) mode t1) as [[e|] t2] eqn:Hopen;
      cbn [fst snd path_error].
    + intros [= <- ->].
      destruct (OpenTrunc_ENOENT (resolve cwd path) mode t1) as [Hp Hpp];
        [by rewrite Hopen|].
      destruct (resolve_Dir cwd path) as [l Hl]. rewrite Hl in Hp, Hpp.
      destruct Hpar as [m Hm]. revert Hp Hpp. unfold walk_step.
      repeat case_decide; cbn [tail]; try congruence.
      intros Hp _. destruct (resolve cwd (Filepath.Dir path)) as [|x d]; [done|].
      rewrite node_at_cons in Hm. destruct (Hwf1 _ _ Hm) as [_ [m' Hm']].
      cbn [tail] in *. congruence.
    + by destruct (ReadErr file).
Qed.

Lemma run_effect_not_ENOENT files op : ∀ t,
  tree_wf t → (∀ f, f ∈ files → Filepath.Join [output; Name f] ≠ "") →
  (run_effect cwd umask output files t).1 ≠ Ok (Some (PathError op ENOENT)).
Proof.
  induction files as [|f rest IH]; intros t Hwf Hall; [done|].
  cbn [run_effect].
  pose proof (entry_effect_not_ENOENT f t op Hwf (Hall f ltac:(left))) as Hne.
  pose proof (tree_wf_entry_effect f t Hwf) as Hwf1.
  destruct (entry_effect cwd umask output f t) as [[[e|]|e] t1]; [done| |done].
  apply IH; [done|]. intros g Hg. apply Hall. by right.
Qed.
End EntryFacts.

(** C7.  In a well-formed tree, extracting a file entry with a name never
    fails with "no such file or directory": its parent directories are made
    before the file is opened, so the directory is there whether an entry
    for it came first, comes later, or is not in the archive at all.  The
    same holds for a whole extraction, in any order of the entries. *)
Theorem Extract_never_misses_a_parent output w :
  tree_wf (tree w) →
  (∀ file op,
     FileMode.IsDir (Mode file) = false → Name file ≠ "" →
     (extractAndWrite output file w).1 ≠ Ok (Some (PathError op ENOENT)))
  ∧ (∀ files op,
       (∀ f, f ∈ files → Name f ≠ "") →
       (Extract (GoodZip files) output w).1 ≠ Ok (Some (PathError op ENOENT))).
Proof.
  intros Hwf. split.
  - intros file op _ Hname.
    destruct (extractAndWrite_effect output file w) as [-> _].
    apply entry_effect_not_ENOENT; [done|]. apply Join_nonempty. by right.
  - intros files op Hnames.
    destruct (Extract_effect files output w) as [-> _].
    apply run_effect_not_ENOENT; [done|]. intros f Hf.
    apply Join_nonempty. right. by apply Hnames.
Qed.

Lemma Extract_never_misses_a_parent_witness :
  (Extract (GoodZip [Runs.readme]) "/tmp/out" Runs.world0).1 = Ok None
  ∧ ∀ op, (extractAndWrite "/tmp/out" Runs.readme Runs.world0).1
          ≠ Ok (Some (PathError op ENOENT)).
Proof.
  split; [vm_compute; reflexivity|]. intros op.
  apply (Extract_never_misses_a_parent "/tmp/out" Runs.world0 tree_wf_empty);
    [reflexivity | discriminate].
Defined.

(** ** The mode of the directories made for a file *)

Section ParentMode.
Variables (cwd : list string) (umask : N) (output : string) (file : zipFile).
Hypothesis is_file : FileMode.IsDir (Mode file) = false.

Let path := Filepath.Join [output; Name file].
Let mode := FileMode.created umask (Mode file).

(** What a file entry adds to the tree: directories of the entry's own
    mode, and the file. *)
Lemma entry_effect_file_new t q n :
  t !! q = None →
  (entry_effect cwd umask output file t).2 !! q = Some n →
  n = DirNode mode ∨ (q = resolve cwd path ∧ ∃ m, n = FileNode m (Data file)).
Proof using is_file.
  intros Hq. unfold entry_effect.
  destruct (OpenErr file); [cbn [snd]; congruence|].
  cbn [snd]. rewrite is_file. fold path mode. unfold tree_call.
  rewrite (decide_False (P := Filepath.Dir path = "")) by apply Clean_nonempty.
  destruct (MkdirAll_spec mode t (resolve cwd (Filepath.Dir path)))
    as (_ & Hnew & _).
  destruct (Tree.MkdirAll (resolve cwd (Filepath.Dir path)) mode t)
    as [[e|] t1]; cbn [fst snd path_error] in *.
  { intros Hq'. left. by eapply Hnew. }
  case_decide; cbn [snd]; [intros Hq'; left; by eapply Hnew|].
  destruct (Tree.OpenTrunc (resolve cwd path) mode t1) as [[e|] t2] eqn:Hopen;
    cbn [fst snd path_error].
  { pose proof (OpenTrunc_err (resolve cwd path) mode t1 e) as He.
    rewrite Hopen in He. cbn in He. rewrite He by done.
    intros H'. left. by eapply Hnew. }
  destruct (OpenTrunc_ok (resolve cwd path) mode t1) as (_ & m & Ht2 & _);
    [by rewrite Hopen|].
  rewrite Hopen in Ht2. cbn in Ht2. subst t2. rewrite Write_after_open.
  destruct (decide (resolve cwd path = q)) as [<-|Hne].
  - rewrite lookup_insert_eq. intros [= <-]. right. eauto.
  - rewrite lookup_insert_ne by done. intros H'. left. by eapply Hnew.
Qed.

(** After a successful file entry its parent is a directory, and if the
    parent was not there before it has the entry's mode. *)
Lemma entry_effect_file_parent t :
  (entry_effect cwd umask output file t).1 = Ok None →
  Tree.is_dir (entry_effect cwd umask output file t).2
    (resolve cwd (Filepath.Dir path))
  ∧ (Tree.node_at t (resolve cwd (Filepath.Dir path)) = None →
     (entry_effect cwd umask output file t).2
       !! resolve cwd (Filepath.Dir path) = Some (DirNode mode)).
Proof using is_file.
  unfold entry_effect. destruct (OpenErr file); [done|].
  cbn [fst snd]. rewrite is_file. fold path mode. unfold tree_call.
  rewrite (decide_False (P := Filepath.Dir path = "")) by apply Clean_nonempty.
  set (R := resolve cwd (Filepath.Dir path)).
  destruct (MkdirAll_spec mode t R) as (_ & Hnew & Hdir & _).
  destruct (Tree.MkdirAll R mode t) as [[e|] t1];
    cbn [fst snd path_error] in *.
  { by destruct (CloseErr file). }
  case_decide; cbn [fst snd]; [by destruct (CloseErr file)|].
  destruct (Tree.OpenTrunc (resolve cwd path) mode t1) as [[e|] t2] eqn:Hopen;
    cbn [fst snd path_error].
  { by destruct (CloseErr file). }
  intros _. specialize (Hdir eq_refl).
  destruct (OpenTrunc_ok (resolve cwd path) mode t1)
    as (Hp & m & Ht2 & Hold); [by rewrite Hopen|].
  rewrite Hopen in Ht2. cbn in Ht2. subst t2. rewrite Write_after_open.
  assert (Hne : resolve cwd path ≠ R).
  { intros Heq. destruct Hdir as [m' Hm']. rewrite <- Heq in Hm'.
    destruct (resolve cwd path) as [|x p]; [done|].
    rewrite node_at_cons in Hm'.
    destruct Hold as [[d Hd]|(Hn & _)]; congruence. }
  assert (Hkeep : Tree.node_at (<[resolve cwd path := FileNode m (Data file)]> t1) R
                  = Tree.node_at t1 R).
  { destruct R as [|x r]; [done|]. rewrite !node_at_cons.
    by rewrite lookup_insert_ne. }
  split.
  - destruct Hdir as [m' Hm']. exists m'. by rewrite Hkeep.
  - intros Hmiss. destruct R as [|x r] eqn:HR; [done|].
    rewrite node_at_cons in *. rewrite lookup_insert_ne by done.
    destruct Hdir as [m' Hm']. rewrite node_at_cons in Hm'.
    destruct (Hnew _ _ Hmiss Hm') as (Hmode & _). by rewrite Hm', Hmode.
Qed.
End ParentMode.

(** C10.  A file entry makes its missing parent directories with its own
    mode: every directory that processing the entry adds to the tree has
    the permission bits of [file.Mode()] (less the umask), and when the
    entry is extracted its parent exists, with those bits if it was not
    there before. *)
Theorem parents_take_the_mode_of_the_file output file w :
  FileMode.IsDir (Mode file) = false →
  let w' := (extractAndWrite output file w).2 in
  let parent :=
    resolve (cwd w) (Filepath.Dir (Filepath.Join [output; Name file])) in
  (∀ q m, tree w !! q = None → tree w' !! q = Some (DirNode m) →
          m = FileMode.created (umask w) (Mode file))
  ∧ ((extractAndWrite output file w).1 = Ok None →
     Tree.is_dir (tree w') parent
     ∧ (Tree.node_at (tree w) parent = None →
        tree w' !! parent
        = Some (DirNode (FileMode.created (umask w) (Mode file))))).
Proof.
  intros Hfile w' parent. subst w' parent.
  destruct (extractAndWrite_effect output file w) as [-> ->]. split.
  - intros q m Hq Hq'.
    destruct (entry_effect_file_new _ _ _ _ Hfile _ _ _ Hq Hq')
      as [[= ->]|(_ & m' & [=])]; done.
  - by apply entry_effect_file_parent.
Qed.

Lemma parents_take_the_mode_of_the_file_witness :
  tree (extractAndWrite "/tmp/out" Runs.readme Runs.world0).2
    !! ["assets"; "out"; "tmp"]
  = Some (DirNode 420).
Proof.
  destruct (parents_take_the_mode_of_the_file "/tmp/out" Runs.readme
              Runs.world0 eq_refl) as [_ H].
  destruct (H ltac:(vm_compute; reflexivity)) as [_ Hnew].
  exact (Hnew eq_refl).
Defined.

(** ** Extracting twice *)

Section Twice.
Variables (cwd : list string) (umask : N) (output : string).
Implicit Types t : gmap (list string) Node.
Implicit Types f g : zipFile.

Lemma MkdirAll_existing p mode t :
  Tree.is_dir t p → Tree.MkdirAll p mode t = (None, t).
Proof. intros [m Hm]. destruct p; cbn [Tree.MkdirAll]; by rewrite Hm. Qed.

(** What a successful entry has done. *)
Lemma entry_effect_ok f t t' :
  entry_effect cwd umask output f t = (Ok None, t') →
  OpenErr f = None ∧ CloseErr f = None
  ∧ Filepath.Join [output; Name f] ≠ ""
  ∧ if FileMode.IsDir (Mode f) then
      Tree.MkdirAll (target cwd output f)
                    (FileMode.created umask (Mode f)) t = (None, t')
    else
      ReadErr f = None
      ∧ target cwd output f ≠ []
      ∧ ∃ t1 m,
          Tree.MkdirAll (target_dir cwd output f)
                        (FileMode.created umask (Mode f)) t = (None, t1)
          ∧ t' = <[target cwd output f := FileNode m (Data f)]> t1
          ∧ ((∃ d, t1 !! target cwd output f = Some (FileNode m d))
             ∨ t1 !! target cwd output f = None).
Proof.
  unfold entry_effect, target, target_dir.
  set (path := Filepath.Join [output; Name f]).
  set (mode := FileMode.created umask (Mode f)).
  destruct (OpenErr f); [done|]. destruct (CloseErr f); [done|].
  destruct (FileMode.IsDir (Mode f)).
  - unfold tree_call. case_decide; [done|].
    destruct (Tree.MkdirAll (resolve cwd path) mode t) as [[e|] t1];
      cbn; [done|]. by intros [= ->].
  - unfold tree_call.
    rewrite (decide_False (P := Filepath.Dir path = "")) by apply Clean_nonempty.
    destruct (Tree.MkdirAll (resolve cwd (Filepath.Dir path)) mode t)
      as [[e|] t1]; cbn [fst snd path_error]; [done|].
    case_decide; [done|].
    destruct (Tree.OpenTrunc (resolve cwd path) mode t1) as [[e|] t2] eqn:Hopen;
      cbn [fst snd path_error]; [done|].
    destruct (ReadErr f); [done|]. cbn. intros [= <-].
    destruct (OpenTrunc_ok (resolve cwd path) mode t1)
      as (Hroot & m & Ht2 & Hold); [by rewrite Hopen|].
    rewrite Hopen in Ht2. cbn in Ht2. subst t2. rewrite Write_after_open.
    split_and!; [done..|]. exists t1, m. split_and!; [done..|].
    destruct Hold as [?|(? & _)]; auto.
Qed.

(** A successful entry leaves what was there, but for the contents of
    the file it writes. *)
Lemma entry_effect_keeps f t t' q n :
  entry_effect cwd umask output f t = (Ok None, t') →
  t !! q = Some n →
  t' !! q = Some n
  ∨ (writes cwd output f q ∧ t' !! q = with_data (Data f) (Some n)).
Proof.
  intros Hok Hq. destruct (entry_effect_ok _ _ _ Hok) as (_ & _ & _ & H).
  unfold writes. destruct (FileMode.IsDir (Mode f)).
  - left. destruct (MkdirAll_spec (FileMode.created umask (Mode f)) t
                      (target cwd output f)) as (Hsub & _).
    rewrite H in Hsub. by eapply lookup_weaken.
  - destruct H as (_ & _ & t1 & m & Hmk & -> & Hold).
    destruct (MkdirAll_spec (FileMode.created umask (Mode f)) t
                (target_dir cwd output f)) as (Hsub & _).
    rewrite Hmk in Hsub. cbn in Hsub.
    pose proof (lookup_weaken _ _ _ _ Hq Hsub) as Hq1.
    destruct (decide (target cwd output f = q)) as [<-|Hne].
    + right. split; [done|]. rewrite lookup_insert_eq.
      destruct Hold as [[d Hd]|Hn]; [|congruence].
      rewrite Hd in Hq1. by injection Hq1 as <-.
    + left. by rewrite lookup_insert_ne.
Qed.

Lemma is_dir_kept f t t' d :
  entry_effect cwd umask output f t = (Ok None, t') →
  Tree.is_dir t d → Tree.is_dir t' d.
Proof.
  intros Hok [m Hm]. exists m. destruct d as [|x d]; [done|].
  rewrite node_at_cons in *.
  by destruct (entry_effect_keeps _ _ _ _ _ Hok Hm) as [?|(_ & ?)].
Qed.

Lemma is_file_kept f t t' q m d :
  entry_effect cwd umask output f t = (Ok None, t') →
  t !! q = Some (FileNode m d) → ∃ d', t' !! q = Some (FileNode m d').
Proof.
  intros Hok Hq.
  destruct (entry_effect_keeps _ _ _ _ _ Hok Hq) as [?|(_ & ?)]; eauto.
Qed.

(** An entry that went through is settled, ... *)
Lemma entry_effect_settles f t t' :
  entry_effect cwd umask output f t = (Ok None, t') →
  settled cwd output f t'.
Proof.
  intros Hok. destruct (entry_effect_ok _ _ _ Hok) as (Ho & Hc & Hp & H).
  unfold settled. split_and!; [done..|].
  destruct (FileMode.IsDir (Mode f)).
  - destruct (MkdirAll_spec (FileMode.created umask (Mode f)) t
                (target cwd output f)) as (_ & _ & Hdir & _).
    rewrite H in Hdir. by apply Hdir.
  - destruct H as (Hr & Hroot & t1 & m & Hmk & -> & Hold). split; [done|].
    destruct (MkdirAll_spec (FileMode.created umask (Mode f)) t
                (target_dir cwd output f)) as (_ & _ & Hdir & _).
    rewrite Hmk in Hdir. specialize (Hdir eq_refl). cbn in Hdir.
    split; [|split; [done|]].
    + destruct Hdir as [m' Hm']. exists m'.
      destruct (target_dir cwd output f) as [|x d]; [done|].
      rewrite node_at_cons in *. rewrite lookup_insert_ne; [done|].
      intros Heq. rewrite Heq in Hold.
      destruct Hold as [[d' Hd']|Hn]; congruence.
    + exists m, (Data f). by rewrite lookup_insert_eq.
Qed.

(** ... and stays settled whatever goes through after it. *)
Lemma settled_kept f g t t' :
  entry_effect cwd umask output g t = (Ok None, t') →
  settled cwd output f t → settled cwd output f t'.
Proof.
  intros Hok (Ho & Hc & Hp & H). unfold settled. split_and!; [done..|].
  destruct (FileMode.IsDir (Mode f)).
  - by eapply is_dir_kept.
  - destruct H as (Hr & Hdir & Hroot & m & d & Hfile).
    split; [done|]. split; [by eapply is_dir_kept|]. split; [done|].
    destruct (is_file_kept _ _ _ _ _ _ Hok Hfile) as [d' Hd']. eauto.
Qed.

Lemma run_effect_settles files : ∀ t t',
  run_effect cwd umask output files t = (Ok None, t') →
  Forall (λ f, settled cwd output f t') files.
Proof.
  induction files as [|f rest IH]; intros t t' Hrun; [done|].
  cbn [run_effect] in Hrun.
  destruct (entry_effect cwd umask output f t) as [[[e|]|e] t1] eqn:Hstep;
    [done| |done].
  constructor; [|by eapply IH].
  pose proof (entry_effect_settles _ _ _ Hstep) as Hs.
  clear Hstep IH. revert t1 Hrun Hs.
  induction rest as [|g rest IH]; intros t1 Hrun Hs; [by injection Hrun as <-|].
  cbn [run_effect] in Hrun.
  destruct (entry_effect cwd umask output g t1) as [[[e|]|e] t2] eqn:Hstep;
    [done| |done].
  eapply IH; [done|]. by eapply settled_kept.
Qed.
End Twice.

Section TwiceMore.
Variables (cwd : list string) (umask : N) (output : string).
Implicit Types t : gmap (list string) Node.
Implicit Types f g : zipFile.

(** A settled entry goes through and only rewrites its file. *)
Lemma entry_effect_settled f t :
  settled cwd output f t →
  entry_effect cwd umask output f t = (Ok None, overwrite cwd output t f).
Proof.
  intros (Ho & Hc & Hp & H). unfold entry_effect, overwrite.
  rewrite Ho, Hc. unfold target, target_dir in *.
  set (path := Filepath.Join [output; Name f]) in *.
  set (mode := FileMode.created umask (Mode f)).
  destruct (FileMode.IsDir (Mode f)).
  - unfold tree_call. rewrite decide_False by done.
    by rewrite (MkdirAll_existing _ _ _ H).
  - destruct H as (Hr & Hdir & Hroot & m & d & Hfile). unfold tree_call.
    rewrite (decide_False (P := Filepath.Dir path = "")) by apply Clean_nonempty.
    rewrite (MkdirAll_existing _ _ _ Hdir). cbn [fst snd path_error].
    rewrite decide_False by done.
    assert (Hopen : Tree.OpenTrunc (resolve cwd path) mode t
                    = (None, <[resolve cwd path := FileNode m []]> t)).
    { unfold Tree.OpenTrunc.
      destruct (resolve cwd path) as [|x p]; [done|].
      by rewrite node_at_cons, Hfile. }
    rewrite Hopen, Hr. cbn. rewrite Write_after_open.
    unfold Tree.Write. by rewrite Hfile.
Qed.

Lemma overwrite_lookup t f q :
  overwrite cwd output t f !! q
  = if decide (writes cwd output f q) then with_data (Data f) (t !! q)
    else t !! q.
Proof.
  unfold overwrite, Tree.Write.
  destruct (decide (writes cwd output f q)) as [[Hfile <-]|Hnw].
  - rewrite Hfile.
    destruct (t !! target cwd output f) as [[m|m d]|] eqn:Ht; cbn;
      by rewrite ?lookup_insert_eq.
  - destruct (FileMode.IsDir (Mode f)) eqn:Hd; [done|].
    destruct (t !! target cwd output f) as [[m|m d]|] eqn:Ht; try done.
    rewrite lookup_insert_ne; [done|]. intros Heq. apply Hnw. by split.
Qed.

Lemma settled_overwrite f g t :
  settled cwd output f t → settled cwd output f (overwrite cwd output t g).
Proof.
  intros Hs. pose proof Hs as (Ho & Hc & Hp & H).
  assert (Hdirs : ∀ d, Tree.is_dir t d →
                       Tree.is_dir (overwrite cwd output t g) d).
  { intros d [m Hm]. exists m. destruct d as [|x d]; [done|].
    rewrite node_at_cons in *. rewrite overwrite_lookup.
    case_decide; by rewrite Hm. }
  unfold settled. split_and!; [done..|].
  destruct (FileMode.IsDir (Mode f)); [by apply Hdirs|].
  destruct H as (Hr & Hdir & Hroot & m & d & Hfile).
  split_and!; [done|by apply Hdirs|done|].
  rewrite overwrite_lookup, Hfile. case_decide; cbn; eauto.
Qed.

(** Over a tree in which all entries are settled, extraction is a
    sequence of rewrites. *)
Lemma run_effect_settled files : ∀ t,
  Forall (λ f, settled cwd output f t) files →
  run_effect cwd umask output files t
  = (Ok None, fold_left (overwrite cwd output) files t).
Proof.
  induction files as [|f rest IH]; intros t Hall; [done|].
  apply Forall_cons in Hall as [Hf Hrest]. cbn [run_effect fold_left].
  rewrite (entry_effect_settled f t Hf). apply IH.
  eapply Forall_impl; [exact Hrest|]. intros g Hg.
  by apply settled_overwrite.
Qed.

Lemma with_data_twice d1 d2 node :
  with_data d2 (with_data d1 node) = with_data d2 node.
Proof. by destruct node as [[m|m d]|]. Qed.

(** After the rewrites a location has the data of the last entry that
    writes it. *)
Lemma rewrites_lookup files q : ∀ t,
  fold_left (overwrite cwd output) files t !! q
  = match last_write cwd output files q with
    | Some data => with_data data (t !! q)
    | None => t !! q
    end.
Proof.
  induction files as [|f rest IH]; intros t; [done|].
  cbn [fold_left last_write]. rewrite IH, overwrite_lookup.
  destruct (last_write cwd output rest q) as [data|].
  - case_decide; [apply with_data_twice|done].
  - by case_decide.
Qed.

Lemma last_write_cons_None f rest q :
  last_write cwd output (f :: rest) q = None →
  ¬ writes cwd output f q ∧ last_write cwd output rest q = None.
Proof.
  cbn. destruct (last_write cwd output rest q); [done|]. by case_decide.
Qed.

(** What no later entry writes stays as it is. *)
Lemma run_effect_keeps files q n : ∀ t t',
  run_effect cwd umask output files t = (Ok None, t') →
  last_write cwd output files q = None →
  t !! q = Some n → t' !! q = Some n.
Proof.
  induction files as [|f rest IH]; intros t t' Hrun Hlast Hq.
  - by injection Hrun as <-.
  - cbn [run_effect] in Hrun.
    destruct (entry_effect cwd umask output f t) as [[[e|]|e] t1] eqn:Hstep;
      [done| |done].
    apply last_write_cons_None in Hlast as [Hnw Hlast].
    eapply IH; [done..|].
    by destruct (entry_effect_keeps _ _ _ _ _ _ _ _ Hstep Hq) as [?|[? _]].
Qed.

(** A successful extraction leaves at every location the data of the
    last entry that writes it. *)
Lemma run_effect_last_write files q data : ∀ t t',
  run_effect cwd umask output files t = (Ok None, t') →
  last_write cwd output files q = Some data →
  ∃ m, t' !! q = Some (FileNode m data).
Proof.
  induction files as [|f rest IH]; intros t t' Hrun Hlast; [done|].
  cbn [run_effect] in Hrun.
  destruct (entry_effect cwd umask output f t) as [[[e|]|e] t1] eqn:Hstep;
    [done| |done].
  cbn [last_write] in Hlast.
  destruct (last_write cwd output rest q) as [data'|] eqn:Hrest.
  - injection Hlast as ->. by eapply IH.
  - case_decide as Hw; [|done]. injection Hlast as <-.
    destruct Hw as [Hfile <-].
    destruct (entry_effect_settles _ _ _ _ _ _ Hstep) as (_ & _ & _ & Hs).
    rewrite Hfile in Hs. destruct (entry_effect_ok _ _ _ _ _ _ Hstep)
      as (_ & _ & _ & Hok).
    rewrite Hfile in Hok. destruct Hok as (_ & _ & t0 & m & _ & Ht1 & _).
    exists m. eapply run_effect_keeps; [done..|].
    rewrite Ht1. apply lookup_insert_eq.
Qed.

(** Extracting again changes nothing. *)
Lemma run_effect_twice files t t1 :
  run_effect cwd umask output files t = (Ok None, t1) →
  run_effect cwd umask output files t1 = (Ok None, t1).
Proof.
  intros Hrun.
  rewrite run_effect_settled by (by eapply run_effect_settles).
  f_equal. apply map_eq. intros q. rewrite rewrites_lookup.
  destruct (last_write cwd output files q) as [data|] eqn:Hlast; [|done].
  destruct (run_effect_last_write _ _ _ _ _ Hrun Hlast) as [m ->]. done.
Qed.
End TwiceMore.

(** C8.  When two extractions of the same archive into the same destination
    succeed one after the other, the second leaves the tree exactly as the
    first left it: every extracted file has the contents the first run gave
    it, the entry's bytes, written over and not appended. *)
Theorem Extract_twice_same_tree files output w w1 w2 :
  Extract (GoodZip files) output w = (Ok None, w1) →
  Extract (GoodZip files) output w1 = (Ok None, w2) →
  tree w2 = tree w1
  ∧ ∀ q data,
      last_write (cwd w) output files q = Some data →
      ∃ m, tree w2 !! q = Some (FileNode m data).
Proof.
  intros H1 H2.
  destruct (Extract_effect files output w) as [Hr1 Ht1].
  destruct (Extract_effect files output w1) as [Hr2 Ht2].
  destruct (Extract_loop_blocks output (List.length files) files 0 w)
    as (_ & _ & _ & _ & _ & _ & Hc & Hu).
  change (Extract_loop output (List.length files) 0 files w)
    with (Extract (GoodZip files) output w) in Hc, Hu.
  rewrite H1 in Hr1, Ht1, Hc, Hu. rewrite H2 in Hr2, Ht2.
  cbn [fst snd] in *. rewrite Hc, Hu in Ht2.
  destruct (run_effect (cwd w) (umask w) output files (tree w))
    as [r t1] eqn:Hrun. cbn [fst snd] in *. subst r t1.
  rewrite (run_effect_twice _ _ _ _ _ _ Hrun) in Ht2. cbn in Ht2.
  split; [done|]. intros q data Hlast. rewrite Ht2.
  by eapply run_effect_last_write.
Qed.

Lemma Extract_twice_same_tree_witness :
  tree (Extract Runs.assets "/tmp/out"
          (Extract Runs.assets "/tmp/out" Runs.world0).2).2
  = tree (Extract Runs.assets "/tmp/out" Runs.world0).2.
Proof.
  refine (proj1 (Extract_twice_same_tree
                   [Runs.entry "assets/" Runs.dirmode "";
                    Runs.entry "assets/readme.txt" 420 "hello"]
                   "/tmp/out" Runs.world0
                   (Extract Runs.assets "/tmp/out" Runs.world0).2
                   (Extract Runs.assets "/tmp/out"
                      (Extract Runs.assets "/tmp/out" Runs.world0).2).2
                   _ _));
    vm_compute; reflexivity.
Defined.

(** ** Staying below the destination *)

Section Below.
Variables (cwd : list string) (umask : N) (output : string).
Hypothesis output_named : output ≠ "".
Implicit Types t : gmap (list string) Node.
Implicit Types p q d : list string.

Let dest := resolve cwd output.

Lemma suffix_comparable p q d :
  q `suffix_of` p → d `suffix_of` p → q `suffix_of` d ∨ d `suffix_of` q.
Proof.
  induction p as [|x p IH]; intros Hq Hd.
  - apply suffix_nil_inv in Hq as ->. left. apply suffix_nil.
  - apply suffix_cons_split in Hq as [->|Hq]; [by right|].
    apply suffix_cons_split in Hd as [->|Hd]; [left; by apply suffix_cons_r|].
    by apply IH.
Qed.

(** A name without [..] is joined to a location at or below the
    destination. *)
Lemma target_below f :
  Filepath.dotdot ∉ Strings.Split (Name f) Strings.slash →
  target cwd output f
  = fold_left walk_step (Strings.Split (Name f) Strings.slash) dest
  ∧ dest `suffix_of` target cwd output f.
Proof using output_named.
  intros Hnd. unfold target. rewrite resolve_Join by done.
  split; [done|]. by apply walk_descends.
Qed.

(** The directory made for a file is on one line with the destination. *)
Lemma target_dir_comparable f :
  dest `suffix_of` target cwd output f →
  dest `suffix_of` target_dir cwd output f
  ∨ target_dir cwd output f `suffix_of` dest.
Proof.
  unfold target, target_dir. intros Hbelow.
  destruct (resolve_Dir cwd (Filepath.Join [output; Name f])) as [l Hl].
  rewrite Hl in Hbelow. revert Hbelow. unfold walk_step.
  repeat case_decide; auto.
  - destruct (resolve cwd (Filepath.Dir _)) as [|x r]; cbn [tail].
    + intros _. right. apply suffix_nil.
    + intros H'. left. by apply suffix_cons_r.
  - intros H'. apply suffix_cons_split in H' as [->|H']; [|by left].
    right. apply suffix_cons_r. done.
Qed.

(** What is new after [MkdirAll] on a location on one line with the
    destination is below the destination or a directory above it. *)
Lemma MkdirAll_frame mode p t q :
  dest `suffix_of` p ∨ p `suffix_of` dest →
  ¬ dest `suffix_of` q →
  (Tree.MkdirAll p mode t).2 !! q = t !! q
  ∨ (t !! q = None ∧ q `suffix_of` dest
     ∧ ∃ m, (Tree.MkdirAll p mode t).2 !! q = Some (DirNode m)).
Proof.
  intros Hline Hout.
  destruct (MkdirAll_spec mode t p) as (Hsub & Hnew & _).
  destruct (t !! q) as [n|] eqn:Hq.
  - left. by eapply lookup_weaken.
  - destruct ((Tree.MkdirAll p mode t).2 !! q) as [n|] eqn:Hq'; [|by left].
    right. destruct (Hnew _ _ Hq Hq') as (-> & Hsuf & _).
    split; [done|]. split; [|by eexists].
    destruct Hline as [Hd|Hd]; [|by etrans].
    by destruct (suffix_comparable _ _ _ Hsuf Hd).
Qed.

Lemma tree_call_frame f op path t q :
  ((f (resolve cwd path) t).2 !! q = t !! q
   ∨ (t !! q = None ∧ q `suffix_of` dest
      ∧ ∃ m, (f (resolve cwd path) t).2 !! q = Some (DirNode m))) →
  (tree_call f op path cwd t).2 !! q = t !! q
  ∨ (t !! q = None ∧ q `suffix_of` dest
     ∧ ∃ m, (tree_call f op path cwd t).2 !! q = Some (DirNode m)).
Proof.
  intros Hf. unfold tree_call. case_decide; [by left|].
  by destruct (f (resolve cwd path) t).
Qed.

Lemma OpenTrunc_other p mode t q :
  q ≠ p → (Tree.OpenTrunc p mode t).2 !! q = t !! q.
Proof.
  intros Hne. unfold Tree.OpenTrunc.
  destruct (Tree.node_at t p) as [[m|m d]|]; cbn [snd];
    rewrite ?lookup_insert_ne; try done.
  destruct (Tree.node_at t (tail p)) as [[m|m d]|]; cbn [snd];
    by rewrite ?lookup_insert_ne.
Qed.

Lemma Write_other p data t q : q ≠ p → Tree.Write p data t !! q = t !! q.
Proof.
  intros Hne. unfold Tree.Write.
  destruct (t !! p) as [[m|m d]|]; by rewrite ?lookup_insert_ne.
Qed.

(** One entry: outside the destination nothing changes, but that a
    missing directory above the destination may be made. *)
Lemma entry_effect_frame f t q :
  Filepath.dotdot ∉ Strings.Split (Name f) Strings.slash →
  ¬ dest `suffix_of` q →
  (entry_effect cwd umask output f t).2 !! q = t !! q
  ∨ (t !! q = None ∧ q `suffix_of` dest
     ∧ ∃ m, (entry_effect cwd umask output f t).2 !! q = Some (DirNode m)).
Proof using output_named.
  intros Hnd Hout. destruct (target_below f Hnd) as [_ Hbelow].
  pose proof (target_dir_comparable f Hbelow) as Hline.
  assert (Hq : q ≠ target cwd output f) by (by intros ->).
  unfold entry_effect. destruct (OpenErr f); [by left|]. cbn [snd].
  set (mode := FileMode.created umask (Mode f)).
  destruct (FileMode.IsDir (Mode f)).
  - apply tree_call_frame. apply MkdirAll_frame; [by left|done].
  - pose proof (tree_call_frame (λ p, Tree.MkdirAll p mode) "mkdir"
                  (Filepath.Dir (Filepath.Join [output; Name f])) t q
                  (MkdirAll_frame mode _ t q Hline Hout)) as Hmk.
    destruct (tree_call _ "mkdir" _ cwd t) as [[e|] t1]; [done|].
    cbn [snd] in Hmk.
    assert (Hopen : ∀ r t2,
              tree_call (λ p, Tree.OpenTrunc p mode) "open"
                        (Filepath.Join [output; Name f]) cwd t1 = (r, t2) →
              t2 !! q = t1 !! q).
    { unfold tree_call. intros r t2. case_decide; [by intros [= _ <-]|].
      pose proof (OpenTrunc_other (target cwd output f) mode t1 q Hq) as Ho.
      unfold target in Ho.
      destruct (Tree.OpenTrunc _ mode t1) as [e t2']. by intros [= _ <-]. }
    destruct (tree_call _ "open" _ cwd t1) as [[e|] t2] eqn:Hcall;
      cbn [snd]; specialize (Hopen _ _ eq_refl).
    + by rewrite Hopen.
    + fold (target cwd output f). rewrite Write_other, Hopen; done.
Qed.

(** The whole archive. *)
Lemma run_effect_frame files q : ∀ t,
  (∀ f, f ∈ files →
        Filepath.dotdot ∉ Strings.Split (Name f) Strings.slash) →
  ¬ dest `suffix_of` q →
  (run_effect cwd umask output files t).2 !! q = t !! q
  ∨ (t !! q = None ∧ q `suffix_of` dest
     ∧ ∃ m, (run_effect cwd umask output files t).2 !! q = Some (DirNode m)).
Proof using output_named.
  induction files as [|f rest IH]; intros t Hnd Hout; [by left|].
  cbn [run_effect].
  pose proof (entry_effect_frame f t q (Hnd f ltac:(left)) Hout) as Hstep.
  destruct (entry_effect cwd umask output f t) as [[[e|]|e] t1];
    cbn [snd] in *; [done| |done].
  destruct (IH t1 (λ g Hg, Hnd g ltac:(by right)) Hout)
    as [Heq|(Hn & Hsuf & m & Hm)].
  - rewrite Heq. exact Hstep.
  - destruct Hstep as [Heq|(_ & _ & m' & Hm')]; [|congruence].
    right. rewrite <- Heq. eauto.
Qed.
End Below.




(** * Further properties of the program *)

(** ** Splitting at the last separator *)

Section LastElement.
Import Strings.
Variable c : ascii.

Lemma Split_free s : Forall (λ x, Contains x c = false) (Split s c).
Proof.
  induction s as [|a s IH]; cbn; [by constructor|].
  destruct (Ascii.eqb a c) eqn:Ha; [by constructor|].
  destruct (Split s c) as [|x xs];
    [constructor; [cbn; by rewrite Ha|done]|].
  apply Forall_cons in IH as [Hx Hxs]. constructor; [|done].
  cbn. by rewrite Ha.
Qed.

Lemma Split_one s x : Split s c = [x] → s = x ∧ Contains s c = false.
Proof.
  revert x. induction s as [|a s IH]; intros x; cbn.
  - by intros [= <-].
  - pose proof (Split_nonempty s c) as Hne.
    destruct (Ascii.eqb a c); [intros [= _ ?]; done|].
    destruct (Split s c) as [|y ys] eqn:Hs; [done|].
    intros [= <- ->]. destruct (IH y eq_refl) as [-> ->]. done.
Qed.

(** [strings.Join(strings.Split(s, sep), sep)] is [s]. *)
Lemma JoinWith_Split s : JoinWith (Split s c) c = s.
Proof.
  induction s as [|a s IH]; [done|]. cbn [Split].
  pose proof (Split_nonempty s c) as Hne.
  destruct (Ascii.eqb a c) eqn:Ha.
  - apply Ascii.eqb_eq in Ha as ->.
    destruct (Split s c) as [|x xs]; [done|].
    change (JoinWith ("" :: x :: xs) c)
      with ("" +:+ String c (JoinWith (x :: xs) c)).
    by rewrite IH.
  - destruct (Split s c) as [|x xs]; [done|].
    destruct xs as [|y ys]; [cbn in *; by rewrite IH|].
    change (JoinWith (String a x :: y :: ys) c)
      with (String a (x +:+ String c (JoinWith (y :: ys) c))).
    change (JoinWith (x :: y :: ys) c)
      with (x +:+ String c (JoinWith (y :: ys) c)) in IH.
    by rewrite IH.
Qed.

(** The index of the last separator and the elements of the split. *)
Lemma LastIndex_Split s :
  ((LastIndex s c = -1)%Z ∧ Split s c = [s])
  ∨ ((0 <= LastIndex s c)%Z ∧ ∃ x y ys, Split s c = x :: y :: ys).
Proof.
  induction s as [|a s IH]; [by left|]. cbn [LastIndex Split].
  destruct IH as [[Hi Hs]|[Hi (x & y & ys & Hs)]].
  - rewrite Hi, Hs. cbn. destruct (Ascii.eqb a c).
    + right. split; [done|]. by exists "", s, [].
    + by left.
  - destruct (0 <=? LastIndex s c)%Z eqn:Hle; [|lia]. rewrite Hs.
    right. split; [lia|]. destruct (Ascii.eqb a c); eauto.
Qed.

Lemma LastIndex_Contains s : Contains s c = (0 <=? LastIndex s c)%Z.
Proof.
  induction s as [|a s IH]; [done|]. cbn. rewrite IH.
  destruct (0 <=? LastIndex s c)%Z eqn:Hle.
  - rewrite orb_true_r. symmetry. apply Z.leb_le. apply Z.leb_le in Hle. lia.
  - rewrite orb_false_r. by destruct (Ascii.eqb a c).
Qed.

(** Slicing behind the last separator gives the last element. *)
Lemma slice_after_LastIndex s :
  slice_from (Z.to_nat (LastIndex s c + 1)) s = List.last (Split s c) "".
Proof.
  induction s as [|a s IH]; [done|].
  destruct (LastIndex_Split s) as [[Hi Hs]|[Hi (x & y & ys & Hs)]].
  - cbn [LastIndex Split]. rewrite Hi, Hs. cbn.
    by destruct (Ascii.eqb a c).
  - cbn [LastIndex Split].
    destruct (0 <=? LastIndex s c)%Z eqn:Hle; [|lia].
    replace (Z.to_nat (LastIndex s c + 1 + 1))
      with (S (Z.to_nat (LastIndex s c + 1))) by lia.
    cbn [slice_from]. rewrite IH, Hs. by destruct (Ascii.eqb a c).
Qed.

Lemma Contains_app s t :
  Contains (s +:+ t) c = Contains s c || Contains t c.
Proof.
  induction s as [|a s IH]; [done|].
  rewrite append_cons. cbn. by rewrite IH, orb_assoc.
Qed.

Lemma last_cons_more {A} (x d : A) l :
  l ≠ [] → List.last (x :: l) d = List.last l d.
Proof. by destruct l. Qed.

(** A string is what comes before its last element, which is empty or
    ends with the separator, and that element. *)
Lemma last_element_decomp s :
  ∃ pre, s = pre +:+ List.last (Split s c) ""
         ∧ ((pre = "" ∧ Split s c = [s]) ∨ ∃ x, pre = x +:+ String c "").
Proof.
  induction s as [|a s IH]; [exists ""; split; [done|by left]|].
  destruct IH as (pre & Hs & Hpre). cbn [Split].
  pose proof (Split_nonempty s c) as Hne.
  destruct (Ascii.eqb a c) eqn:Ha.
  - apply Ascii.eqb_eq in Ha as ->. exists (String c pre). split.
    + by rewrite append_cons, last_cons_more, <- Hs.
    + right. destruct Hpre as [[-> _]|[x ->]]; [by exists ""|].
      by exists (String c x).
  - destruct Hpre as [[-> Hone]|[x ->]].
    + rewrite Hone. exists "". split; [done|by left].
    + exists (String a (x +:+ String c "")). split.
      * rewrite append_cons.
        destruct (Split s c) as [|y [|z zs]] eqn:Hsp;
          [done| |rewrite last_cons_more in Hs by done;
                   by rewrite last_cons_more, <- Hs].
        exfalso. destruct (Split_one _ _ Hsp) as [_ Hno].
        rewrite Hs, !Contains_app in Hno. cbn in Hno.
        rewrite Ascii.eqb_refl, orb_true_r in Hno. done.
      * right. by exists (String a x).
Qed.
End LastElement.

(** X1.  [GetUsername] answers the account name behind its last backslash:
    whenever the lookup gives a name, the result has no backslash in it and
    the name is the result behind a prefix that is empty or ends with a
    backslash. *)
Theorem GetUsername_strips_the_host env name :
  currentUser env = inr name →
  ∃ u pre,
    GetUsername env = Ok u
    ∧ name = pre +:+ u
    ∧ Strings.Contains u Strings.backslash = false
    ∧ (pre = "" ∨ ∃ x, pre = x +:+ "\").
Proof.
  intros Hname. unfold GetUsername. rewrite Hname.
  destruct (last_element_decomp Strings.backslash name) as (pre & Hdec & Hpre).
  pose proof (Split_free Strings.backslash name) as Hfree.
  destruct (LastIndex_Split Strings.backslash name)
    as [[Hi Hs]|[Hi (x & y & ys & Hs)]].
  - rewrite LastIndex_Contains, Hi. cbn.
    exists name, "". split_and!; [done..| |by left].
    rewrite Hs in Hfree. by apply Forall_cons in Hfree as [? _].
  - rewrite LastIndex_Contains.
    destruct (0 <=? Strings.LastIndex name Strings.backslash)%Z eqn:Hle; [|lia].
    rewrite slice_after_LastIndex.
    exists (List.last (Strings.Split name Strings.backslash) ""), pre.
    split_and!; [done..| |].
    + assert (Hin : List.last (Strings.Split name Strings.backslash) ""
                    ∈ Strings.Split name Strings.backslash).
      { rewrite Hs. apply list_elem_of_In.
        change (List.last (x :: y :: ys) "") with (List.last (y :: ys) "").
        right. clear. revert y. induction ys as [|z ys IH]; intros y.
        - by left.
        - right. apply IH. }
      eapply (proj1 (Forall_forall _ _) Hfree). exact Hin.
    + destruct Hpre as [[-> Hone]|[z ->]]; [congruence|]. right. by exists z.
Qed.

Lemma GetUsername_strips_the_host_witness :
  ∃ u pre,
    GetUsername Runs.alice_windows = Ok u
    ∧ "HOST\alice" = pre +:+ u
    ∧ Strings.Contains u Strings.backslash = false
    ∧ (pre = "" ∨ ∃ x, pre = x +:+ "\").
Proof. exact (GetUsername_strips_the_host Runs.alice_windows _ eq_refl). Defined.

(** ** The last element of a path *)

Lemma upto_last_slash_decomp s :
  s = Filepath.upto_last_slash s
      +:+ List.last (Strings.Split s Strings.slash) ""
  ∧ (Filepath.upto_last_slash s = "" ↔ Strings.Split s Strings.slash = [s]).
Proof.
  induction s as [|a s [IH Hiff]]; [done|].
  cbn [Filepath.upto_last_slash Strings.Split].
  pose proof (Split_nonempty s Strings.slash) as Hne.
  destruct (Ascii.eqb a Strings.slash) eqn:Ha; cbn [orb].
  - split.
    + by rewrite append_cons, last_cons_more, <- IH.
    + split; [done|]. destruct (Strings.Split s Strings.slash); done.
  - destruct (String.eqb (Filepath.upto_last_slash s) "") eqn:Hr; cbn [negb].
    + apply String.eqb_eq in Hr. rewrite (proj1 Hiff Hr). done.
    + apply String.eqb_neq in Hr.
      destruct (Strings.Split s Strings.slash) as [|x [|y ys]] eqn:Hs; [done| |].
      * destruct (Split_one _ _ _ Hs) as [-> _]. exfalso.
        apply Hr. by apply Hiff.
      * split; [|done]. rewrite append_cons.
        rewrite last_cons_more in IH by done.
        by rewrite last_cons_more, <- IH.
Qed.

(** X2.  [GetFileFromPath] answers the last element of the path: it has
    no separator in it, and the path is that element behind the text up to
    its last separator, which is the text [filepath.Dir] cleans. *)
Theorem GetFileFromPath_is_the_last_element path :
  GetFileFromPath path = List.last (Strings.Split path Strings.slash) ""
  ∧ Strings.Contains (GetFileFromPath path) Strings.slash = false
  ∧ path = Filepath.upto_last_slash path +:+ GetFileFromPath path
  ∧ Filepath.Dir path = Filepath.Clean (Filepath.upto_last_slash path).
Proof.
  assert (Hlast : GetFileFromPath path
                  = List.last (Strings.Split path Strings.slash) "").
  { unfold GetFileFromPath.
    destruct (LastIndex_Split Strings.slash path)
      as [[Hi Hs]|[Hi (x & y & ys & Hs)]].
    - rewrite Hi, Hs. done.
    - destruct (Strings.LastIndex path Strings.slash + 1 =? 0)%Z eqn:Hz; [lia|].
      apply slice_after_LastIndex. }
  rewrite Hlast. split_and!; [done| |apply upto_last_slash_decomp|done].
  pose proof (Split_free Strings.slash path) as Hfree.
  pose proof (Split_nonempty path Strings.slash) as Hne.
  destruct (exists_last Hne) as (init & l & Hl). rewrite Hl in *.
  rewrite last_last. apply Forall_app in Hfree as [_ Hfree].
  by apply Forall_cons in Hfree as [? _].
Qed.

(** ** The resolver and a failing user lookup *)

(** X3.  The resolver panics exactly where it needs the user name and the
    lookup has failed: the install and temporary paths everywhere but on
    darwin, the shortcut path on linux and windows only. *)
Theorem resolver_panics_without_user env e :
  (GetInstallPath env = Panic e
   ↔ GOOS env ≠ "darwin" ∧ currentUser env = inl e)
  ∧ (GetTempPath env = Panic e
     ↔ GOOS env ≠ "darwin" ∧ currentUser env = inl e)
  ∧ (GetShortcutLocation env = Panic e
     ↔ (GOOS env = "linux" ∨ GOOS env = "windows") ∧ currentUser env = inl e).
Proof.
  assert (Hu : GetUsername env = Panic e ↔ currentUser env = inl e).
  { unfold GetUsername. destruct (currentUser env) as [e'|name].
    - split; by intros [= ->].
    - by destruct (Strings.Contains name Strings.backslash). }
  assert (Hbind : ∀ k : string → string,
            match GetUsername env with
            | Ok u => Ok (k u)
            | Panic e' => Panic e'
            end = Panic e ↔ currentUser env = inl e).
  { intros k. rewrite <- Hu. by destruct (GetUsername env). }
  unfold GetInstallPath, GetTempPath, GetShortcutLocation. split_and!.
  - destruct (decide (GOOS env = "windows")) as [Hw|Hw];
      [|destruct (decide (GOOS env = "linux")) as [Hl|Hl];
        [|destruct (decide (GOOS env = "darwin")) as [Hd|Hd]]];
      rewrite ?Hbind; try (split; [intros ?; split; [congruence|done]|by intros [_ ?]]).
    split; [done|]. by intros [? _].
  - destruct (decide (GOOS env = "darwin")) as [Hd|Hd].
    + split; [done|]. by intros [? _].
    + rewrite Hbind. split; [done|]. by intros [_ ?].
  - destruct (decide (GOOS env = "linux")) as [Hl|Hl];
      [|destruct (decide (GOOS env = "windows")) as [Hw|Hw]];
      rewrite ?Hbind.
    + split; [intros ?; split; [by left|done]|by intros [_ ?]].
    + split; [intros ?; split; [by right|done]|by intros [_ ?]].
    + split; [done|]. intros [[?|?] _]; done.
Qed.

(** ** Where the shortcut points *)

Lemma resolve_child cwd p name :
  ends_slash p → kept name → name ≠ Filepath.dotdot →
  resolve cwd (p +:+ name) = name :: resolve cwd p.
Proof.
  intros [x ->] Hk Hnd. unfold resolve, Filepath.IsAbs.
  rewrite (HasPrefixChar_app (x +:+ "/") name)
    by (intros H; by apply append_eq_nil in H as [_ ?]).
  rewrite append_assoc.
  change ("/" +:+ name) with (String Strings.slash name).
  change (x +:+ "/") with (x +:+ String Strings.slash "").
  rewrite !Split_app, !walk_fold_app.
  rewrite (Split_single name) by apply Hk. cbn [fold_left Strings.Split].
  rewrite (walk_step_kept _ _ Hk Hnd). done.
Qed.

Lemma target_child cwd p file :
  p ≠ "" → kept (Name file) → Name file ≠ Filepath.dotdot →
  target cwd p file = Name file :: resolve cwd p.
Proof.
  intros Hp Hk Hnd. unfold target. rewrite resolve_Join by done.
  rewrite (Split_single (Name file)) by apply Hk. cbn [fold_left].
  by apply walk_step_kept.
Qed.

Lemma GetExecutableName_kept env :
  kept (GetExecutableName env) ∧ GetExecutableName env ≠ Filepath.dotdot.
Proof. unfold GetExecutableName. by case_decide. Qed.

(** X4.  What the shortcut points to is where the archive's entry of that
    name is extracted: the install path ends with a separator, so the
    executable the windows link targets and the file the desktop entry
    runs lie directly in the install directory, at the targets [Extract]
    gives the entries named after them. *)
Theorem shortcut_points_at_the_extracted_file env cwd p :
  GetInstallPath env = Ok p →
  resolve cwd (p +:+ GetExecutableName env)
  = GetExecutableName env :: resolve cwd p
  ∧ resolve cwd (p +:+ appName) = appName :: resolve cwd p
  ∧ ∀ file,
      Name file = GetExecutableName env ∨ Name file = appName →
      target cwd p file = resolve cwd (p +:+ Name file).
Proof.
  intros Hp. pose proof (GetInstallPath_ends_slash _ _ Hp) as Hsl.
  pose proof (ends_slash_nonempty _ Hsl) as Hne.
  destruct (GetExecutableName_kept env) as [Hk Hnd].
  assert (Hka : kept appName ∧ appName ≠ Filepath.dotdot) by done.
  split_and!.
  - by apply resolve_child.
  - apply resolve_child; [done|apply Hka..].
  - intros file [Hn|Hn]; rewrite target_child, resolve_child;
      rewrite ?Hn; try done; apply Hka.
Qed.

Lemma shortcut_points_at_the_extracted_file_witness :
  resolve [] ("/home/alice/.local/share/OpenRQ/" +:+ "OpenRQ")
  = ["OpenRQ"; "OpenRQ"; "share"; ".local"; "alice"; "home"]
  ∧ target [] "/home/alice/.local/share/OpenRQ/" (Runs.entry "OpenRQ" 493 "")
    = ["OpenRQ"; "OpenRQ"; "share"; ".local"; "alice"; "home"].
Proof.
  destruct (shortcut_points_at_the_extracted_file Runs.alice_linux []
              "/home/alice/.local/share/OpenRQ/" eq_refl) as (_ & H2 & H3).
  split; [exact H2|]. rewrite (H3 (Runs.entry "OpenRQ" 493 "")) by (by right).
  exact H2.
Defined.

(** ** Opening and closing the entries *)

Section Appends.
Context {A B : Type} (P : Event → bool).

Lemma appends_ret (a : A) : appends P (ret a).
Proof. intros w. exists []. by rewrite app_nil_r. Qed.

Lemma appends_emit ev : P ev = true → appends P (emit ev).
Proof. intros H w. exists [ev]. split; [done|]. by constructor. Qed.

Lemma appends_bind (m : M A) (k : A → M B) :
  appends P m → (∀ a, appends P (k a)) → appends P (bind m k).
Proof.
  intros Hm Hk w. unfold bind. destruct (Hm w) as (e1 & H1 & F1).
  destruct (m w) as [[a|e] w1]; cbn in *.
  - destruct (Hk a w1) as (e2 & H2 & F2).
    exists (e1 ++ e2)%list. rewrite H2, H1, app_assoc.
    split; [done|]. by apply Forall_app.
  - by exists e1.
Qed.

Lemma appends_defer (cleanup : M unit) (body : M A) :
  appends P cleanup → appends P body → appends P (defer cleanup body).
Proof.
  intros Hc Hb w. unfold defer. destruct (Hb w) as (e1 & H1 & F1).
  destruct (body w) as [r w1]; cbn in *.
  destruct (Hc w1) as (e2 & H2 & F2).
  destruct (cleanup w1) as [[[]|e] w2]; cbn in *;
    (exists (e1 ++ e2)%list; rewrite H2, H1, app_assoc;
     split; [done|]; by apply Forall_app).
Qed.
End Appends.

Ltac appends_op f :=
  let w := fresh "w" in
  intros w; run_monad f;
  repeat (first [ case_decide | case_inner ];
          cbn [fst snd cwd umask tree log]);
  (eexists [_]; split; [reflexivity|]; by repeat constructor).

Lemma appends_os_MkdirAll path perm : appends is_fs (os_MkdirAll path perm).
Proof. appends_op os_MkdirAll. Qed.

Lemma appends_os_OpenFile path perm : appends is_fs (os_OpenFile path perm).
Proof. appends_op os_OpenFile. Qed.

Lemma appends_io_Copy outFile readCloser :
  appends is_fs (io_Copy outFile readCloser).
Proof. appends_op io_Copy. Qed.

Lemma appends_close_or_panic P f : appends P (close_or_panic f).
Proof.
  intros w. exists []. rewrite app_nil_r. split; [|done].
  by run_monad close_or_panic.
Qed.

(** The body of [extractAndWrite], between opening and closing. *)
Lemma extractAndWrite_body_fs output file (readCloser : zipFile) :
  appends is_fs
    (let path := Filepath.Join [output; Name file] in
     if FileMode.IsDir (Mode file) then
       err <- os_MkdirAll path (Mode file) ;;
       match err with
       | Some e => ret (Some e)
       | None => ret None
       end
     else
       err <- os_MkdirAll (Filepath.Dir path) (Mode file) ;;
       match err with
       | Some e => ret (Some e)
       | None =>
           r <- os_OpenFile path (Mode file) ;;
           match r with
           | inl e => ret (Some e)
           | inr outFile =>
               defer (close_or_panic outFile)
                 (err <- io_Copy outFile readCloser ;;
                  match err with
                  | Some e => ret (Some e)
                  | None => ret None
                  end)
           end
       end).
Proof.
  cbv zeta.
  repeat first
    [ apply appends_ret | apply appends_os_MkdirAll
    | apply appends_os_OpenFile | apply appends_io_Copy
    | apply appends_close_or_panic
    | apply appends_bind; [|intros ?] | apply appends_defer
    | match goal with
      | |- appends _ (match ?x with _ => _ end) => destruct x
      | |- appends _ (if ?x then _ else _) => destruct x
      end ].
Qed.

Lemma bind_emit_ret {A B} ev (a : A) (k : A → M B) w :
  (x <- (_ <- emit ev ;; ret a) ;; k x) w
  = k a (mkWorld (cwd w) (umask w) (tree w) (log w ++ [ev])).
Proof. reflexivity. Qed.

Lemma defer_zip_Close_log {A} (readCloser : zipFile) (body : M A) w :
  log (defer (err <- zip_Close readCloser ;; panic_on err) body w).2
  = (log (body w).2 ++ [EvZipClose (Name readCloser)])%list.
Proof.
  run_monad zip_Close. destruct (body w) as [r w1].
  by destruct (CloseErr readCloser).
Qed.

(** What one entry logs. *)
Lemma extractAndWrite_trace output file w :
  ∃ block,
    log (extractAndWrite output file w).2 = (log w ++ block)%list
    ∧ entry_trace file block.
Proof.
  unfold entry_trace, extractAndWrite, zip_Open. rewrite bind_emit_ret.
  destruct (OpenErr file) as [msg|].
  - exists [EvZipOpen (Name file)]. done.
  - cbv beta iota. rewrite defer_zip_Close_log.
    destruct (extractAndWrite_body_fs output file file
                (mkWorld (cwd w) (umask w) (tree w)
                         (log w ++ [EvZipOpen (Name file)])))
      as (mid & Hl & Hmid).
    exists (EvZipOpen (Name file) :: mid ++ [EvZipClose (Name file)])%list.
    split; [|by exists mid].
    etrans;
      [apply (f_equal (λ l, (l ++ [EvZipClose (Name file)])%list)); exact Hl|].
    cbn [log]. by rewrite <- !app_assoc.
Qed.

Lemma fs_events_are_silent mid :
  Forall (λ ev, is_fs ev = true) mid →
  opened mid = [] ∧ closed mid = [] ∧ reported mid = [].
Proof.
  induction 1 as [|ev mid Hev _ (IH1 & IH2 & IH3)]; [done|].
  unfold opened, closed, reported in *. cbn. rewrite IH1, IH2, IH3.
  by destruct ev.
Qed.

Lemma entry_trace_marks file block :
  entry_trace file block →
  opened block = [Name file]
  ∧ closed block = (if OpenErr file is Some _ then [] else [Name file])
  ∧ reported block = [].
Proof.
  unfold entry_trace. destruct (OpenErr file) as [msg|].
  - by intros ->.
  - intros (mid & -> & Hmid).
    destruct (fs_events_are_silent mid Hmid) as (Ho & Hc & Hr).
    unfold opened, closed, reported in *. cbn.
    rewrite !omap_app, Ho, Hc, Hr. done.
Qed.

(** X5.  The reader of an archive entry is closed once on every path: when
    [file.Open()] fails nothing else is logged, and when it succeeds the
    entry's log is the opening, calls on the file tree only, and last the
    closing, whether the entry was extracted or an error is returned. *)
Theorem extractAndWrite_closes_the_entry output file w :
  ∃ block,
    log (extractAndWrite output file w).2 = (log w ++ block)%list
    ∧ entry_trace file block
    ∧ opened block = [Name file]
    ∧ closed block = (if OpenErr file is Some _ then [] else [Name file]).
Proof.
  destruct (extractAndWrite_trace output file w) as (block & Hl & Ht).
  destruct (entry_trace_marks _ _ Ht) as (Ho & Hc & _).
  by exists block.
Qed.







(** ** What a successful extraction leaves *)

Lemma last_write_is_Some cwd output files q f :
  f ∈ files → writes cwd output f q →
  is_Some (last_write cwd output files q).
Proof.
  induction files as [|g rest IH]; intros Hin Hw; [by inversion Hin|].
  cbn [last_write]. destruct (last_write cwd output rest q) eqn:Hrest; [done|].
  apply elem_of_cons in Hin as [<-|Hin].
  - by rewrite decide_True.
  - destruct (IH Hin Hw) as [? ?]. done.
Qed.

(** X7.  After [Extract] has returned nil every entry of the archive is in
    place: the target of a directory entry is a directory, and the target
    of a file entry is a regular file that holds the data of the last
    file entry of the archive that goes there. *)
Theorem Extract_leaves_every_entry_in_place files output w w1 :
  Extract (GoodZip files) output w = (Ok None, w1) →
  ∀ f, f ∈ files →
    if FileMode.IsDir (Mode f) then
      Tree.is_dir (tree w1) (target (cwd w) output f)
    else
      ∃ m data,
        last_write (cwd w) output files (target (cwd w) output f) = Some data
        ∧ tree w1 !! target (cwd w) output f = Some (FileNode m data).
Proof.
  intros Hrun f Hin.
  destruct (Extract_effect files output w) as [Hres Htree].
  rewrite Hrun in Hres, Htree. cbn [fst snd] in Hres, Htree.
  destruct (run_effect (cwd w) (umask w) output files (tree w))
    as [r t1] eqn:Heff.
  cbn [fst snd] in Hres, Htree. subst r t1.
  pose proof (run_effect_settles _ _ _ _ _ _ Heff) as Hall.
  pose proof (proj1 (Forall_forall _ _) Hall f Hin) as (_ & _ & _ & Hf).
  destruct (FileMode.IsDir (Mode f)) eqn:Hd; [done|].
  destruct (last_write_is_Some (cwd w) output files _ f Hin (conj Hd eq_refl))
    as [data Hdata].
  destruct (run_effect_last_write _ _ _ _ _ _ _ _ Heff Hdata) as [m Hm].
  by exists m, data.
Qed.

Lemma Extract_leaves_every_entry_in_place_witness :
  Tree.is_dir (tree (Extract Runs.assets "/tmp/out" Runs.world0).2)
              ["assets"; "out"; "tmp"]
  ∧ ∃ m data,
      last_write [] "/tmp/out"
                 [Runs.entry "assets/" Runs.dirmode ""; Runs.readme]
                 ["readme.txt"; "assets"; "out"; "tmp"] = Some data
      ∧ tree (Extract Runs.assets "/tmp/out" Runs.world0).2
          !! ["readme.txt"; "assets"; "out"; "tmp"] = Some (FileNode m data).
Proof.
  assert (Hrun : Extract (GoodZip [Runs.entry "assets/" Runs.dirmode "";
                                   Runs.readme]) "/tmp/out" Runs.world0
                 = (Ok None, (Extract Runs.assets "/tmp/out" Runs.world0).2))
    by (vm_compute; reflexivity).
  split.
  - exact (Extract_leaves_every_entry_in_place _ _ _ _ Hrun
             (Runs.entry "assets/" Runs.dirmode "")
             (list_elem_of_here _ _)).
  - exact (Extract_leaves_every_entry_in_place _ _ _ _ Hrun
             Runs.readme
             (list_elem_of_further _ _ _ (list_elem_of_here _ _))).
Defined.

(** ** Nothing is removed *)

Lemma same_inode_refl n : same_inode n n.
Proof. by destruct n. Qed.

Lemma same_inode_trans n1 n2 n3 :
  same_inode n1 n2 → same_inode n2 n3 → same_inode n1 n3.
Proof. destruct n1, n2, n3; cbn; try done; congruence. Qed.

Section Keeps.
Implicit Types t : gmap (list string) Node.
Implicit Types P : rpath → Prop.

Lemma keeps_refl P t : keeps_inodes P t t.
Proof. intros q n Hq. exists n. split_and!; [done|apply same_inode_refl|by left]. Qed.

Lemma keeps_sub P t t' : t ⊆ t' → keeps_inodes P t t'.
Proof.
  intros Hsub q n Hq. exists n.
  split_and!; [by eapply lookup_weaken|apply same_inode_refl|by left].
Qed.

Lemma keeps_trans P t1 t2 t3 :
  keeps_inodes P t1 t2 → keeps_inodes P t2 t3 → keeps_inodes P t1 t3.
Proof.
  intros H12 H23 q n Hq.
  destruct (H12 q n Hq) as (n2 & Hq2 & Hs2 & Hn2).
  destruct (H23 q n2 Hq2) as (n3 & Hq3 & Hs3 & Hn3).
  exists n3. split_and!; [done|by eapply same_inode_trans|].
  destruct Hn2 as [->|?]; [|by right]. destruct Hn3 as [->|?]; [by left|by right].
Qed.

Lemma keeps_weaken P Q t t' :
  (∀ q, P q → Q q) → keeps_inodes P t t' → keeps_inodes Q t t'.
Proof.
  intros HPQ H q n Hq. destruct (H q n Hq) as (n' & ? & ? & [?|?]);
    exists n'; split_and!; auto.
Qed.

Lemma keeps_MkdirAll_call P mode op path cwd t :
  keeps_inodes P t (tree_call (λ p, Tree.MkdirAll p mode) op path cwd t).2.
Proof.
  unfold tree_call. case_decide; [apply keeps_refl|].
  pose proof (MkdirAll_spec mode t (resolve cwd path)) as (Hsub & _).
  destruct (Tree.MkdirAll (resolve cwd path) mode t) as [e t'].
  by apply keeps_sub.
Qed.

Lemma keeps_replace_file p m d d' t :
  t !! p = Some (FileNode m d) →
  keeps_inodes (λ q, q = p) t (<[p := FileNode m d']> t).
Proof.
  intros Hp q n Hq. destruct (decide (q = p)) as [->|Hne].
  - exists (FileNode m d'). rewrite lookup_insert_eq.
    rewrite Hp in Hq. injection Hq as <-. split_and!; [done|done|by right].
  - exists n. rewrite lookup_insert_ne by done.
    split_and!; [done|apply same_inode_refl|by left].
Qed.

Lemma keeps_OpenTrunc p mode t :
  keeps_inodes (λ q, q = p) t (Tree.OpenTrunc p mode t).2.
Proof.
  unfold Tree.OpenTrunc.
  destruct p as [|x p].
  - cbn. apply keeps_refl.
  - cbn [Tree.node_at tail].
    destruct (t !! (x :: p)) as [[m|m d]|] eqn:Hp; cbn [snd].
    + apply keeps_refl.
    + by eapply keeps_replace_file.
    + destruct (Tree.node_at t p) as [[m|m d]|]; cbn [snd];
        try apply keeps_refl.
      apply keeps_sub. by apply insert_subseteq.
Qed.

Lemma keeps_Write p data t :
  keeps_inodes (λ q, q = p) t (Tree.Write p data t).
Proof.
  unfold Tree.Write. destruct (t !! p) as [[m|m d]|] eqn:Hp;
    try apply keeps_refl.
  by eapply keeps_replace_file.
Qed.

Lemma keeps_entry_effect cwd umask output f t :
  keeps_inodes (writes cwd output f) t (entry_effect cwd umask output f t).2.
Proof.
  unfold entry_effect. destruct (OpenErr f); [apply keeps_refl|].
  cbv zeta. cbn [snd].
  destruct (FileMode.IsDir (Mode f)) eqn:Hd; [apply keeps_MkdirAll_call|].
  pose proof (keeps_MkdirAll_call (writes cwd output f)
                (FileMode.created umask (Mode f)) "mkdir"
                (Filepath.Dir (Filepath.Join [output; Name f])) cwd t) as H1.
  destruct (tree_call _ "mkdir" _ cwd t) as [[e|] t1]; cbn [snd] in *;
    [done|].
  assert (H2 : keeps_inodes (writes cwd output f) t1
                 (tree_call (λ p, Tree.OpenTrunc p
                                    (FileMode.created umask (Mode f)))
                            "open" (Filepath.Join [output; Name f]) cwd t1).2).
  { unfold tree_call. case_decide; [apply keeps_refl|].
    pose proof (keeps_OpenTrunc
                  (resolve cwd (Filepath.Join [output; Name f]))
                  (FileMode.created umask (Mode f)) t1) as Hopen.
    destruct (Tree.OpenTrunc _ _ t1) as [e t2]. cbn [snd] in *.
    eapply keeps_weaken; [|exact Hopen]. intros q ->. by split. }
  destruct (tree_call _ "open" _ cwd t1) as [[e|] t2]; cbn [snd] in *;
    [by eapply keeps_trans|].
  eapply keeps_trans; [exact H1|]. eapply keeps_trans; [exact H2|].
  eapply keeps_weaken; [|apply keeps_Write]. intros q ->. by split.
Qed.

Lemma keeps_run_effect cwd umask output files : ∀ t,
  keeps_inodes (λ q, ∃ f, f ∈ files ∧ writes cwd output f q) t
               (run_effect cwd umask output files t).2.
Proof.
  induction files as [|f rest IH]; intros t; [apply keeps_refl|].
  cbn [run_effect].
  pose proof (keeps_entry_effect cwd umask output f t) as H1.
  assert (H1' : keeps_inodes
                  (λ q, ∃ g, g ∈ f :: rest ∧ writes cwd output g q) t
                  (entry_effect cwd umask output f t).2).
  { eapply keeps_weaken; [|exact H1]. intros q Hq. exists f.
    split; [apply list_elem_of_here|done]. }
  destruct (entry_effect cwd umask output f t) as [[[e|]|e] t1];
    cbn [snd] in *; try done.
  eapply keeps_trans; [exact H1'|].
  eapply keeps_weaken; [|apply IH]. intros q (g & Hg & Hw). exists g.
  split; [by apply list_elem_of_further|done].
Qed.

End Keeps.

Lemma keeps_Extract input output w :
  keeps_inodes
    (λ q, ∃ files f,
        input = GoodZip files ∧ f ∈ files ∧ writes (cwd w) output f q)
    (tree w) (tree (Extract input output w).2).
Proof.
  destruct input as [msg|files].
  - run_monad Extract. apply keeps_refl.
  - destruct (Extract_effect files output w) as [_ ->].
    eapply keeps_weaken; [|apply keeps_run_effect].
    intros q (f & Hf & Hw). by exists files, f.
Qed.

(** X8.  [Extract] removes nothing and changes no inode, whatever it
    returns: every node of the tree is still there afterwards, of the
    same kind and with the same permission bits, and it is the very same
    node, contents included, unless a file entry of the archive goes to
    its path. *)
Theorem Extract_removes_nothing input output w :
  keeps_inodes
    (λ q, ∃ files f,
        input = GoodZip files ∧ f ∈ files ∧ writes (cwd w) output f q)
    (tree w) (tree (Extract input output w).2).
Proof. apply keeps_Extract. Qed.

Lemma Extract_removes_nothing_witness :
  ∃ n',
    tree (Extract (GoodZip [Runs.entry "b" 420 "fresh"]) "/tmp"
            Runs.two_files).2 !! ["a"; "tmp"] = Some n'
    ∧ same_inode (FileNode 420 (bytes_of "new")) n'
    ∧ (n' = FileNode 420 (bytes_of "new")
       ∨ ∃ files f,
           GoodZip [Runs.entry "b" 420 "fresh"] = GoodZip files
           ∧ f ∈ files ∧ writes [] "/tmp" f ["a"; "tmp"]).
Proof.
  refine (Extract_removes_nothing (GoodZip [Runs.entry "b" 420 "fresh"])
            "/tmp" Runs.two_files ["a"; "tmp"]
            (FileNode 420 (bytes_of "new")) _).
  vm_compute. reflexivity.
Defined.

(** ** Copying a file *)

Lemma OpenTrunc_new p mode t md :
  Tree.node_at t p = None →
  Tree.node_at t (tail p) = Some (DirNode md) →
  Tree.OpenTrunc p mode t = (None, <[p := FileNode mode []]> t).
Proof. intros Hp Hd. unfold Tree.OpenTrunc. by rewrite Hp, Hd. Qed.

Lemma node_at_insert_ne p q n t :
  p ≠ q → Tree.node_at (<[p := n]> t) q = Tree.node_at t q.
Proof.
  intros Hne. destruct q; [done|]. cbn. by rewrite lookup_insert_ne.
Qed.

(** X9.  [Copy] onto a path where nothing exists: when the input is a
    regular file and the directory of the output is there, [Copy] returns
    nil, the output is a new file with mode 0666 less the umask that holds
    the data of the input, and nothing else in the tree has changed; it
    opens the input, looks for the output, creates it and copies, in that
    order. *)
Theorem Copy_to_a_fresh_output input output w m data :
  input ≠ "" → output ≠ "" →
  Tree.node_at (tree w) (resolve (cwd w) input) = Some (FileNode m data) →
  Tree.node_at (tree w) (resolve (cwd w) output) = None →
  Tree.is_dir (tree w) (tail (resolve (cwd w) output)) →
  Copy input output w
  = (Ok None,
     mkWorld (cwd w) (umask w)
       (<[resolve (cwd w) output :=
            FileNode (FileMode.created (umask w) 438) data]> (tree w))
       (log w ++ [EvOpen input; EvStat output; EvOpenFile output 438;
                  EvCopy output])).
Proof.
  intros Hi Ho Hin Hout [md Hdir].
  run_monad Copy.
  rewrite decide_False by done. rewrite Hin. cbn.
  rewrite decide_False by done. rewrite Hout. cbn.
  rewrite decide_False by done.
  rewrite (OpenTrunc_new _ _ _ md) by done. cbn.
  rewrite node_at_insert_ne by congruence. rewrite Hin.
  rewrite Write_after_open, <- !app_assoc. reflexivity.
Qed.

Lemma Copy_to_a_fresh_output_witness :
  Copy "/tmp/a" "/tmp/c" Runs.two_files
  = (Ok None,
     mkWorld [] 18
       (<[ ["c"; "tmp"] := FileNode 420 (bytes_of "new") ]>
          (tree Runs.two_files))
       [EvOpen "/tmp/a"; EvStat "/tmp/c"; EvOpenFile "/tmp/c" 438;
        EvCopy "/tmp/c"]).
Proof.
  refine (Copy_to_a_fresh_output "/tmp/a" "/tmp/c" Runs.two_files
            420 (bytes_of "new") _ _ _ _ _);
    try discriminate; try (vm_compute; reflexivity).
  exists 493%N. vm_compute. reflexivity.
Defined.

(** X10.  [Copy] of a directory: a directory can be opened but not read,
    so when nothing exists at the output and its directory is there,
    [Copy] returns the read error after it has created the output, which
    stays behind as an empty file. *)
Theorem Copy_of_a_directory_leaves_an_empty_file input output w md :
  input ≠ "" → output ≠ "" →
  Tree.node_at (tree w) (resolve (cwd w) input) = Some (DirNode md) →
  Tree.node_at (tree w) (resolve (cwd w) output) = None →
  Tree.is_dir (tree w) (tail (resolve (cwd w) output)) →
  Copy input output w
  = (Ok (Some (PathError "read" EISDIR)),
     mkWorld (cwd w) (umask w)
       (<[resolve (cwd w) output :=
            FileNode (FileMode.created (umask w) 438) []]> (tree w))
       (log w ++ [EvOpen input; EvStat output; EvOpenFile output 438;
                  EvCopy output])).
Proof.
  intros Hi Ho Hin Hout [mo Hdir].
  run_monad Copy.
  rewrite decide_False by done. rewrite Hin. cbn.
  rewrite decide_False by done. rewrite Hout. cbn.
  rewrite decide_False by done.
  rewrite (OpenTrunc_new _ _ _ mo) by done. cbn.
  rewrite node_at_insert_ne by congruence. rewrite Hin.
  rewrite <- !app_assoc. reflexivity.
Qed.

Lemma Copy_of_a_directory_leaves_an_empty_file_witness :
  Copy "/tmp" "/tmp/c" Runs.two_files
  = (Ok (Some (PathError "read" EISDIR)),
     mkWorld [] 18
       (<[ ["c"; "tmp"] := FileNode 420 [] ]> (tree Runs.two_files))
       [EvOpen "/tmp"; EvStat "/tmp/c"; EvOpenFile "/tmp/c" 438;
        EvCopy "/tmp/c"]).
Proof.
  refine (Copy_of_a_directory_leaves_an_empty_file "/tmp" "/tmp/c"
            Runs.two_files 493 _ _ _ _ _);
    try discriminate; try (vm_compute; reflexivity).
  exists 493%N. vm_compute. reflexivity.
Defined.

Lemma Copy_tree input output w :
  tree (Copy input output w).2 = tree w
  ∨ (is_Some (Tree.node_at (tree w) (resolve (cwd w) input))
     ∧ Tree.node_at (tree w) (resolve (cwd w) output) = None
     ∧ ∃ n, tree (Copy input output w).2
            = <[resolve (cwd w) output := n]> (tree w)).
Proof.
  destruct (decide (input = "")) as [Hi|Hi];
    [left; rewrite Copy_unopened by auto; done|].
  destruct (Tree.node_at (tree w) (resolve (cwd w) input)) as [n|] eqn:Hin;
    [|left; rewrite Copy_unopened by auto; done].
  destruct (decide (output = "")) as [->|Ho].
  { left. run_monad Copy. rewrite decide_False by done. rewrite Hin. cbn.
    reflexivity. }
  destruct (Tree.node_at (tree w) (resolve (cwd w) output)) as [n'|] eqn:Hout;
    [left; rewrite (Copy_output_exists _ _ _ n n') by done; done|].
  run_monad Copy.
  rewrite decide_False by done. rewrite Hin. cbn.
  rewrite decide_False by done. rewrite Hout. cbn.
  rewrite decide_False by done.
  unfold Tree.OpenTrunc. rewrite Hout.
  destruct (Tree.node_at (tree w) (tail (resolve (cwd w) output)))
    as [[md|mf df]|]; cbn; [|by left..].
  rewrite node_at_insert_ne by congruence. rewrite Hin.
  right. split_and!; [done..|].
  destruct n as [mi|mi di]; cbn.
  - by eexists.
  - rewrite Write_after_open. by eexists.
Qed.

(** X11.  [Copy] changes nothing but the output: whatever it returns,
    every other path of the tree holds what it held, and so does the
    path of the input. *)
Theorem Copy_changes_only_the_output input output w :
  (∀ q, q ≠ resolve (cwd w) output →
        tree (Copy input output w).2 !! q = tree w !! q)
  ∧ Tree.node_at (tree (Copy input output w).2) (resolve (cwd w) input)
    = Tree.node_at (tree w) (resolve (cwd w) input).
Proof.
  destruct (Copy_tree input output w) as [->|(Hin & Hout & n & ->)];
    [done|].
  split.
  - intros q Hq. by rewrite lookup_insert_ne.
  - apply node_at_insert_ne. intros Heq. rewrite Heq in Hout.
    rewrite Hout in Hin. by destruct Hin.
Qed.

(** ** What an uninstall removes *)

Lemma resolve_trailing_slash cwd x :
  x ≠ "" → resolve cwd (x +:+ "/") = resolve cwd x.
Proof.
  intros Hx. unfold resolve, Filepath.IsAbs.
  rewrite (HasPrefixChar_app x "/") by done.
  change (x +:+ "/") with (x +:+ String Strings.slash "").
  rewrite Split_app, walk_fold_app. done.
Qed.

Lemma GetInstallPath_named env p :
  GetInstallPath env = Ok p →
  ∃ pre, ends_slash pre ∧ p = (pre +:+ appName) +:+ "/".
Proof.
  unfold GetInstallPath. intros H.
  assert (Hfmt : ∀ pre mid u,
            ∃ pre', ends_slash pre'
                    ∧ Sprintf2 (pre, mid +:+ "/", "/") u appName
                      = (pre' +:+ appName) +:+ "/").
  { intros pre mid u. exists (pre +:+ u +:+ mid +:+ "/").
    split; [repeat apply ends_slash_app; by exists ""|].
    unfold Sprintf2. cbn [fst snd]. by rewrite !append_assoc. }
  repeat case_decide;
    try (destruct (GetUsername env) as [u|]; [|done]);
    injection H as <-.
  - apply (Hfmt "C:/Users/" "/AppData/Local").
  - apply (Hfmt "/home/" "/.local/share").
  - exists "/Applications/". split; [by exists "/Applications"|done].
  - apply (Hfmt "" "").
Qed.

Lemma install_dir_named env cwd p :
  GetInstallPath env = Ok p → ∃ d, resolve cwd p = appName :: d.
Proof.
  intros (pre & Hpre & ->)%GetInstallPath_named.
  exists (resolve cwd pre).
  rewrite resolve_trailing_slash
    by (intros H; by apply append_eq_nil in H as [_ ?]).
  by apply resolve_child.
Qed.





(** ** Installing *)

Lemma MkdirAll_failure_unchanged (mode : N) (t : gmap (list string) Node) :
  ∀ p e, (Tree.MkdirAll p mode t).1 = Some e → (Tree.MkdirAll p mode t).2 = t.
Proof.
  induction p as [|x p IH]; intros e; [done|].
  cbn [Tree.MkdirAll]. rewrite node_at_cons.
  destruct (t !! (x :: p)) as [[m|m dat]|] eqn:Hxp; cbn [fst snd]; [done..|].
  pose proof (MkdirAll_spec mode t p) as (_ & Hnew & Hdir & _).
  destruct (Tree.MkdirAll p mode t) as [[e'|] t1]; cbn [fst snd] in *.
  - intros _. by eapply IH.
  - destruct (Hdir eq_refl) as [m Hm].
    assert (Hfresh : t1 !! (x :: p) = None).
    { destruct (t1 !! (x :: p)) as [n|] eqn:H1; [|done].
      destruct (Hnew _ _ Hxp H1) as (_ & Hsuf & _).
      by apply suffix_cons_not in Hsuf. }
    unfold Tree.Mkdir. rewrite node_at_cons, Hfresh. cbn [tail].
    rewrite Hm. done.
Qed.

Lemma is_dir_keeps (P : rpath → Prop) (t t' : gmap (list string) Node) (p : rpath) :
  keeps_inodes P t t' → Tree.is_dir t p → Tree.is_dir t' p.
Proof.
  intros Hk [m Hm]. destruct p as [|x p]; [by exists m|].
  rewrite node_at_cons in Hm. destruct (Hk _ _ Hm) as (n' & Hn' & Hs & _).
  destruct n' as [m'|m' d']; [|done]. exists m'. by rewrite node_at_cons.
Qed.

Section Steady.
Context {A B : Type}.

Lemma steady_ret (a : A) : steady (ret a).
Proof. intros w. split_and!; [done..|]. exists []. by rewrite app_nil_r. Qed.

Lemma steady_liftRes (r : Res A) : steady (liftRes r).
Proof. intros w. split_and!; [done..|]. exists []. by rewrite app_nil_r. Qed.

Lemma steady_emit ev : steady (emit ev).
Proof. intros w. split_and!; [done..|]. by exists [ev]. Qed.

Lemma steady_bind (m : M A) (k : A → M B) :
  steady m → (∀ a, steady (k a)) → steady (bind m k).
Proof.
  intros Hm Hk w. unfold bind. destruct (Hm w) as (C1 & U1 & e1 & H1).
  destruct (m w) as [[a|e] w1]; cbn in *.
  - destruct (Hk a w1) as (C2 & U2 & e2 & H2).
    rewrite C2, U2, H2, H1. split_and!; [done..|].
    exists (e1 ++ e2)%list. by rewrite app_assoc.
  - split_and!; [done..|]. by exists e1.
Qed.

Lemma steady_defer (cleanup : M unit) (body : M A) :
  steady cleanup → steady body → steady (defer cleanup body).
Proof.
  intros Hc Hb w. unfold defer. destruct (Hb w) as (C1 & U1 & e1 & H1).
  destruct (body w) as [r w1]; cbn in *.
  destruct (Hc w1) as (C2 & U2 & e2 & H2).
  destruct (cleanup w1) as [[[]|e] w2]; cbn in *;
    rewrite C2, U2, H2, H1; (split_and!; [done..|]);
    exists (e1 ++ e2)%list; by rewrite app_assoc.
Qed.

Lemma steady_quiet (m : M A) : quiet m → steady m.
Proof.
  intros H w. destruct (H w) as (evs & Hl & _ & Hc & Hu).
  split_and!; [done..|]. by exists evs.
Qed.

End Steady.

Lemma steady_Extract input output : steady (Extract input output).
Proof.
  unfold Extract. destruct (zip_NewReader input) as [err|files];
    [apply steady_ret|].
  intros w.
  destruct (Extract_loop_blocks output (List.length files) files 0 w)
    as (blocks & Hl & _ & _ & _ & _ & Hc & Hu).
  split_and!; [done..|]. by eexists.
Qed.

Lemma os_MkdirAll_eval path perm w :
  os_MkdirAll path perm w
  = (Ok (tree_call (λ p, Tree.MkdirAll p (FileMode.created (umask w) perm))
                   "mkdir" path (cwd w) (tree w)).1,
     mkWorld (cwd w) (umask w)
       (tree_call (λ p, Tree.MkdirAll p (FileMode.created (umask w) perm))
                  "mkdir" path (cwd w) (tree w)).2
       (log w ++ [EvMkdirAll path perm])).
Proof.
  run_monad os_MkdirAll. case_decide; [done|].
  by destruct (Tree.MkdirAll _ _ _).
Qed.

Lemma os_Stat_eval path w :
  path ≠ "" →
  os_Stat path w
  = (Ok (match Tree.node_at (tree w) (resolve (cwd w) path) with
         | Some n => inr n
         | None => inl (PathError "stat" ENOENT)
         end),
     mkWorld (cwd w) (umask w) (tree w) (log w ++ [EvStat path])).
Proof.
  intros Hne. run_monad os_Stat. rewrite decide_False by done.
  by destruct (Tree.node_at _ _).
Qed.

(** The row of buttons, by what is at the install path. *)
Lemma GetButtonContainer_eval env w p :
  GetInstallPath env = Ok p →
  (GetButtonContainer env w).1
  = Ok (if Tree.node_at (tree w) (resolve (cwd w) p) is Some _
        then ["Uninstall"; "Update"] else ["Install"]).
Proof.
  intros Hp. pose proof (GetInstallPath_ends_slash _ _ Hp) as Hsl.
  pose proof (ends_slash_nonempty _ Hsl) as Hne.
  unfold GetButtonContainer, liftRes, bind. rewrite Hp.
  rewrite os_Stat_eval by done.
  by destruct (Tree.node_at _ _).
Qed.

(** What [Install] does, step by step. *)
Lemma Install_eval appData env w p :
  GetInstallPath env = Ok p →
  let mk := Tree.MkdirAll (resolve (cwd w) p) (FileMode.created (umask w) 448)
                          (tree w) in
  let w1 := mkWorld (cwd w) (umask w) mk.2 (log w ++ [EvMkdirAll p 448]) in
  Install appData env w
  = match mk.1 with
    | Some e => (Ok (Some (PathError "mkdir" e)), w1)
    | None =>
        match appData with
        | inl err => (Ok (Some err), w1)
        | inr data =>
            Extract data p
              (mkWorld (cwd w) (umask w) mk.2
                 (log w ++ [EvMkdirAll p 448; EvStatus "Installing..."]))
        end
    end.
Proof.
  intros Hp mk w1. pose proof (GetInstallPath_ends_slash _ _ Hp) as Hsl.
  pose proof (ends_slash_nonempty _ Hsl) as Hne.
  unfold Install, liftRes, bind at 1 2. rewrite Hp, os_MkdirAll_eval.
  unfold tree_call. rewrite decide_False by done. fold mk.
  destruct mk as [[e|] t1] eqn:Hmk; cbn [fst snd path_error]; [done|].
  destruct appData as [err|data]; [done|].
  unfold bind, SetText, emit. cbn [cwd umask tree log].
  by rewrite <- app_assoc.
Qed.

(** X13.  [Install] makes the install directory before anything else, and
    the row of buttons goes by that directory alone.  Either a file is in
    the way, and [Install] returns the error of [os.MkdirAll] with nothing
    changed and nothing shown; or the install directory is there once
    [Install] is over, whatever it returns, and the row then offers
    Uninstall and Update; a payload that cannot be decoded is reported
    only after the directory was made, with no status shown. *)
Theorem Install_makes_the_directory_first appData env w p :
  GetInstallPath env = Ok p →
  ((Install appData env w).1 = Ok (Some (PathError "mkdir" ENOTDIR))
   ∧ tree (Install appData env w).2 = tree w
   ∧ log (Install appData env w).2 = (log w ++ [EvMkdirAll p 448])%list)
  ∨ (Tree.is_dir (tree (Install appData env w).2) (resolve (cwd w) p)
     ∧ (GetButtonContainer env (Install appData env w).2).1
       = Ok ["Uninstall"; "Update"]
     ∧ ∀ err, appData = inl err →
         (Install appData env w).1 = Ok (Some err)
         ∧ log (Install appData env w).2 = (log w ++ [EvMkdirAll p 448])%list).
Proof.
  intros Hp. rewrite (Install_eval appData env w p Hp). cbv zeta.
  pose proof (MkdirAll_spec (FileMode.created (umask w) 448) (tree w)
                (resolve (cwd w) p)) as (_ & _ & Hdir & Herr & _).
  pose proof (MkdirAll_failure_unchanged (FileMode.created (umask w) 448)
                (tree w) (resolve (cwd w) p)) as Hsame.
  destruct (Tree.MkdirAll _ _ _) as [[e|] t1]; cbn [fst snd] in *.
  - left. destruct Herr as [?|[= ->]]; [done|].
    split_and!; [done| |done]. cbn. by eapply Hsame.
  - right. specialize (Hdir eq_refl).
    assert (Hrow : ∀ w', cwd w' = cwd w →
              Tree.is_dir (tree w') (resolve (cwd w) p) →
              (GetButtonContainer env w').1 = Ok ["Uninstall"; "Update"]).
    { intros w' Hc [m Hm]. rewrite (GetButtonContainer_eval env w' p Hp).
      by rewrite Hc, Hm. }
    destruct appData as [err|data].
    + split_and!; [done|by apply Hrow|]. by intros err' [= <-].
    + set (w2 := mkWorld _ _ t1 _).
      assert (Hd2 : Tree.is_dir (tree (Extract data p w2).2)
                      (resolve (cwd w) p)).
      { eapply is_dir_keeps; [apply keeps_Extract|done]. }
      split_and!; [done| |done].
      apply Hrow; [|done]. by destruct (steady_Extract data p w2) as (-> & _).
Qed.

Lemma Install_makes_the_directory_first_witness :
  Tree.is_dir
    (tree (Install (inr Runs.assets) Runs.alice_linux Runs.world0).2)
    ("OpenRQ" :: Runs.share)
  ∧ (GetButtonContainer Runs.alice_linux
       (Install (inr Runs.assets) Runs.alice_linux Runs.world0).2).1
    = Ok ["Uninstall"; "Update"].
Proof.
  destruct (Install_makes_the_directory_first
              (inr Runs.assets) Runs.alice_linux Runs.world0
              "/home/alice/.local/share/OpenRQ/" eq_refl)
    as [(H & _)|(H1 & H2 & _)].
  - vm_compute in H. discriminate H.
  - split; [exact H1|exact H2].
Defined.

(** ** The row of buttons after an uninstall *)




(** ** Writing the shortcut *)

Lemma ioutil_WriteFile_eval path data perm w :
  path ≠ "" →
  ioutil_WriteFile path data perm w
  = (Ok (path_error "open"
           (Tree.OpenTrunc (resolve (cwd w) path)
                           (FileMode.created (umask w) perm) (tree w)).1),
     mkWorld (cwd w) (umask w)
       (match (Tree.OpenTrunc (resolve (cwd w) path)
                 (FileMode.created (umask w) perm) (tree w)).1 with
        | None =>
            Tree.Write (resolve (cwd w) path) data
              (Tree.OpenTrunc (resolve (cwd w) path)
                 (FileMode.created (umask w) perm) (tree w)).2
        | Some _ =>
            (Tree.OpenTrunc (resolve (cwd w) path)
               (FileMode.created (umask w) perm) (tree w)).2
        end)
       (log w ++ [EvWriteFile path perm])).
Proof.
  intros Hne. run_monad ioutil_WriteFile. unfold on_tree, tree_call.
  cbn [cwd umask tree log]. rewrite decide_False by done.
  by destruct (Tree.OpenTrunc _ _ _) as [[e|] t].
Qed.





(** Where things are on linux: the install directory and the directory of
    the shortcut lie side by side. *)
Lemma linux_layout env cwd p s :
  GOOS env = "linux" →
  GetInstallPath env = Ok p →
  GetShortcutLocation env = Ok s →
  ∃ base,
    resolve cwd p = appName :: base
    ∧ resolve cwd s = "openrq.desktop" :: "applications" :: base
    ∧ s ≠ "".
Proof.
  intros Hos Hp Hs. unfold GetInstallPath in Hp. unfold GetShortcutLocation in Hs.
  rewrite (decide_False (P := GOOS env = "windows")) in Hp
    by (rewrite Hos; done).
  rewrite (decide_True (P := GOOS env = "linux")) in Hp by done.
  rewrite (decide_True (P := GOOS env = "linux")) in Hs by done.
  destruct (GetUsername env) as [u|e]; [|done].
  set (pre := "/home/" +:+ u +:+ "/.local/share/").
  assert (Hp' : p = (pre +:+ appName) +:+ "/").
  { injection Hp as <-. subst pre. unfold Sprintf2. cbn [fst snd].
    rewrite !append_assoc. reflexivity. }
  assert (Hs' : s = ((pre +:+ "applications") +:+ "/") +:+ "openrq.desktop").
  { injection Hs as <-. subst pre. rewrite !append_assoc. reflexivity. }
  clear Hp Hs. subst p s.
  assert (Hpre : ends_slash pre).
  { subst pre. repeat apply ends_slash_app. by exists "/.local/share". }
  exists (resolve cwd pre).
  assert (Hk : ∀ name, name ≠ "" → pre +:+ name ≠ "").
  { intros name Hn H. by apply append_eq_nil in H as [_ ?]. }
  split_and!.
  - rewrite resolve_trailing_slash by by apply Hk.
    by apply resolve_child.
  - rewrite resolve_child; [|by eexists|done..].
    rewrite resolve_trailing_slash by by apply Hk.
    by rewrite resolve_child.
  - intros H. by apply append_eq_nil in H as [_ ?].
Qed.

Lemma CreateShortcut_linux_eval mach env w p s :
  GOOS env = "linux" →
  GetInstallPath env = Ok p →
  GetShortcutLocation env = Ok s →
  CreateShortcut mach env w
  = (Ok (path_error "open"
           (Tree.OpenTrunc (resolve (cwd w) s)
                           (FileMode.created (umask w) 448) (tree w)).1),
     mkWorld (cwd w) (umask w)
       (match (Tree.OpenTrunc (resolve (cwd w) s)
                 (FileMode.created (umask w) 448) (tree w)).1 with
        | None =>
            Tree.Write (resolve (cwd w) s) (bytes_of (desktop_entry p))
              (Tree.OpenTrunc (resolve (cwd w) s)
                 (FileMode.created (umask w) 448) (tree w)).2
        | Some _ =>
            (Tree.OpenTrunc (resolve (cwd w) s)
               (FileMode.created (umask w) 448) (tree w)).2
        end)
       (log w ++ [EvWriteFile s 448])).
Proof.
  intros Hos Hp Hs.
  destruct (linux_layout env (cwd w) p s Hos Hp Hs) as (_ & _ & _ & Hne).
  unfold CreateShortcut.
  rewrite (decide_False (P := GOOS env = "darwin")) by (rewrite Hos; done).
  rewrite (decide_True (P := GOOS env = "linux")) by done.
  rewrite Hp, Hs. unfold liftRes, bind.
  fold (desktop_entry p). rewrite ioutil_WriteFile_eval by done.
  by destruct (Tree.OpenTrunc _ _ _) as [[e|] t].
Qed.

(** X16.  [CreateShortcut] on linux writes one file and makes no
    directory: nothing but the path of the shortcut changes; when it
    returns nil the shortcut is a regular file that holds the desktop
    entry, with mode 0700 less the umask if it is new; and when the
    directory of the shortcut is missing the call fails with "not found"
    and changes nothing. *)
Theorem CreateShortcut_linux_writes_one_file mach env w p s :
  GOOS env = "linux" →
  GetInstallPath env = Ok p →
  GetShortcutLocation env = Ok s →
  let r := CreateShortcut mach env w in
  let q := resolve (cwd w) s in
  log r.2 = (log w ++ [EvWriteFile s 448])%list
  ∧ (∀ q', q' ≠ q → tree r.2 !! q' = tree w !! q')
  ∧ (r.1 = Ok None →
     ∃ m, tree r.2 !! q = Some (FileNode m (bytes_of (desktop_entry p)))
          ∧ (tree w !! q = None → m = FileMode.created (umask w) 448))
  ∧ (Tree.node_at (tree w) q = None →
     Tree.node_at (tree w) (tail q) = None →
     r.1 = Ok (Some (PathError "open" ENOENT)) ∧ tree r.2 = tree w).
Proof.
  intros Hos Hp Hs r q. subst r.
  rewrite (CreateShortcut_linux_eval mach env w p s Hos Hp Hs). fold q.
  cbn [fst snd log tree].
  pose proof (OpenTrunc_ok q (FileMode.created (umask w) 448) (tree w))
    as Hok.
  pose proof (OpenTrunc_err q (FileMode.created (umask w) 448) (tree w))
    as Herr.
  pose proof (λ q', OpenTrunc_other q (FileMode.created (umask w) 448)
                      (tree w) q') as Hother.
  destruct (Tree.OpenTrunc q _ (tree w)) as [[e|] t1] eqn:Ho;
    cbn [fst snd path_error] in *.
  - rewrite (Herr e eq_refl). split_and!; [done|done|done|].
    intros Hq Hpar. split; [|done].
    unfold Tree.OpenTrunc in Ho. rewrite Hq, Hpar in Ho. by simplify_eq.
  - destruct (Hok eq_refl) as (Hq & m & -> & Hm).
    rewrite Write_after_open. split_and!; [done| | |].
    + intros q' Hq'. by rewrite lookup_insert_ne.
    + intros _. exists m. rewrite lookup_insert_eq. split; [done|].
      intros Hnone. destruct Hm as [[d Hd]|(_ & -> & _)]; [congruence|done].
    + intros Hnone Hpar. unfold Tree.OpenTrunc in Ho.
      rewrite Hnone, Hpar in Ho. done.
Qed.

Lemma CreateShortcut_linux_writes_one_file_witness :
  log (CreateShortcut Runs.idle_host Runs.alice_linux Runs.installed_linux).2
  = [EvWriteFile "/home/alice/.local/share/applications/openrq.desktop" 448]
  ∧ tree (CreateShortcut Runs.idle_host Runs.alice_linux
            Runs.installed_linux).2 !! ("OpenRQ" :: "OpenRQ" :: Runs.share)
    = tree Runs.installed_linux !! ("OpenRQ" :: "OpenRQ" :: Runs.share)
  ∧ ∃ m,
      tree (CreateShortcut Runs.idle_host Runs.alice_linux
              Runs.installed_linux).2
        !! ("openrq.desktop" :: "applications" :: Runs.share)
      = Some (FileNode m
                (bytes_of (desktop_entry "/home/alice/.local/share/OpenRQ/"))).
Proof.
  destruct (CreateShortcut_linux_writes_one_file
              Runs.idle_host Runs.alice_linux Runs.installed_linux
              "/home/alice/.local/share/OpenRQ/"
              "/home/alice/.local/share/applications/openrq.desktop"
              eq_refl eq_refl eq_refl) as (H1 & H2 & H3 & _).
  split_and!.
  - exact H1.
  - apply H2. compute_done.
  - destruct H3 as (m & Hm & _); [vm_compute; reflexivity|].
    exists m. exact Hm.
Defined.

(** ** The handlers of the buttons *)

Lemma quiet_ioutil_WriteFile path data perm :
  quiet (ioutil_WriteFile path data perm).
Proof. quiet_op ioutil_WriteFile. Qed.

Lemma quiet_exec_Run mach name arg : quiet (exec_Run mach name arg).
Proof. quiet_op exec_Run. Qed.

Lemma quiet_os_Remove path : quiet (os_Remove path).
Proof. quiet_op os_Remove. Qed.

Lemma quiet_os_RemoveAll path : quiet (os_RemoveAll path).
Proof. quiet_op os_RemoveAll. Qed.

Lemma quiet_SetText text : quiet (SetText text).
Proof. by apply quiet_emit. Qed.

Lemma quiet_CreateShortcut mach env : quiet (CreateShortcut mach env).
Proof.
  unfold CreateShortcut.
  repeat case_decide; try apply quiet_ret;
    repeat first
      [ apply quiet_ret | apply quiet_liftRes | apply quiet_ioutil_WriteFile
      | apply quiet_exec_Run | apply quiet_os_Remove
      | apply quiet_bind; [|intros ?]
      | match goal with |- quiet (match ?x with _ => _ end) => destruct x end ].
Qed.

Lemma quiet_Uninstall env : quiet (Uninstall env).
Proof.
  unfold Uninstall.
  repeat first
    [ apply quiet_ret | apply quiet_liftRes | apply quiet_SetText
    | apply quiet_os_RemoveAll | apply quiet_os_Remove
    | apply quiet_bind; [|intros ?]
    | match goal with |- quiet (match ?x with _ => _ end) => destruct x end
    | match goal with |- quiet (if ?x then _ else _) => destruct x end ].
Qed.

Lemma steady_Install appData env : steady (Install appData env).
Proof.
  unfold Install.
  repeat first
    [ apply steady_ret | apply steady_liftRes | apply steady_Extract
    | apply steady_quiet, quiet_os_MkdirAll
    | apply steady_quiet, quiet_SetText
    | apply steady_bind; [|intros ?]
    | match goal with |- steady (match ?x with _ => _ end) => destruct x end ].
Qed.

Lemma installTapped_eval mach appData env w :
  installTapped mach appData env w
  = match Install appData env
            (mkWorld (cwd w) (umask w) (tree w) (log w ++ [EvProgress 0])) with
    | (Panic e, w1) => (Panic e, w1)
    | (Ok (Some e), w1) =>
        (Ok (Some e),
         mkWorld (cwd w1) (umask w1) (tree w1)
                 (log w1 ++ [EvStatus "Install failed"]))
    | (Ok None, w1) =>
        match CreateShortcut mach env w1 with
        | (Panic e, w2) => (Panic e, w2)
        | (Ok (Some e), w2) =>
            (Ok (Some e),
             mkWorld (cwd w2) (umask w2) (tree w2)
                     (log w2 ++ [EvStatus "Shortcut creation failed"]))
        | (Ok None, w2) =>
            (Ok None,
             mkWorld (cwd w2) (umask w2) (tree w2)
                     (log w2 ++ [EvProgress 1;
                                 EvStatus "Installation successful!"]))
        end
    end.
Proof.
  unfold installTapped, SetValue, SetText, bind at 1 2, emit at 1.
  destruct (Install appData env _) as [[[e|]|e] w1]; [done| |done].
  unfold bind at 1.
  destruct (CreateShortcut mach env w1) as [[[e|]|e] w2]; [done| |done].
  cbn. by rewrite <- app_assoc.
Qed.

Lemma uninstallTapped_eval env w :
  uninstallTapped env w
  = match Uninstall env
            (mkWorld (cwd w) (umask w) (tree w) (log w ++ [EvProgress 0])) with
    | (Panic e, w1) => (Panic e, w1)
    | (Ok (Some e), w1) =>
        (Ok (Some e),
         mkWorld (cwd w1) (umask w1) (tree w1)
                 (log w1 ++ [EvStatus "Uninstall failed"]))
    | (Ok None, w1) =>
        (Ok None,
         mkWorld (cwd w1) (umask w1) (tree w1)
                 (log w1 ++ [EvProgress 1; EvStatus "Uninstall successful"]))
    end.
Proof.
  unfold uninstallTapped, SetValue, SetText, bind at 1 2, emit at 1.
  destruct (Uninstall env _) as [[[e|]|e] w1]; [done| |done].
  cbn. by rewrite <- app_assoc.
Qed.

(** X17.  What the uninstall handler shows.  When it returns, the bar was
    set to 0 first and is touched again only to be set to 1 on success;
    the last thing shown is the status, "Uninstall successful" exactly
    when [Uninstall] returned nil and "Uninstall failed" with the error
    of [Uninstall] handed to the dialog otherwise. *)
Theorem uninstallTapped_reports_the_outcome env w r w' :
  uninstallTapped env w = (Ok r, w') →
  (Uninstall env (mkWorld (cwd w) (umask w) (tree w)
                          (log w ++ [EvProgress 0]))).1 = Ok r
  ∧ ∃ evs,
      Forall (λ ev, is_progress ev = false) evs
      ∧ log w'
        = (log w ++ EvProgress 0 :: evs
           ++ (if r is Some _ then [EvStatus "Uninstall failed"]
               else [EvProgress 1; EvStatus "Uninstall successful"]))%list.
Proof.
  rewrite uninstallTapped_eval. set (w0 := mkWorld _ _ _ _).
  destruct (quiet_Uninstall env w0) as (evs & Hl & Hq & _).
  destruct (Uninstall env w0) as [[[e|]|e] w1]; intros [= <- <-];
    (split; [done|]); exists evs; (split; [done|]);
    cbn [log snd] in *; rewrite Hl; subst w0; cbn [log];
    by rewrite <- !app_assoc.
Qed.

Lemma uninstallTapped_reports_the_outcome_witness :
  (Uninstall Runs.alice_linux
     (mkWorld (cwd Runs.installed_linux) (umask Runs.installed_linux)
              (tree Runs.installed_linux)
              (log Runs.installed_linux ++ [EvProgress 0]))).1 = Ok None
  ∧ ∃ evs,
      Forall (λ ev, is_progress ev = false) evs
      ∧ log (uninstallTapped Runs.alice_linux Runs.installed_linux).2
        = (log Runs.installed_linux ++ EvProgress 0 :: evs
           ++ [EvProgress 1; EvStatus "Uninstall successful"])%list.
Proof.
  refine (uninstallTapped_reports_the_outcome Runs.alice_linux
            Runs.installed_linux None
            (uninstallTapped Runs.alice_linux Runs.installed_linux).2 _).
  vm_compute. reflexivity.
Defined.

(** X18.  What the install handler shows.  When it returns, the bar was
    set to 0 first and a status is the last thing shown.  It is
    "Installation successful!", with the bar set to 1 just before,
    exactly when [Install] and then [CreateShortcut] returned nil; it is
    "Install failed" when [Install] returned the error handed to the
    dialog, and no shortcut was attempted; and it is "Shortcut creation
    failed" when [Install] went through and [CreateShortcut] returned
    the error. *)
Theorem installTapped_reports_the_outcome mach appData env w r w' :
  installTapped mach appData env w = (Ok r, w') →
  let inst :=
    Install appData env
      (mkWorld (cwd w) (umask w) (tree w) (log w ++ [EvProgress 0])) in
  ∃ evs status,
    log w' = (log w ++ EvProgress 0 :: evs ++ [EvStatus status])%list
    ∧ match r with
      | None =>
          status = "Installation successful!"
          ∧ (∃ evs', evs = evs' ++ [EvProgress 1])%list
          ∧ inst.1 = Ok None
          ∧ (CreateShortcut mach env inst.2).1 = Ok None
      | Some e =>
          (status = "Install failed"
           ∧ inst.1 = Ok (Some e) ∧ tree w' = tree inst.2
           ∧ log w' = (log inst.2 ++ [EvStatus status])%list)
          ∨ (status = "Shortcut creation failed"
             ∧ inst.1 = Ok None
             ∧ (CreateShortcut mach env inst.2).1 = Ok (Some e))
      end.
Proof.
  rewrite installTapped_eval. set (w0 := mkWorld _ _ _ _). cbv zeta.
  destruct (steady_Install appData env w0) as (_ & _ & evs1 & Hl1).
  destruct (Install appData env w0) as [[[e|]|e] w1]; cbn [fst snd] in *.
  - intros [= <- <-]. exists evs1, "Install failed". cbn [log tree].
    rewrite Hl1. subst w0. cbn [log]. rewrite <- !app_assoc.
    split; [done|]. by left.
  - destruct (quiet_CreateShortcut mach env w1) as (evs2 & Hl2 & _).
    destruct (CreateShortcut mach env w1) as [[[e|]|e] w2];
      cbn [fst snd] in *; intros [= <- <-]; cbn [log].
    + exists (evs1 ++ evs2)%list, "Shortcut creation failed".
      rewrite Hl2, Hl1. subst w0. cbn [log]. rewrite <- !app_assoc.
      split; [done|]. by right.
    + exists (evs1 ++ evs2 ++ [EvProgress 1])%list,
        "Installation successful!".
      rewrite Hl2, Hl1. subst w0. cbn [log]. rewrite <- !app_assoc.
      split_and!; [done|done| |done|done].
      exists (evs1 ++ evs2)%list. by rewrite <- app_assoc.
  - done.
Qed.

Lemma installTapped_reports_the_outcome_witness :
  let inst :=
    Install (inr Runs.assets) Runs.alice_linux
      (mkWorld (cwd Runs.home_linux) (umask Runs.home_linux)
               (tree Runs.home_linux)
               (log Runs.home_linux ++ [EvProgress 0])) in
  ∃ evs status,
    log (installTapped Runs.idle_host (inr Runs.assets) Runs.alice_linux
           Runs.home_linux).2
    = (log Runs.home_linux ++ EvProgress 0 :: evs ++ [EvStatus status])%list
    ∧ status = "Installation successful!"
    ∧ (∃ evs', evs = evs' ++ [EvProgress 1])%list
    ∧ inst.1 = Ok None
    ∧ (CreateShortcut Runs.idle_host Runs.alice_linux inst.2).1 = Ok None.
Proof.
  refine (installTapped_reports_the_outcome Runs.idle_host
            (inr Runs.assets) Runs.alice_linux Runs.home_linux None
            (installTapped Runs.idle_host (inr Runs.assets) Runs.alice_linux
               Runs.home_linux).2 _).
  vm_compute. reflexivity.
Defined.

(** ** A home without a directory for shortcuts *)

Lemma side_by_side (x y z : string) (base : rpath) :
  x ≠ y →
  ¬ (x :: base) `suffix_of` (y :: base)
  ∧ ¬ (x :: base) `suffix_of` (z :: y :: base)
  ∧ ¬ (z :: y :: base) `suffix_of` (x :: base).
Proof.
  intros Hxy.
  assert (H1 : ¬ (x :: base) `suffix_of` (y :: base)).
  { intros [H|H]%suffix_cons_split; [congruence|].
    by apply suffix_cons_not in H. }
  split_and!; [done| |].
  - intros [H|H]%suffix_cons_split; [|done].
    apply (f_equal List.length) in H. cbn in H. lia.
  - intros [H|H]%suffix_cons_split.
    + apply (f_equal List.length) in H. cbn in H. lia.
    + apply suffix_length in H. cbn in H. lia.
Qed.

(** What [Install] leaves alone: a path beside the install directory. *)
Lemma Install_beside env files w p q :
  GetInstallPath env = Ok p →
  (∀ f, f ∈ files → Filepath.dotdot ∉ Strings.Split (Name f) Strings.slash) →
  ¬ resolve (cwd w) p `suffix_of` q →
  ¬ q `suffix_of` resolve (cwd w) p →
  tree (Install (inr (GoodZip files)) env w).2 !! q = tree w !! q.
Proof.
  intros Hp Hfiles Hq1 Hq2.
  pose proof (ends_slash_nonempty _ (GetInstallPath_ends_slash _ _ Hp)) as Hne.
  rewrite (Install_eval _ env w p Hp). cbv zeta.
  destruct (MkdirAll_frame (cwd w) p (FileMode.created (umask w) 448)
              (resolve (cwd w) p) (tree w) q) as [Hmk|(_ & ? & _)];
    [by left|done| |done].
  destruct (Tree.MkdirAll _ _ (tree w)) as [[e|] t1]; cbn [fst snd] in *;
    [done|].
  set (w2 := mkWorld _ _ t1 _).
  destruct (Extract_effect files p w2) as [_ ->]. subst w2. cbn [cwd umask tree].
  destruct (run_effect_frame (cwd w) (umask w) p Hne files q t1 Hfiles Hq1)
    as [->|(_ & ? & _)]; done.
Qed.

Lemma Install_is_dir appData env w p :
  GetInstallPath env = Ok p →
  (Install appData env w).1 = Ok None →
  Tree.is_dir (tree (Install appData env w).2) (resolve (cwd w) p)
  ∧ cwd (Install appData env w).2 = cwd w
  ∧ umask (Install appData env w).2 = umask w.
Proof.
  intros Hp Hok.
  destruct (steady_Install appData env w) as (Hc & Hu & _).
  split; [|done].
  rewrite (Install_eval appData env w p Hp) in *. cbv zeta in *.
  pose proof (MkdirAll_spec (FileMode.created (umask w) 448) (tree w)
                (resolve (cwd w) p)) as (_ & _ & Hdir & _).
  destruct (Tree.MkdirAll _ _ (tree w)) as [[e|] t1]; cbn [fst snd] in *;
    [done|].
  destruct appData as [err|data]; [done|].
  eapply is_dir_keeps; [apply keeps_Extract|]. cbn [tree]. by apply Hdir.
Qed.

(** X19.  In a linux home without the directory for shortcuts the install
    handler cannot succeed.  [Install] makes its own directory with
    [os.MkdirAll], but [CreateShortcut] makes none: with an archive whose
    names have no [..] element, either [Install] fails, or the
    application is installed and the handler ends on "Shortcut creation
    failed" with the "not found" error of the write. *)
Theorem install_needs_the_applications_directory mach files env w p s :
  GOOS env = "linux" →
  GetInstallPath env = Ok p →
  GetShortcutLocation env = Ok s →
  tree_wf (tree w) →
  Tree.node_at (tree w) (tail (resolve (cwd w) s)) = None →
  (∀ f, f ∈ files → Filepath.dotdot ∉ Strings.Split (Name f) Strings.slash) →
  let r := installTapped mach (inr (GoodZip files)) env w in
  r.1 ≠ Ok None
  ∧ ∀ e, r.1 = Ok (Some e) →
      last (log r.2) = Some (EvStatus "Install failed")
      ∨ (e = PathError "open" ENOENT
         ∧ last (log r.2) = Some (EvStatus "Shortcut creation failed")
         ∧ Tree.is_dir (tree r.2) (resolve (cwd w) p)).
Proof.
  intros Hos Hp Hs Hwf Hpar Hfiles r. subst r.
  destruct (linux_layout env (cwd w) p s Hos Hp Hs) as (base & Hd & Hq & Hne).
  rewrite Hq in Hpar. cbn [tail] in Hpar. rewrite node_at_cons in Hpar.
  assert (Hfile : tree w !! ("openrq.desktop" :: "applications" :: base) = None).
  { destruct (tree w !! ("openrq.desktop" :: "applications" :: base))
      as [n|] eqn:Hn; [|done].
    destruct (Hwf _ _ Hn) as [_ [m Hm]]. cbn [tail] in Hm.
    rewrite node_at_cons in Hm. congruence. }
  destruct (side_by_side appName "applications" "openrq.desktop" base)
    as (Hs1 & Hs2 & Hs3); [done|].
  destruct (side_by_side "applications" appName "" base) as (Hs4 & _);
    [done|].
  rewrite installTapped_eval. set (w0 := mkWorld _ _ _ _).
  pose proof (Install_beside env files w0 p ("applications" :: base) Hp Hfiles)
    as Hb1.
  pose proof (Install_beside env files w0 p
                ("openrq.desktop" :: "applications" :: base) Hp Hfiles)
    as Hb2.
  pose proof (Install_is_dir (inr (GoodZip files)) env w0 p Hp) as Hinst.
  subst w0. cbn [cwd tree umask] in Hb1, Hb2, Hinst. rewrite Hd in *.
  specialize (Hb1 Hs1 Hs4). specialize (Hb2 Hs2 Hs3).
  destruct (Install _ env _) as [[[e|]|e] w1]; cbn [fst snd] in *.
  - split; [done|]. intros e' _. left. cbn [log]. apply last_snoc.
  - destruct (Hinst eq_refl) as (Hdir & Hc & Hu).
    rewrite (CreateShortcut_linux_eval mach env w1 p s Hos Hp Hs).
    rewrite Hc, Hq. unfold Tree.OpenTrunc. cbn [tail].
    rewrite !node_at_cons, Hb2, Hfile, Hb1, Hpar. cbn [fst snd path_error].
    split; [done|]. intros e' [= <-]. right. cbn [log tree].
    split_and!; [done|apply last_snoc|done].
  - split; [done|]. intros e' [=].
Qed.

Lemma install_needs_the_applications_directory_witness :
  let r := installTapped Runs.idle_host (inr Runs.assets) Runs.alice_linux
             Runs.world0 in
  r.1 ≠ Ok None
  ∧ (last (log r.2) = Some (EvStatus "Install failed")
     ∨ (PathError "open" ENOENT = PathError "open" ENOENT
        ∧ last (log r.2) = Some (EvStatus "Shortcut creation failed")
        ∧ Tree.is_dir (tree r.2) ("OpenRQ" :: Runs.share))).
Proof.
  assert (Hfiles : ∀ f,
            f ∈ [Runs.entry "assets/" Runs.dirmode ""; Runs.readme] →
            Filepath.dotdot ∉ Strings.Split (Name f) Strings.slash).
  { intros f Hf.
    repeat (apply elem_of_cons in Hf as [->|Hf]; [compute_done|]).
    by apply elem_of_nil in Hf. }
  destruct (install_needs_the_applications_directory
              Runs.idle_host
              [Runs.entry "assets/" Runs.dirmode ""; Runs.readme]
              Runs.alice_linux Runs.world0
              "/home/alice/.local/share/OpenRQ/"
              "/home/alice/.local/share/applications/openrq.desktop"
              eq_refl eq_refl eq_refl tree_wf_empty eq_refl Hfiles)
    as [H1 H2].
  split; [exact H1|].
  apply (H2 (PathError "open" ENOENT)). vm_compute. reflexivity.
Defined.

(** ** Panics of an extraction *)




(** ** Installing again *)




(** ** Installing and uninstalling *)





(** ** The mode of the install directory *)

(** X23.  The install directory is private when [Install] makes it: if
    nothing was at its path and it is there once [Install] is over, it is
    a directory with mode 0700 less the umask, whatever the archive holds
    and whatever [Install] returned; the entries of the archive cannot
    change it. *)
Theorem Install_makes_a_private_directory appData env w p :
  GetInstallPath env = Ok p →
  Tree.node_at (tree w) (resolve (cwd w) p) = None →
  is_Some (tree (Install appData env w).2 !! resolve (cwd w) p) →
  tree (Install appData env w).2 !! resolve (cwd w) p
  = Some (DirNode (FileMode.created (umask w) 448)).
Proof.
  intros Hp Hnone. rewrite (Install_eval appData env w p Hp). cbv zeta.
  destruct (install_dir_named env (cwd w) p Hp) as [d Hd].
  rewrite Hd in *. rewrite node_at_cons in Hnone.
  pose proof (MkdirAll_spec (FileMode.created (umask w) 448) (tree w)
                (appName :: d)) as (_ & Hnew & Hdir & _).
  pose proof (MkdirAll_failure_unchanged (FileMode.created (umask w) 448)
                (tree w) (appName :: d)) as Hsame.
  destruct (Tree.MkdirAll _ _ (tree w)) as [[e|] t1]; cbn [fst snd] in *.
  { cbn [tree snd]. rewrite (Hsame e eq_refl), Hnone. by intros [? ?]. }
  destruct (Hdir eq_refl) as [m Hm]. rewrite node_at_cons in Hm.
  destruct (Hnew _ _ Hnone Hm) as ([= ->] & _).
  destruct appData as [err|data]; [done|].
  set (w2 := mkWorld _ _ t1 _). intros _.
  destruct (keeps_Extract data p w2 (appName :: d) _ Hm)
    as (n' & -> & Hs & _).
  destruct n' as [m'|m' d']; [|done]. cbn in Hs. by subst m'.
Qed.

Lemma Install_makes_a_private_directory_witness :
  tree (Install (inr Runs.assets) Runs.alice_linux Runs.world0).2
    !! ("OpenRQ" :: Runs.share)
  = Some (DirNode 448).
Proof.
  refine (Install_makes_a_private_directory (inr Runs.assets)
            Runs.alice_linux Runs.world0 "/home/alice/.local/share/OpenRQ/"
            eq_refl eq_refl _).
  vm_compute. by eexists.
Defined.

(** ** The mode of an extracted file *)

(** X24.  The mode of an extracted file.  When a file entry has been
    extracted, its target is a regular file with the data of the entry;
    a file that was there before keeps its permission bits, and a file
    the entry creates gets the mode of the entry less the umask. *)
Theorem extracted_file_takes_the_mode_of_the_entry output file w :
  FileMode.IsDir (Mode file) = false →
  (extractAndWrite output file w).1 = Ok None →
  ∃ m,
    tree (extractAndWrite output file w).2 !! target (cwd w) output file
    = Some (FileNode m (Data file))
    ∧ (tree w !! target (cwd w) output file = None →
       m = FileMode.created (umask w) (Mode file))
    ∧ (∀ m0 d0,
         tree w !! target (cwd w) output file = Some (FileNode m0 d0) →
         m = m0).
Proof.
  intros Hfile.
  destruct (extractAndWrite_effect output file w) as [-> ->].
  unfold entry_effect, target.
  set (path := Filepath.Join [output; Name file]).
  set (mode := FileMode.created (umask w) (Mode file)).
  destruct (OpenErr file); [done|]. cbn [fst snd]. rewrite Hfile.
  destruct (CloseErr file); [done|].
  unfold tree_call.
  rewrite (decide_False (P := Filepath.Dir path = "")) by apply Clean_nonempty.
  destruct (MkdirAll_spec mode (tree w) (resolve (cwd w) (Filepath.Dir path)))
    as (Hsub & Hnew & _).
  destruct (Tree.MkdirAll (resolve (cwd w) (Filepath.Dir path)) mode (tree w))
    as [[e|] t1]; cbn [fst snd path_error] in *; [done|].
  case_decide; [done|].
  pose proof (OpenTrunc_ok (resolve (cwd w) path) mode t1) as Hok.
  destruct (Tree.OpenTrunc (resolve (cwd w) path) mode t1) as [[e|] t2];
    cbn [fst snd path_error] in *; [done|].
  destruct (Hok eq_refl) as (_ & m & -> & Hold).
  rewrite Write_after_open. destruct (ReadErr file); [done|]. intros _.
  exists m. rewrite lookup_insert_eq. split_and!; [done| |].
  - intros Hnone. destruct Hold as [[d Hd]|(_ & -> & _)]; [|done].
    destruct (Hnew _ _ Hnone Hd) as [[=] _].
  - intros m0 d0 H0. apply (lookup_weaken _ _ _ _ H0) in Hsub.
    destruct Hold as [[d Hd]|(Hd & _)]; congruence.
Qed.

Lemma extracted_file_takes_the_mode_of_the_entry_witness :
  ∃ m,
    tree (extractAndWrite "/tmp" (Runs.entry "b" 493 "fresh")
            Runs.two_files).2 !! ["b"; "tmp"]
    = Some (FileNode m (bytes_of "fresh"))
    ∧ (tree Runs.two_files !! ["b"; "tmp"] = None → m = 493%N)
    ∧ (∀ m0 d0,
         tree Runs.two_files !! ["b"; "tmp"] = Some (FileNode m0 d0) →
         m = m0).
Proof.
  exact (extracted_file_takes_the_mode_of_the_entry "/tmp"
           (Runs.entry "b" 493 "fresh") Runs.two_files eq_refl eq_refl).
Defined.

(** ** The buttons of the row *)

(** X25.  Toggling the buttons twice restores them: the handlers of the
    row toggle before and after the work, so every button is back as it
    was when the work is over; and a row whose buttons are all enabled is
    all disabled in between. *)
Theorem toggleButtons_twice_restores buttons :
  toggleButtons (toggleButtons buttons) = buttons
  ∧ List.length (toggleButtons buttons) = List.length buttons
  ∧ (Forall (λ disabled, disabled = false) buttons →
     Forall (λ disabled, disabled = true) (toggleButtons buttons)).
Proof.
  unfold toggleButtons. split_and!.
  - rewrite <- list_fmap_compose. rewrite <- (list_fmap_id buttons) at 2.
    apply list_fmap_ext. by intros _ [] _.
  - apply length_fmap.
  - intros H. apply Forall_fmap. eapply Forall_impl; [exact H|].
    by intros ? ->.
Qed.
